(** * active_subspaces.utils.misc: normalizers, shape validation and
      conditional statistics

    A shallow embedding of [active_subspaces/utils/misc.py] and the
    properties its specification states about it.

    Conventions of the embedding.
    - A NumPy array is a shape together with its elements in row-major
      (C) order, as NumPy stores it.
    - Python exceptions are values: every function that can raise returns
      a [result], carrying the exception class and its message.
    - Numbers come in two arithmetics.  The code computes in IEEE 754
      double precision: module [Double] has its numeric functions on the
      primitive binary64 numbers, with their rounding, overflow and
      signed zeros, and the statements on computed values are made
      there.  Module [Float] is exact arithmetic: finite values are
      rationals ([Qc]), nothing is rounded and nothing overflows, and the
      IEEE special values that a division by zero produces (the
      infinities and NaN) are kept.  What depends on shapes, on the order
      of the checks, on exceptions and on logging, and not on rounding,
      is stated on it, as is what the formulas give when no operation
      rounds.
    - The module is Python 2 code: [raise Exception, msg] raises
      [Exception(msg)].
    - The logging module is a list of emitted records, threaded through
      the one function that logs. *)

From Stdlib Require Import List Arith ZArith QArith Qcanon String Lia Field Bool.
From Stdlib Require Import DecimalString Permutation.
From Stdlib Require Import Floats Uint63.
Import ListNotations.

Set Implicit Arguments.

Close Scope Qc_scope.
Close Scope Q_scope.
Open Scope nat_scope.

(** ** Numbers *)

Module Float.

Local Open Scope Qc_scope.

(** An idealised double: an exact rational, an infinity, or NaN. *)
Inductive float : Type :=
| Fin (q : Qc)
| PInf
| NInf
| NaN.

Definition Qc_of_Z (z : Z) : Qc := Q2Qc (inject_Z z).
Definition Qc_of_nat (n : nat) : Qc := Qc_of_Z (Z.of_nat n).

Definition of_Z (z : Z) : float := Fin (Qc_of_Z z).
Definition of_nat (n : nat) : float := Fin (Qc_of_nat n).

Definition Qcsum (l : list Qc) : Qc := fold_right Qcplus 0 l.

Definition Qcltb (a b : Qc) : bool :=
  match a ?= b with Lt => true | _ => false end.

(** Sign of a value as a comparison with zero; [Eq] stands for "no sign"
    (zero or NaN). *)
Definition sgn (x : float) : comparison :=
  match x with
  | Fin q => q ?= 0
  | PInf => Gt
  | NInf => Lt
  | NaN => Eq
  end.

Definition sgn_mul (a b : comparison) : comparison :=
  match a, b with
  | Eq, _ | _, Eq => Eq
  | Gt, Gt | Lt, Lt => Gt
  | _, _ => Lt
  end.

(** The infinity of a given sign; no sign gives NaN (as in [0 * inf]). *)
Definition inf_of (c : comparison) : float :=
  match c with
  | Gt => PInf
  | Lt => NInf
  | Eq => NaN
  end.

Definition fneg (x : float) : float :=
  match x with
  | Fin q => Fin (- q)
  | PInf => NInf
  | NInf => PInf
  | NaN => NaN
  end.

Definition fadd (x y : float) : float :=
  match x, y with
  | NaN, _ | _, NaN => NaN
  | Fin a, Fin b => Fin (a + b)
  | PInf, NInf | NInf, PInf => NaN
  | PInf, _ | _, PInf => PInf
  | NInf, _ | _, NInf => NInf
  end.

Definition fsub (x y : float) : float := fadd x (fneg y).

Definition fmul (x y : float) : float :=
  match x, y with
  | NaN, _ | _, NaN => NaN
  | Fin a, Fin b => Fin (a * b)
  | _, _ => inf_of (sgn_mul (sgn x) (sgn y))
  end.

(** Division never raises in NumPy: [0/0] is NaN, [a/0] an infinity. *)
Definition fdiv (x y : float) : float :=
  match x, y with
  | NaN, _ | _, NaN => NaN
  | Fin a, Fin b =>
      if Qc_eq_bool b 0 then inf_of (a ?= 0) else Fin (a / b)
  | Fin _, _ => Fin 0
  | _, Fin b => inf_of (sgn_mul (sgn x) (if Qcltb b 0 then Lt else Gt))
  | _, _ => NaN
  end.

Definition is_finite (x : float) : bool :=
  match x with Fin _ => true | _ => false end.

(** [a < b] on floats, as IEEE has it on finite values. *)
Definition flt (x y : float) : Prop :=
  match x, y with
  | Fin a, Fin b => a < b
  | _, _ => False
  end.

End Float.

Import Float.

(** ** Exceptions *)

(** The exception classes this module, and the NumPy calls it makes, raise. *)
Inductive exn_class : Type :=
| ValueError
| Exception
| LinAlgError
| IndexError.

Definition exn : Type := (exn_class * string)%type.

Inductive result (A : Type) : Type :=
| OK (a : A)
| Error (e : exn).

Arguments OK {A} a.
Arguments Error {A} e.

Definition bind {A B : Type} (r : result A) (k : A -> result B) : result B :=
  match r with
  | OK a => k a
  | Error e => Error e
  end.

Declare Scope result_scope.
Delimit Scope result_scope with result.
Notation "x <- c1 ;; c2" := (bind c1 (fun x => c2))
  (at level 61, c1 at next level, right associativity) : result_scope.
Notation "' pat <- c1 ;; c2" := (bind c1 (fun x => match x with pat => c2 end))
  (at level 61, pat pattern, c1 at next level, right associativity) : result_scope.
Open Scope result_scope.

Definition is_OK {A : Type} (r : result A) : bool :=
  match r with OK _ => true | Error _ => false end.

(** The specification's error taxonomy, read off the exceptions the code
    raises. *)
Definition msg_inputs_2d : string := "The inputs X should be a two-d numpy array.".
Definition msg_outputs_2d : string := "The outputs f should be a two-d numpy array.".
Definition msg_count : string := "Different number of inputs and outputs.".
Definition msg_scalar : string := "Only scalar-valued functions.".
Definition msg_oned_as : string := "oned_as must be 'row' or 'col' ".

Definition ShapeError (e : exn) : Prop :=
  e = (ValueError, msg_inputs_2d) \/ e = (ValueError, msg_outputs_2d).
Definition CountMismatchError (e : exn) : Prop := e = (Exception, msg_count).
Definition NonScalarOutputError (e : exn) : Prop := e = (Exception, msg_scalar).

(** ** NumPy arrays *)

Record ndarray (T : Type) : Type := mk_ndarray {
  shape : list nat;
  data : list T
}.

Arguments mk_ndarray {T} shape data.

Section Arrays.

Variable T : Type.
Variable d : T.  (* the value read outside an array's bounds; never observed *)

Definition prod (s : list nat) : nat := fold_right Nat.mul 1 s.

Definition ndim (A : ndarray T) : nat := List.length (shape A).
Definition np_size (A : ndarray T) : nat := prod (shape A).

(** The invariant of every NumPy array: as many elements as its shape says. *)
Definition wf (A : ndarray T) : Prop := List.length (data A) = np_size A.

Definition msg_reshape : string := "total size of new array must be unchanged".

(** [A.reshape(s)]: same elements, new shape, when the sizes agree. *)
Definition reshape (A : ndarray T) (s : list nat) : result (ndarray T) :=
  if prod s =? np_size A then OK (mk_ndarray s (data A))
  else Error (ValueError, msg_reshape).

(** Row-major list of [f i j] for [i < M], [j < m]. *)
Definition tabulate2 (M m : nat) (f : nat -> nat -> T) : list T :=
  flat_map (fun i => map (f i) (seq 0 m)) (seq 0 M).

(** The [M]-by-[m] array with entries [g i j]. *)
Definition mat (M m : nat) (g : nat -> nat -> T) : ndarray T :=
  mk_ndarray [M; m] (tabulate2 M m g).

Definition ncols (A : ndarray T) : nat := nth 1 (shape A) 1.

(** [A[i, j]] of a 2-D array. *)
Definition get2 (A : ndarray T) (i j : nat) : T :=
  nth (i * ncols A + j) (data A) d.

(** [A.T] of a 2-D array (arrays of rank below two are their own
    transpose; higher ranks do not occur). *)
Definition transpose (A : ndarray T) : ndarray T :=
  match shape A with
  | [M; m] => mk_ndarray [m; M] (tabulate2 m M (fun j i => get2 A i j))
  | _ => A
  end.

(** NumPy broadcasting of one axis: equal lengths, or one of them is 1. *)
Definition broadcast_dim (a b : nat) : option nat :=
  if a =? b then Some a
  else if a =? 1 then Some b
  else if b =? 1 then Some a
  else None.

(** The index read along an axis of length [n]: a length-1 axis is
    repeated. *)
Definition bidx (n i : nat) : nat := if n =? 1 then 0 else i.

Definition msg_broadcast : string := "operands could not be broadcast together".

(** An elementwise binary operation on two 2-D arrays, with broadcasting.
    Every array operand of this module is 2-D where it is combined. *)
Definition broadcast2 (op : T -> T -> T) (A B : ndarray T) : result (ndarray T) :=
  match shape A, shape B with
  | [Ma; ma], [Mb; mb] =>
      match broadcast_dim Ma Mb, broadcast_dim ma mb with
      | Some M, Some m =>
          OK (mk_ndarray [M; m]
                (tabulate2 M m (fun i j =>
                   op (get2 A (bidx Ma i) (bidx ma j))
                      (get2 B (bidx Mb i) (bidx mb j)))))
      | _, _ => Error (ValueError, msg_broadcast)
      end
  | _, _ => Error (ValueError, msg_broadcast)
  end.

(** The array of shape [s] filled with [v]. *)
Definition full (s : list nat) (v : T) : ndarray T :=
  mk_ndarray s (repeat v (prod s)).

(** An elementwise operation with a Python scalar. *)
Definition map_array (f : T -> T) (A : ndarray T) : ndarray T :=
  mk_ndarray (shape A) (map f (data A)).

Definition msg_indices : string := "too many indices for array".

(** [A[None, :]] and [A[:, None]]: a new axis in front of, or behind, the
    first axis.  The slice [:] needs an axis to apply to. *)
Definition newaxis_row (A : ndarray T) : result (ndarray T) :=
  match shape A with
  | [] => Error (IndexError, msg_indices)
  | n :: s => OK (mk_ndarray (1 :: n :: s) (data A))
  end.

Definition newaxis_col (A : ndarray T) : result (ndarray T) :=
  match shape A with
  | [] => Error (IndexError, msg_indices)
  | n :: s => OK (mk_ndarray (n :: 1 :: s) (data A))
  end.

(** *** Shape validation *)

(** [process_inputs(X)] *)
Definition process_inputs (X : ndarray T) : result (ndarray T * nat * nat) :=
  match shape X with
  | [M; m] =>
      X' <- reshape X [M; m] ;;
      OK (X', M, m)
  | _ => Error (ValueError, msg_inputs_2d)
  end.

(** [process_inputs_outputs(X, f)] *)
Definition process_inputs_outputs (X f : ndarray T)
  : result (ndarray T * ndarray T * nat * nat) :=
  '(X', M, m) <- process_inputs X ;;
  match shape f with
  | [Mf; mf] =>
      if negb (Mf =? M) then Error (Exception, msg_count)
      else if negb (mf =? 1) then Error (Exception, msg_scalar)
      else
        f' <- reshape f [M; 1] ;;
        OK (X', f', M, m)
  | _ => Error (ValueError, msg_outputs_2d)
  end.

(** *** Row and column coercion *)

(** What [atleast_2d] may be handed: a bare scalar, a list or tuple
    (given by the array [np.array] makes of it), or an array. *)
Inductive pyobj : Type :=
| PyScalar (x : T)
| PySeq (a : ndarray T)
| PyArray (a : ndarray T).

(** The conversion at the head of [atleast_2d]: a scalar is wrapped in a
    one-element list first. *)
Definition as_array (A : pyobj) : ndarray T :=
  match A with
  | PyScalar x => mk_ndarray [1] [x]
  | PySeq a => a
  | PyArray a => a
  end.

(** [atleast_2d(A, oned_as)] *)
Definition atleast_2d (A : pyobj) (oned_as : string) : result (ndarray T) :=
  let A := as_array A in
  if ndim A <? 2 then
    if String.eqb oned_as "row" then newaxis_row A
    else if String.eqb oned_as "col" then newaxis_col A
    else Error (Exception, msg_oned_as)
  else OK A.

Definition atleast_2d_col (A : pyobj) : result (ndarray T) := atleast_2d A "col".
Definition atleast_2d_row (A : pyobj) : result (ndarray T) := atleast_2d A "row".

End Arrays.

Arguments full {T} s v.
Arguments PyScalar {T} x.
Arguments PySeq {T} a.
Arguments PyArray {T} a.

(** ** BoundedNormalizer *)

Module BoundedNormalizer.

Record t : Type := mk {
  lb : ndarray float;
  ub : ndarray float
}.

(** [BoundedNormalizer.__init__(self, lb, ub)] *)
Definition init (lb ub : ndarray float) : result t :=
  let m := np_size lb in
  lb' <- reshape lb [1; m] ;;
  ub' <- reshape ub [1; m] ;;
  OK (mk lb' ub').

(** [2.0 * (X - self.lb) / (self.ub - self.lb) - 1.0] *)
Definition normalize (self : t) (X : ndarray float) : result (ndarray float) :=
  '(X, _, _) <- process_inputs X ;;
  X_lb <- broadcast2 NaN fsub X (lb self) ;;
  let twice := map_array (fmul (of_Z 2)) X_lb in
  width <- broadcast2 NaN fsub (ub self) (lb self) ;;
  quot <- broadcast2 NaN fdiv twice width ;;
  OK (map_array (fun x => fsub x (of_Z 1)) quot).

(** [(self.ub - self.lb) * (X + 1.0) / 2.0 + self.lb] *)
Definition unnormalize (self : t) (X : ndarray float) : result (ndarray float) :=
  '(X, _, _) <- process_inputs X ;;
  width <- broadcast2 NaN fsub (ub self) (lb self) ;;
  let X1 := map_array (fun x => fadd x (of_Z 1)) X in
  scaled <- broadcast2 NaN fmul width X1 ;;
  let half := map_array (fun x => fdiv x (of_Z 2)) scaled in
  broadcast2 NaN fadd half (lb self).

End BoundedNormalizer.

(** The entrywise formulas of the specification, for one coordinate with
    bounds [l] and [u]: [2*(x - l)/(u - l) - 1] and [(u - l)*(x + 1)/2 + l]. *)
Definition normalize_elt (l u x : float) : float :=
  fsub (fdiv (fmul (of_Z 2) (fsub x l)) (fsub u l)) (of_Z 1).

Definition unnormalize_elt (l u x : float) : float :=
  fadd (fdiv (fmul (fsub u l) (fadd x (of_Z 1))) (of_Z 2)) l.

(** ** Conditional expectations *)

(** *** The logging module *)

Inductive log_level : Type := DEBUG | INFO | WARNING | ERROR | CRITICAL.

Record log_record : Type := mk_log {
  logger : string;
  level : log_level;
  message : string
}.

(** A computation that may raise and may log: the records emitted so far
    are threaded through, and survive an exception. *)
Definition logM (A : Type) : Type :=
  list log_record -> result A * list log_record.

Definition lret {A : Type} (a : A) : logM A := fun s => (OK a, s).

Definition lbind {A B : Type} (c : logM A) (k : A -> logM B) : logM B :=
  fun s =>
    match c s with
    | (OK a, s') => k a s'
    | (Error e, s') => (Error e, s')
    end.

Definition lift {A : Type} (r : result A) : logM A := fun s => (r, s).

(** [logging.getLogger(name).info(msg)] *)
Definition log_info (name msg : string) : logM unit :=
  fun s => (OK tt, s ++ [mk_log name INFO msg]).

Declare Scope log_scope.
Delimit Scope log_scope with log.
Notation "x <- c1 ;; c2" := (lbind c1 (fun x => c2))
  (at level 61, c1 at next level, right associativity) : log_scope.

(** *** The NumPy calls of [conditional_expectations] *)

Definition msg_amax : string :=
  "zero-size array to reduction operation maximum which has no identity".
Definition msg_negative : string := "negative dimensions are not allowed".
Definition msg_mask : string := "boolean index did not match indexed array".
Definition msg_bounds : string := "index out of bounds".

(** [np.amax(ind)] *)
Definition np_amax (ind : ndarray Z) : result Z :=
  match data ind with
  | [] => Error (ValueError, msg_amax)
  | x :: l => OK (fold_left Z.max l x)
  end.

(** [ind == i] *)
Definition np_eq (ind : ndarray Z) (i : Z) : ndarray bool :=
  mk_ndarray (shape ind) (map (fun x => Z.eqb x i) (data ind)).

Definition count_true (l : list bool) : nat :=
  List.length (filter (fun b => b) l).

(** [np.sum(mask)] of a boolean array *)
Definition np_sum_bool (mask : ndarray bool) : Z :=
  Z.of_nat (count_true (data mask)).

(** [np.zeros(shape)] *)
Definition np_zeros (s : list Z) : result (ndarray float) :=
  if existsb (fun z => Z.ltb z 0) s then Error (ValueError, msg_negative)
  else
    let s' := map Z.to_nat s in
    OK (mk_ndarray s' (repeat (of_Z 0) (prod s'))).

(** The blocks of [chunk] consecutive elements whose flag is set. *)
Fixpoint select (T : Type) (chunk : nat) (mask : list bool) (l : list T) : list T :=
  match mask with
  | [] => []
  | b :: mask' =>
      (if b then firstn chunk l else []) ++ select chunk mask' (skipn chunk l)
  end.

(** [A[mask]] for a boolean array [mask]: its shape has to match the
    leading axes of [A]; the selected blocks are stacked. *)
Definition boolean_index (T : Type) (A : ndarray T) (mask : ndarray bool)
  : result (ndarray T) :=
  let k := ndim mask in
  if list_eq_dec Nat.eq_dec (firstn k (shape A)) (shape mask) then
    let rest := skipn k (shape A) in
    OK (mk_ndarray (count_true (data mask) :: rest)
          (select (prod rest) (data mask) (data A)))
  else Error (IndexError, msg_mask).

(** [A[i] = v] for a Python scalar [v]: the whole block [i] is filled. *)
Definition setitem (T : Type) (A : ndarray T) (i : nat) (v : T) : result (ndarray T) :=
  match shape A with
  | [] => Error (IndexError, msg_indices)
  | n :: s =>
      if i <? n then
        let c := prod s in
        OK (mk_ndarray (shape A)
              (firstn (i * c) (data A) ++ repeat v c ++ skipn (i * c + c) (data A)))
      else Error (IndexError, msg_bounds)
  end.

Definition fsum (l : list float) : float := fold_left fadd l (of_Z 0).

(** [np.mean(A)]: the sum over the number of elements; no exception on an
    empty array, where it is [0/0]. *)
Definition np_mean (A : ndarray float) : float :=
  fdiv (fsum (data A)) (of_nat (np_size A)).

(** [np.var(A)] with the default [ddof=0]: the mean of the squared
    deviations from the mean. *)
Definition np_var (A : ndarray float) : float :=
  let mu := np_mean A in
  let sq := map (fun x => fmul (fsub x mu) (fsub x mu)) (data A) in
  fdiv (fsum sq) (of_nat (np_size A)).

(** ['{:d}'.format(z)] *)
Definition format_d (z : Z) : string := NilZero.string_of_int (Z.to_int z).

(** [range(n)] *)
Definition range (n : Z) : list Z := map Z.of_nat (seq 0 (Z.to_nat n)).

(** A [for] loop whose body may raise: the state is passed along. *)
Fixpoint for_each (A S : Type) (l : list A) (body : A -> S -> result S) (s : S)
  : result S :=
  match l with
  | [] => OK s
  | a :: l' => s' <- body a s ;; for_each l' body s'
  end.

Definition log_message (n NMC : Z) : string :=
  ("Computing " ++ format_d n ++ " conditional averages with "
     ++ format_d NMC ++ " MC samples.")%string.

(** The body of the loop of [conditional_expectations], for group [i]. *)
Definition group_step (f : ndarray float) (ind : ndarray Z) (i : Z)
  (acc : ndarray float * ndarray float)
  : result (ndarray float * ndarray float) :=
  let '(Ef, Vf) := acc in
  fi <- boolean_index f (np_eq ind i) ;;
  Ef <- setitem Ef (Z.to_nat i) (np_mean fi) ;;
  Vf <- setitem Vf (Z.to_nat i) (np_var fi) ;;
  OK (Ef, Vf).

(** [conditional_expectations(f, ind)] *)
Definition conditional_expectations (f : ndarray float) (ind : ndarray Z)
  : logM (ndarray float * ndarray float) :=
  (top <- lift (np_amax ind) ;;
   let n := (top + 1)%Z in
   let NMC := np_sum_bool (np_eq ind 0) in
   _ <- log_info "PAUL" (log_message n NMC) ;;
   Ef <- lift (np_zeros [n; 1%Z]) ;;
   Vf <- lift (np_zeros [n; 1%Z]) ;;
   lift (for_each (range n) (group_step f ind) (Ef, Vf)))%log.

(** A call, from a state where nothing has been logged. *)
Definition run_log (A : Type) (c : logM A) : result A * list log_record := c [].

(** The specification's words for the result: the values of [f] whose
    label is [i], their arithmetic mean, and their population variance
    (the sum of squared deviations over the count). *)
Definition group_values (f : ndarray float) (ind : ndarray Z) (i : Z) : list float :=
  map fst (filter (fun p => Z.eqb (snd p) i) (combine (data f) (data ind))).

Definition arithmetic_mean (l : list float) : float :=
  fdiv (fsum l) (of_nat (List.length l)).

Definition population_variance (l : list float) : float :=
  let mu := arithmetic_mean l in
  fdiv (fsum (map (fun x => fmul (fsub x mu) (fsub x mu)) l))
       (of_nat (List.length l)).

(** The same two statistics of finitely many rationals. *)
Definition mean_Q (qs : list Qc) : Qc :=
  (Qcsum qs / Qc_of_nat (List.length qs))%Qc.

Definition variance_Q (qs : list Qc) : Qc :=
  (Qcsum (map (fun q => (q - mean_Q qs) * (q - mean_Q qs)) qs)
   / Qc_of_nat (List.length qs))%Qc.

(** ** UnboundedNormalizer *)

(** The Gaussian normalizer is modelled on finite entries: nothing in it
    divides except the linear solve, which raises on a zero pivot. *)

Module LinAlg.

Local Open Scope Qc_scope.

(** Vectors of rationals; the operations treat a missing entry as zero, so
    they are total on vectors of any lengths. *)
Definition vec : Type := list Qc.

Fixpoint vadd (u v : vec) : vec :=
  match u, v with
  | [], _ => v
  | _, [] => u
  | a :: u', b :: v' => (a + b) :: vadd u' v'
  end.

Fixpoint vsub (u v : vec) : vec :=
  match u, v with
  | [], _ => map Qcopp v
  | _, [] => u
  | a :: u', b :: v' => (a - b) :: vsub u' v'
  end.

Definition vscale (c : Qc) (v : vec) : vec := map (Qcmult c) v.

(** [c_0 * x_0 + c_1 * x_1 + ...] for scalars [x_j]. *)
Fixpoint dot (c : vec) (x : list Qc) : Qc :=
  match x with
  | [] => 0
  | b :: x' => hd 0 c * b + dot (tl c) x'
  end.

(** The same combination of vectors [x_j]. *)
Fixpoint vlincomb (c : vec) (xs : list vec) : vec :=
  match xs with
  | [] => []
  | x :: xs' => vadd (vscale (hd 0 c) x) (vlincomb (tl c) xs')
  end.

(** Column [k] of a list of vectors. *)
Definition col (k : nat) (xs : list vec) : list Qc :=
  map (fun x => nth k x 0) xs.

Definition Qcabs (a : Qc) : Qc := if Qcltb a 0 then - a else a.

(** One equation of a system with several right-hand sides: the
    coefficients of the unknowns still to eliminate, and the right-hand
    sides. *)
Definition row : Type := (vec * vec)%type.

Definition lead (r : row) : Qc := hd 0 (fst r).

Definition no_row : row := ([], []).

(** Partial pivoting: the index of the first row whose leading
    coefficient is largest in absolute value. *)
Fixpoint argmax_abs (rows : list row) : nat :=
  match rows with
  | [] => O
  | r :: rest =>
      let p := argmax_abs rest in
      if Qcltb (Qcabs (lead r)) (Qcabs (lead (nth p rest no_row))) then S p
      else O
  end.

(** The pivot row, and the other rows once the pivot row and the first
    row have changed places.  No pivot when the leading column is zero. *)
Definition pivot_select (rows : list row) : option (row * list row) :=
  match rows with
  | [] => None
  | r0 :: rest =>
      let p := argmax_abs rows in
      let piv := nth p rows r0 in
      if Qc_eq_bool (lead piv) 0 then None
      else
        Some (piv,
              match p with
              | O => rest
              | S p' => firstn p' rest ++ r0 :: skipn (S p') rest
              end)
  end.

(** Subtract the multiple of the pivot row that clears the leading
    coefficient of [r]. *)
Definition eliminate (piv r : row) : row :=
  let f := lead r / lead piv in
  (vsub (tl (fst r)) (vscale f (tl (fst piv))),
   vsub (snd r) (vscale f (snd piv))).

(** The unknown of the pivot row, from the unknowns after it. *)
Definition back_substitute (piv : row) (xs : list vec) : vec :=
  vscale (/ lead piv) (vsub (snd piv) (vlincomb (tl (fst piv)) xs)).

(** LAPACK's [gesv] in exact arithmetic: Gaussian elimination with
    partial pivoting on [n] unknowns, then back substitution. *)
Fixpoint gesv (n : nat) (rows : list row) : option (list vec) :=
  match n with
  | O => Some []
  | S n' =>
      match pivot_select rows with
      | None => None
      | Some (piv, rest) =>
          match gesv n' (map (eliminate piv) rest) with
          | None => None
          | Some xs => Some (back_substitute piv xs :: xs)
          end
      end
  end.

(** [xs] satisfies every equation, for every right-hand side. *)
Definition solves (rows : list row) (xs : list vec) : Prop :=
  forall r, In r rows ->
    forall k, dot (fst r) (col k xs) = nth k (snd r) 0.

(** The coefficient rows have a trivial kernel among [n] unknowns. *)
Definition nonsingular (n : nat) (rows : list row) : Prop :=
  forall x, List.length x = n ->
    (forall r, In r rows -> dot (fst r) x = 0) -> x = repeat 0 n.

(** The rows of a 2-D array. *)
Definition rows_of (A : ndarray Qc) : list vec :=
  match shape A with
  | [M; m] => map (fun i => map (fun j => get2 0 A i j) (seq 0 m)) (seq 0 M)
  | _ => []
  end.

Definition of_rows (n K : nat) (xs : list vec) : ndarray Qc :=
  mk_ndarray [n; K] (tabulate2 n K (fun i k => nth k (nth i xs []) 0)).

Definition msg_2d : string := "array must be at least two-dimensional".
Definition msg_square : string := "Last 2 dimensions of the array must be square".
Definition msg_singular : string := "Singular matrix".
Definition msg_aligned : string := "shapes not aligned".

(** The argument checks [np.linalg.solve(a, b)] makes, for a 2-D [b],
    around a solver for the rows. *)
Definition solve_with (solver : nat -> list row -> option (list vec))
  (a b : ndarray Qc) : result (ndarray Qc) :=
  match shape a with
  | [n; n'] =>
      if negb (n =? n')%nat then Error (LinAlgError, msg_square)
      else
        match shape b with
        | [nb; K] =>
            if negb (nb =? n)%nat then Error (ValueError, msg_aligned)
            else
              match solver n (combine (rows_of a) (rows_of b)) with
              | Some xs => OK (of_rows n K xs)
              | None => Error (LinAlgError, msg_singular)
              end
        | _ => Error (ValueError, msg_aligned)
        end
  | _ => Error (LinAlgError, msg_2d)
  end.

(** [np.linalg.solve(a, b)] *)
Definition solve (a b : ndarray Qc) : result (ndarray Qc) := solve_with gesv a b.

(** [np.dot(A, B)] of two 2-D arrays *)
Definition np_dot (A B : ndarray Qc) : result (ndarray Qc) :=
  match shape A, shape B with
  | [M; m], [m'; K] =>
      if (m =? m')%nat then
        OK (mk_ndarray [M; K]
              (tabulate2 M K (fun i k =>
                 Qcsum (map (fun j => get2 0 A i j * get2 0 B j k) (seq 0 m)))))
      else Error (ValueError, msg_aligned)
  | _, _ => Error (ValueError, msg_aligned)
  end.

(** [sum_j a i j * z j k], entry [(i, k)] of the product of the arrays
    with entries [a] and [z]. *)
Definition product_entry (a z : nat -> nat -> Qc) (m i k : nat) : Qc :=
  Qcsum (map (fun j => a i j * z j k) (seq 0 m)).

(** The array with entries [a] sends no vector to zero but zero. *)
Definition kernel_trivial (m : nat) (a : nat -> nat -> Qc) : Prop :=
  forall x, List.length x = m ->
    (forall i, (i < m)%nat ->
       Qcsum (map (fun j => a i j * nth j x 0) (seq 0 m)) = 0) ->
    x = repeat 0 m.

(** *** Forward substitution *)

(** The reference algorithm the specification asks for: row [i] of a
    lower-triangular system gives unknown [i] from the unknowns before it,
    [z_i = (b_i - sum_{j<i} L_ij z_j) / L_ii]; nothing right of the
    diagonal is read. *)
Fixpoint forward_rows (rows : list row) (zs : list vec) : option (list vec) :=
  match rows with
  | [] => Some zs
  | (c, b) :: rest =>
      let lii := nth (List.length zs) c 0 in
      if Qc_eq_bool lii 0 then None
      else forward_rows rest (zs ++ [vscale (/ lii) (vsub b (vlincomb c zs))])
  end.

Definition forward_substitution (a b : ndarray Qc) : result (ndarray Qc) :=
  solve_with (fun _ rows => forward_rows rows []) a b.

(** *** Cholesky factors *)

Definition lower_triangular (L : ndarray Qc) : Prop :=
  forall i j, (i < j)%nat -> (j < ncols L)%nat -> get2 0 L i j = 0.

Definition symmetric (C : ndarray Qc) : Prop :=
  forall i j, (i < ncols C)%nat -> (j < ncols C)%nat ->
    get2 0 C i j = get2 0 C j i.

(** What [np.linalg.cholesky(C)] returns when it returns: a
    lower-triangular array of the shape of [C], with a positive diagonal,
    whose product with its transpose is [C] (for a symmetric [C]; only
    the lower triangle of [C] is read). *)
Definition cholesky_factor (C L : ndarray Qc) : Prop :=
  exists m,
    shape C = [m; m] /\ shape L = [m; m] /\ wf L /\
    lower_triangular L /\
    (forall i, (i < m)%nat -> 0 < get2 0 L i i) /\
    (symmetric C -> np_dot L (transpose 0 L) = OK C).

End LinAlg.

Import LinAlg.

Module UnboundedNormalizer.

Record t : Type := mk {
  mu : ndarray Qc;
  L : ndarray Qc
}.

Section Init.

(** [np.linalg.cholesky]: its result is irrational in general, so the
    factorisation is a parameter of the constructor. *)
Variable cholesky : ndarray Qc -> result (ndarray Qc).

(** [UnboundedNormalizer.__init__(self, mu, C)] *)
Definition init (mu C : ndarray Qc) : result t :=
  mu' <- reshape mu [1; np_size mu] ;;
  L <- cholesky C ;;
  OK (mk mu' L).

End Init.

(** [np.linalg.solve(self.L, (X - self.mu).T).T] *)
Definition normalize (self : t) (X : ndarray Qc) : result (ndarray Qc) :=
  '(X, _, _) <- process_inputs X ;;
  X0 <- broadcast2 0%Qc Qcminus X (mu self) ;;
  Z <- solve (L self) (transpose 0%Qc X0) ;;
  OK (transpose 0%Qc Z).

(** [np.dot(X, self.L.T) + self.mu] *)
Definition unnormalize (self : t) (X : ndarray Qc) : result (ndarray Qc) :=
  '(X, _, _) <- process_inputs X ;;
  X0 <- np_dot X (transpose 0%Qc (L self)) ;;
  broadcast2 0%Qc Qcplus X0 (mu self).

End UnboundedNormalizer.

(** ** The Normalizer interface *)

(** The abstract class [Normalizer]: a state type [S] with the two methods,
    on arrays with entries in [E].  Its two subclasses are its instances. *)
Class Normalizer (S E : Type) : Type := {
  normalize : S -> ndarray E -> result (ndarray E);
  unnormalize : S -> ndarray E -> result (ndarray E)
}.

#[global] Instance Bounded_Normalizer : Normalizer BoundedNormalizer.t float := {
  normalize := BoundedNormalizer.normalize;
  unnormalize := BoundedNormalizer.unnormalize
}.


(** Both round trips through a normalizer return [X]:
    [unnormalize(normalize(X)) == X] and [normalize(unnormalize(X)) == X]. *)
Definition round_trip (S E : Type) `{Normalizer S E} (self : S) (X : ndarray E)
  : Prop :=
  (exists Y, normalize self X = OK Y /\ unnormalize self Y = OK X) /\
  (exists W, unnormalize self X = OK W /\ normalize self W = OK X).

(** The specification's words for [normalize]: the same steps, with the
    triangular system solved by forward substitution. *)
Definition normalize_by_forward_substitution
  (self : UnboundedNormalizer.t) (X : ndarray Qc) : result (ndarray Qc) :=
  '(X, _, _) <- process_inputs X ;;
  X0 <- broadcast2 0%Qc Qcminus X (UnboundedNormalizer.mu self) ;;
  Z <- forward_substitution (UnboundedNormalizer.L self) (transpose 0%Qc X0) ;;
  OK (transpose 0%Qc Z).

(** ** Worked instances *)

(** Arrays of ranks one and two. *)
Definition X_2x3 : ndarray nat := mk_ndarray [2; 3] [1; 2; 3; 4; 5; 6].
Definition f_2x1 : ndarray nat := mk_ndarray [2; 1] [7; 8].
Definition f_2x0 : ndarray nat := mk_ndarray [2; 0] [].
Definition v_3 : ndarray nat := mk_ndarray [3] [1; 2; 3].

(** Bounds [0 <= x0 <= 1], [1 <= x1 <= 3], and two points, one of them
    outside the box. *)
Definition lb_box : ndarray float := mk_ndarray [2] [of_Z 0; of_Z 1].
Definition ub_box : ndarray float := mk_ndarray [2] [of_Z 1; of_Z 3].
Definition N_box : BoundedNormalizer.t :=
  BoundedNormalizer.mk (mk_ndarray [1; 2] (data lb_box))
                       (mk_ndarray [1; 2] (data ub_box)).
Definition X_box : ndarray float :=
  mk_ndarray [2; 2] [of_Z 1; of_Z 2; of_Z 7; NaN].

(** A coordinate whose two bounds are equal. *)
Definition lb_flat : ndarray float := mk_ndarray [1] [of_Z 0].
Definition N_flat : BoundedNormalizer.t :=
  BoundedNormalizer.mk (mk_ndarray [1; 1] [of_Z 0]) (mk_ndarray [1; 1] [of_Z 0]).

(** The example of the specification: [f = [1, 2, 3, 4]] as a column,
    [ind = [0, 0, 1, 1]]. *)
Definition f_example : ndarray float :=
  mk_ndarray [4; 1] [of_Z 1; of_Z 2; of_Z 3; of_Z 4].
Definition ind_example : ndarray Z := mk_ndarray [4] [0; 0; 1; 1]%Z.

Definition ratio (a : Z) (b : positive) : float := Fin (Q2Qc (Qmake a b)).

(** No value and no label at all: [M = 0]. *)
Definition f_empty : ndarray float := mk_ndarray [0; 1] [].
Definition ind_empty : ndarray Z := mk_ndarray [0] [].

Definition array_eqb (A B : ndarray Qc) : bool :=
  (if list_eq_dec Nat.eq_dec (shape A) (shape B) then true else false)
  && (List.length (data A) =? List.length (data B))
  && forallb (fun p => Qc_eq_bool (fst p) (snd p)) (combine (data A) (data B)).

Definition C_example : ndarray Qc :=
  mk_ndarray [2; 2] (map Qc_of_Z [4; 2; 2; 5]%Z).
Definition L_example : ndarray Qc :=
  mk_ndarray [2; 2] (map Qc_of_Z [2; 0; 1; 2]%Z).

(** A factorisation defined on the one covariance matrix above, whose
    factor is rational: [[4, 2], [2, 5]] = [[2, 0], [1, 2]] . [[2, 0], [1, 2]]^T. *)
Definition cholesky_example (C : ndarray Qc) : result (ndarray Qc) :=
  if array_eqb C C_example then OK L_example
  else Error (LinAlgError, "Matrix is not positive definite"%string).

Definition mu_example : ndarray Qc := mk_ndarray [2] (map Qc_of_Z [1; 2]%Z).
Definition N_example : UnboundedNormalizer.t :=
  UnboundedNormalizer.mk (mk_ndarray [1; 2] (data mu_example)) L_example.
Definition X_example : ndarray Qc :=
  mk_ndarray [3; 2] (map Qc_of_Z [1; 2; 3; 4; 5; -7]%Z).
Definition B_example : ndarray Qc :=
  mk_ndarray [2; 1] (map Qc_of_Z [1; 1]%Z).

(** An array with an entry above the diagonal:
    [[1, 1], [0, 1]] . [0, 1]^T = [1, 1]^T; and a normalizer whose [L]
    has been set to it. *)
Definition U_example : ndarray Qc :=
  mk_ndarray [2; 2] (map Qc_of_Z [1; 1; 0; 1]%Z).
Definition N_upper : UnboundedNormalizer.t :=
  UnboundedNormalizer.mk (mk_ndarray [1; 2] (data mu_example)) U_example.

(** ** Further definitions *)

(** A zero-dimensional array, as [np.array(5)] is. *)
Definition a_0d : ndarray nat := mk_ndarray [] [5].

(** An array of one column and an array of three. *)
Definition X_one_column : ndarray float := mk_ndarray [2; 1] [of_Z 1; of_Z 7].
Definition X_three_columns : ndarray float :=
  mk_ndarray [1; 3] [of_Z 1; of_Z 2; of_Z 3].

(** A mean of three entries beside the 2-by-2 covariance [C_example], the
    normalizer the constructor builds from them, and an array of three
    columns. *)
Definition mu_three : ndarray Qc := mk_ndarray [3] (map Qc_of_Z [1; 2; 3]%Z).
Definition N_mismatch : UnboundedNormalizer.t :=
  UnboundedNormalizer.mk (mk_ndarray [1; 3] (data mu_three)) L_example.
Definition X_wide : ndarray Qc := mk_ndarray [1; 3] (map Qc_of_Z [1; 2; 3]%Z).

(** The column of a statistic of the groups [0 .. n-1]. *)
Definition group_column (stat : list float -> float)
  (f : ndarray float) (ind : ndarray Z) (n : nat) : ndarray float :=
  mk_ndarray [n; 1]
    (map (fun i => stat (group_values f ind (Z.of_nat i))) (seq 0 n)).

(** Zero or above, an overflow to [+inf], or NaN: not a negative value. *)
Definition not_negative (x : float) : Prop :=
  match x with
  | Fin q => (0 <= q)%Qc
  | PInf | NaN => True
  | NInf => False
  end.

(** The samples whose label is not negative, as a column and its labels. *)
Definition labelled (f : ndarray float) (ind : ndarray Z) : list (float * Z) :=
  filter (fun p => (0 <=? snd p)%Z) (combine (data f) (data ind)).

Definition labelled_values (f : ndarray float) (ind : ndarray Z) : ndarray float :=
  mk_ndarray [List.length (labelled f ind); 1] (map fst (labelled f ind)).

Definition labelled_labels (f : ndarray float) (ind : ndarray Z) : ndarray Z :=
  mk_ndarray [List.length (labelled f ind)] (map snd (labelled f ind)).

(** Labels with a negative entry, only negative labels, and a flat array
    of values. *)
Definition ind_mixed : ndarray Z := mk_ndarray [4] [0; -3; 1; 1]%Z.
Definition ind_negative : ndarray Z := mk_ndarray [4] [-1; -2; -1; -1]%Z.
Definition ind_below : ndarray Z := mk_ndarray [4] [-2; -2; -3; -2]%Z.
Definition f_flat : ndarray float :=
  mk_ndarray [4] [of_Z 1; of_Z 2; of_Z 3; of_Z 4].

(** ** Double precision *)

(** The arithmetic the code runs in: IEEE 754 binary64 with rounding to
    nearest even, as the kernel's primitive floating-point numbers
    implement it.  The definitions of this module are those above on
    that arithmetic, operation for operation. *)

Module Double.

Local Open Scope float_scope.

Abbreviation double := PrimFloat.float (only parsing).

(** A count as a double, as in a division by a length. *)
Definition of_nat (n : nat) : double :=
  PrimFloat.of_uint63 (Uint63.of_Z (Z.of_nat n)).

(** Zero of either sign, or a nonzero finite value. *)
Definition finite (x : double) : bool :=
  match Prim2SF x with
  | S754_zero _ | S754_finite _ _ _ => true
  | _ => false
  end.

Definition finite_nonzero (x : double) : bool :=
  match Prim2SF x with
  | S754_finite _ _ _ => true
  | _ => false
  end.

(** Neither a zero nor NaN: a value one can divide zero by. *)
Definition divisor (x : double) : bool :=
  match Prim2SF x with
  | S754_finite _ _ _ | S754_infinity _ => true
  | _ => false
  end.

(** *** BoundedNormalizer *)

Module BoundedNormalizer.

Record t : Type := mk {
  lb : ndarray double;
  ub : ndarray double
}.

(** [BoundedNormalizer.__init__(self, lb, ub)] *)
Definition init (lb ub : ndarray double) : result t :=
  let m := np_size lb in
  lb' <- reshape lb [1%nat; m] ;;
  ub' <- reshape ub [1%nat; m] ;;
  OK (mk lb' ub').

(** [2.0 * (X - self.lb) / (self.ub - self.lb) - 1.0] *)
Definition normalize (self : t) (X : ndarray double) : result (ndarray double) :=
  '(X, _, _) <- process_inputs X ;;
  X_lb <- broadcast2 nan PrimFloat.sub X (lb self) ;;
  let twice := map_array (fun x => 2 * x) X_lb in
  width <- broadcast2 nan PrimFloat.sub (ub self) (lb self) ;;
  quot <- broadcast2 nan PrimFloat.div twice width ;;
  OK (map_array (fun x => x - 1) quot).

(** [(self.ub - self.lb) * (X + 1.0) / 2.0 + self.lb] *)
Definition unnormalize (self : t) (X : ndarray double) : result (ndarray double) :=
  '(X, _, _) <- process_inputs X ;;
  width <- broadcast2 nan PrimFloat.sub (ub self) (lb self) ;;
  let X1 := map_array (fun x => x + 1) X in
  scaled <- broadcast2 nan PrimFloat.mul width X1 ;;
  let half := map_array (fun x => x / 2) scaled in
  broadcast2 nan PrimFloat.add half (lb self).

End BoundedNormalizer.

(** The two formulas for one entry, with the bounds [l] and [u] of its
    column. *)
Definition normalize_elt (l u x : double) : double :=
  2 * (x - l) / (u - l) - 1.

Definition unnormalize_elt (l u x : double) : double :=
  (u - l) * (x + 1) / 2 + l.

(** *** Linear algebra *)

(** The LAPACK and BLAS routines behind [np.linalg.solve],
    [np.linalg.cholesky] and [np.dot], in the order of operations of
    their reference implementations. *)

Module LinAlg.

Definition vec : Type := list double.

(** [v - f * p], entry by entry *)
Fixpoint axpy_sub (f : double) (p v : vec) : vec :=
  match v, p with
  | a :: v', b :: p' => (a - f * b) :: axpy_sub f p' v'
  | _, _ => v
  end.

(** [acc - u_0 * v_0 - u_1 * v_1 - ...] and [acc + u_0 * v_0 + ...],
    one term after the other. *)
Fixpoint sub_products (acc : double) (u v : vec) : double :=
  match u, v with
  | a :: u', b :: v' => sub_products (acc - a * b) u' v'
  | _, _ => acc
  end.

Fixpoint add_products (acc : double) (u v : vec) : double :=
  match u, v with
  | a :: u', b :: v' => add_products (acc + a * b) u' v'
  | _, _ => acc
  end.

Definition row : Type := (vec * vec)%type.

Definition lead (r : row) : double := hd 0 (fst r).

Definition no_row : row := ([], []).

(** Partial pivoting ([idamax]): the index of the first row whose leading
    coefficient is largest in absolute value. *)
Fixpoint argmax_abs (rows : list row) : nat :=
  match rows with
  | [] => O
  | r :: rest =>
      let p := argmax_abs rest in
      if PrimFloat.ltb (PrimFloat.abs (lead r))
           (PrimFloat.abs (lead (nth p rest no_row))) then S p
      else O
  end.

Definition pivot_select (rows : list row) : option (row * list row) :=
  match rows with
  | [] => None
  | r0 :: rest =>
      let p := argmax_abs rows in
      let piv := nth p rows r0 in
      if PrimFloat.eqb (lead piv) 0 then None
      else
        Some (piv,
              match p with
              | O => rest
              | S p' => firstn p' rest ++ r0 :: skipn (S p') rest
              end)
  end.

(** One step of the factorisation ([dgetf2]): the multiplier is the
    leading coefficient times the reciprocal of the pivot. *)
Definition eliminate (piv r : row) : row :=
  let f := lead r * (1 / lead piv) in
  (axpy_sub f (tl (fst piv)) (tl (fst r)),
   axpy_sub f (snd piv) (snd r)).

(** The unknown of the pivot row ([dtrsm]): the later unknowns are
    subtracted last one first, then the pivot divides. *)
Definition back_substitute (piv : row) (xs : list vec) : vec :=
  let rest :=
    fold_left (fun acc ux => axpy_sub (fst ux) (snd ux) acc)
      (rev (combine (tl (fst piv)) xs)) (snd piv) in
  map (fun a => a / lead piv) rest.

(** [gesv]: elimination with partial pivoting, then back substitution. *)
Fixpoint gesv (n : nat) (rows : list row) : option (list vec) :=
  match n with
  | O => Some []
  | S n' =>
      match pivot_select rows with
      | None => None
      | Some (piv, rest) =>
          match gesv n' (map (eliminate piv) rest) with
          | None => None
          | Some xs => Some (back_substitute piv xs :: xs)
          end
      end
  end.

Definition rows_of (A : ndarray double) : list vec :=
  match shape A with
  | [M; m] => map (fun i => map (fun j => get2 nan A i j) (seq 0 m)) (seq 0 M)
  | _ => []
  end.

Definition of_rows (n K : nat) (xs : list vec) : ndarray double :=
  mk_ndarray [n; K] (tabulate2 n K (fun i k => nth k (nth i xs []) 0)).

Definition solve_with (solver : nat -> list row -> option (list vec))
  (a b : ndarray double) : result (ndarray double) :=
  match shape a with
  | [n; n'] =>
      if negb (n =? n')%nat then Error (LinAlgError, msg_square)
      else
        match shape b with
        | [nb; K] =>
            if negb (nb =? n)%nat then Error (ValueError, msg_aligned)
            else
              match solver n (combine (rows_of a) (rows_of b)) with
              | Some xs => OK (of_rows n K xs)
              | None => Error (LinAlgError, msg_singular)
              end
        | _ => Error (ValueError, msg_aligned)
        end
  | _ => Error (LinAlgError, msg_2d)
  end.

(** [np.linalg.solve(a, b)] *)
Definition solve (a b : ndarray double) : result (ndarray double) :=
  solve_with gesv a b.

(** [np.dot(A, B)] of two 2-D arrays: each entry is summed from 0.0, one
    product after the other. *)
Definition np_dot (A B : ndarray double) : result (ndarray double) :=
  match shape A, shape B with
  | [M; m], [m'; K] =>
      if (m =? m')%nat then
        OK (mk_ndarray [M; K]
              (tabulate2 M K (fun i k =>
                 fold_left (fun acc j => acc + get2 nan A i j * get2 nan B j k)
                   (seq 0 m) 0)))
      else Error (ValueError, msg_aligned)
  | _, _ => Error (ValueError, msg_aligned)
  end.

(** Forward substitution, the reference algorithm of the specification:
    [z_i = (b_i - L_i0 z_0 - ... - L_i(i-1) z_(i-1)) / L_ii]. *)
Fixpoint forward_rows (rows : list row) (zs : list vec) : option (list vec) :=
  match rows with
  | [] => Some zs
  | (c, b) :: rest =>
      let lii := nth (List.length zs) c 0 in
      if PrimFloat.eqb lii 0 then None
      else
        let rhs :=
          fold_left (fun acc cz => axpy_sub (fst cz) (snd cz) acc)
            (combine c zs) b in
        forward_rows rest (zs ++ [map (fun a => a / lii) rhs])
  end.

Definition forward_substitution (a b : ndarray double) : result (ndarray double) :=
  solve_with (fun _ rows => forward_rows rows []) a b.

(** Row [i] of the Cholesky factor left of the diagonal ([dpotf2]):
    [L_ij = (C_ij - L_i0 L_j0 - ... - L_i(j-1) L_j(j-1)) * (1 / L_jj)]. *)
Fixpoint cholesky_row (Ls : list vec) (c li : vec) : vec :=
  match Ls, c with
  | Lj :: Ls', cij :: c' =>
      let ljj := nth (List.length li) Lj 0 in
      cholesky_row Ls' c' (li ++ [sub_products cij li Lj * (1 / ljj)])
  | _, _ => li
  end.

(** The rows of the factor, one after the other; no factor when a
    diagonal entry would be the root of a value that is not positive. *)
Fixpoint cholesky_rows (rows Ls : list vec) : option (list vec) :=
  match rows with
  | [] => Some Ls
  | c :: rest =>
      let li := cholesky_row Ls c [] in
      let d := nth (List.length Ls) c 0 - add_products 0 li li in
      if PrimFloat.ltb 0 d then cholesky_rows rest (Ls ++ [li ++ [PrimFloat.sqrt d]])
      else None
  end.

Definition msg_definite : string := "Matrix is not positive definite".

(** [np.linalg.cholesky(C)] *)
Definition cholesky (C : ndarray double) : result (ndarray double) :=
  match shape C with
  | [n; n'] =>
      if negb (n =? n')%nat then Error (LinAlgError, msg_square)
      else
        match cholesky_rows (rows_of C) [] with
        | Some Ls => OK (of_rows n n Ls)
        | None => Error (LinAlgError, msg_definite)
        end
  | _ => Error (LinAlgError, msg_2d)
  end.

End LinAlg.

(** *** UnboundedNormalizer *)

Module UnboundedNormalizer.

Record t : Type := mk {
  mu : ndarray double;
  L : ndarray double
}.

(** [UnboundedNormalizer.__init__(self, mu, C)] *)
Definition init (mu C : ndarray double) : result t :=
  mu' <- reshape mu [1%nat; np_size mu] ;;
  L <- LinAlg.cholesky C ;;
  OK (mk mu' L).

(** [np.linalg.solve(self.L, (X - self.mu).T).T] *)
Definition normalize (self : t) (X : ndarray double) : result (ndarray double) :=
  '(X, _, _) <- process_inputs X ;;
  X0 <- broadcast2 nan PrimFloat.sub X (mu self) ;;
  Z <- LinAlg.solve (L self) (transpose nan X0) ;;
  OK (transpose nan Z).

(** [np.dot(X, self.L.T) + self.mu] *)
Definition unnormalize (self : t) (X : ndarray double) : result (ndarray double) :=
  '(X, _, _) <- process_inputs X ;;
  X0 <- LinAlg.np_dot X (transpose nan (L self)) ;;
  broadcast2 nan PrimFloat.add X0 (mu self).

(** [normalize] with forward substitution in the place of
    [np.linalg.solve]. *)
Definition normalize_by_forward_substitution (self : t) (X : ndarray double)
  : result (ndarray double) :=
  '(X, _, _) <- process_inputs X ;;
  X0 <- broadcast2 nan PrimFloat.sub X (mu self) ;;
  Z <- LinAlg.forward_substitution (L self) (transpose nan X0) ;;
  OK (transpose nan Z).

End UnboundedNormalizer.

(** *** Conditional expectations *)

(** [np.zeros(shape)] *)
Definition np_zeros (s : list Z) : result (ndarray double) :=
  if existsb (fun z => Z.ltb z 0) s then Error (ValueError, msg_negative)
  else
    let s' := map Z.to_nat s in
    OK (mk_ndarray s' (repeat 0 (prod s'))).

(** The sum of a list from 0.0, one element after the other. *)
Definition sequential_sum (l : list double) : double :=
  fold_left PrimFloat.add l 0.

Section Reductions.

(** [np.add.reduce] on the elements of an array.  NumPy starts from 0.0
    and adds fewer than eight elements one after the other; a longer
    array it adds in blocks (pairwise summation), in an order that is
    left open here. *)
Variable np_sum : list double -> double.

(** [np.mean(A)]: the sum over the number of elements. *)
Definition np_mean (A : ndarray double) : double :=
  np_sum (data A) / of_nat (np_size A).

(** [np.var(A)] with the default [ddof=0]: the sum of the squared
    deviations from the mean, over the number of elements. *)
Definition np_var (A : ndarray double) : double :=
  let mu := np_mean A in
  np_sum (map (fun x => (x - mu) * (x - mu)) (data A)) / of_nat (np_size A).

(** The body of the loop of [conditional_expectations], for group [i]. *)
Definition group_step (f : ndarray double) (ind : ndarray Z) (i : Z)
  (acc : ndarray double * ndarray double)
  : result (ndarray double * ndarray double) :=
  let '(Ef, Vf) := acc in
  fi <- boolean_index f (np_eq ind i) ;;
  Ef <- setitem Ef (Z.to_nat i) (np_mean fi) ;;
  Vf <- setitem Vf (Z.to_nat i) (np_var fi) ;;
  OK (Ef, Vf).

(** [conditional_expectations(f, ind)] *)
Definition conditional_expectations (f : ndarray double) (ind : ndarray Z)
  : logM (ndarray double * ndarray double) :=
  (top <- lift (np_amax ind) ;;
   let n := (top + 1)%Z in
   let NMC := np_sum_bool (np_eq ind 0) in
   _ <- log_info "PAUL" (log_message n NMC) ;;
   Ef <- lift (np_zeros [n; 1%Z]) ;;
   Vf <- lift (np_zeros [n; 1%Z]) ;;
   lift (for_each (range n) (group_step f ind) (Ef, Vf)))%log.

(** The mean and the variance of a list of values, as [np.mean] and
    [np.var] compute them. *)
Definition mean_of (l : list double) : double :=
  np_sum l / of_nat (List.length l).

Definition variance_of (l : list double) : double :=
  np_sum (map (fun x => (x - mean_of l) * (x - mean_of l)) l)
  / of_nat (List.length l).

End Reductions.

(** The values of [f] whose label is [i]. *)
Definition group_values (f : ndarray double) (ind : ndarray Z) (i : Z)
  : list double :=
  map fst (filter (fun p => Z.eqb (snd p) i) (combine (data f) (data ind))).

End Double.

(** ** Exact values *)

(** The value of a double in exact arithmetic: the rational it stands
    for, an infinity, or NaN.  The two zeros have the same value. *)
Definition to_exact (x : Double.double) : float :=
  match Prim2SF x with
  | S754_zero _ => Fin (Qc_of_Z 0)
  | S754_finite s m e =>
      Fin (Q2Qc (Qmult (inject_Z (if s then Z.neg m else Z.pos m)) (Qpower 2 e)))
  | S754_infinity false => PInf
  | S754_infinity true => NInf
  | S754_nan => NaN
  end.




(** *** Worked instances in double precision *)

(** The largest power of two among the doubles, [2^1023], and a value
    close to [10^308]. *)
Definition huge : Double.double := 0x1p1023%float.
Definition ten_308 : Double.double := 0x1.1ccf385ebc8ap+1023%float.

(** The bounds [0 <= x <= 10^308] of one coordinate. *)
Definition lb_wide : ndarray Double.double := mk_ndarray [1] [0%float].
Definition ub_wide : ndarray Double.double := mk_ndarray [1] [ten_308].
Definition N_wide : Double.BoundedNormalizer.t :=
  Double.BoundedNormalizer.mk (mk_ndarray [1; 1] [0%float])
                              (mk_ndarray [1; 1] [ten_308]).

Definition lb_four : ndarray Double.double := mk_ndarray [1] [0%float].
Definition ub_four : ndarray Double.double := mk_ndarray [1] [4%float].
Definition N_four : Double.BoundedNormalizer.t :=
  Double.BoundedNormalizer.mk (mk_ndarray [1; 1] [0%float])
                              (mk_ndarray [1; 1] [4%float]).
Definition X_four : ndarray Double.double :=
  mk_ndarray [2; 1] [1%float; 8%float].


(** The example of the specification in doubles, and two values whose
    sum overflows. *)
Definition f_doubles : ndarray Double.double :=
  mk_ndarray [4; 1] [1%float; 2%float; 3%float; 4%float].
Definition f_huge : ndarray Double.double := mk_ndarray [2; 1] [huge; huge].
Definition ind_pair : ndarray Z := mk_ndarray [2] [0; 0]%Z.
Definition f_none : ndarray Double.double := mk_ndarray [0; 1] [].


(** * Properties *)

(** ** Shape validation *)

Section ValidationFacts.

Variable T : Type.

Lemma process_inputs_2d (X : ndarray T) (M m : nat) :
  shape X = [M; m] -> process_inputs X = OK (X, M, m).
Proof.
  intros HX. unfold process_inputs. rewrite HX.
  unfold reshape, np_size. rewrite HX, Nat.eqb_refl. simpl.
  destruct X as [s l]; simpl in *; subst; reflexivity.
Qed.

Lemma process_inputs_not_2d (X : ndarray T) :
  ndim X <> 2 -> process_inputs X = Error (ValueError, msg_inputs_2d).
Proof.
  unfold ndim, process_inputs.
  destruct (shape X) as [|a [|b [|c s]]]; simpl; intros H;
    try reflexivity; congruence.
Qed.

Lemma ndim_2_inv (X : ndarray T) :
  ndim X = 2 -> exists M m, shape X = [M; m].
Proof.
  unfold ndim. destruct (shape X) as [|a [|b [|c s]]]; simpl; try discriminate.
  intros _. now exists a, b.
Qed.

(** C6. [process_inputs] fails, with the shape error of the inputs, exactly
    when [X] is not two-dimensional; a two-dimensional [X] comes back
    unchanged, with its own row and column counts. *)
Theorem process_inputs_spec (X : ndarray T) :
  (ndim X <> 2 <->
     exists e, ShapeError e /\ process_inputs X = Error e) /\
  (forall e, process_inputs X = Error e -> e = (ValueError, msg_inputs_2d)) /\
  (forall M m, shape X = [M; m] -> process_inputs X = OK (X, M, m)).
Proof.
  split; [split|split].
  - intros H. exists (ValueError, msg_inputs_2d). split.
    + now left.
    + now apply process_inputs_not_2d.
  - intros (e & _ & He) H2.
    destruct (ndim_2_inv _ H2) as (M & m & Hs).
    rewrite (process_inputs_2d _ Hs) in He. discriminate.
  - intros e He.
    destruct (Nat.eq_dec (ndim X) 2) as [H2|H2].
    + destruct (ndim_2_inv _ H2) as (M & m & Hs).
      rewrite (process_inputs_2d _ Hs) in He. discriminate.
    + rewrite (process_inputs_not_2d _ H2) in He. congruence.
  - intros M m. apply process_inputs_2d.
Qed.

(** C7, as the code has it. After [X] is validated, [f] is rejected with
    the shape error when it is not two-dimensional, then with the count
    error when its row count is not [M], then with the scalar-output error
    when its column count is not exactly one; an [f] of shape [(M, 1)] is
    accepted and returned with [X], [M] and [m].  The five cases cover
    every pair of arrays. *)
Theorem process_inputs_outputs_spec (X f : ndarray T) :
  (ndim X <> 2 ->
     process_inputs_outputs X f = Error (ValueError, msg_inputs_2d)) /\
  (forall M m, shape X = [M; m] ->
     (ndim f <> 2 ->
        process_inputs_outputs X f = Error (ValueError, msg_outputs_2d)) /\
     (forall Mf mf, shape f = [Mf; mf] ->
        (Mf <> M ->
           process_inputs_outputs X f = Error (Exception, msg_count)) /\
        (Mf = M -> mf <> 1 ->
           process_inputs_outputs X f = Error (Exception, msg_scalar)) /\
        (Mf = M -> mf = 1 ->
           process_inputs_outputs X f = OK (X, f, M, m)))).
Proof.
  split.
  - intros H. unfold process_inputs_outputs.
    now rewrite (process_inputs_not_2d _ H).
  - intros M m Hs. unfold process_inputs_outputs.
    rewrite (process_inputs_2d _ Hs). simpl. split.
    + unfold ndim. destruct (shape f) as [|a [|b [|c s]]]; simpl; intros H;
        try reflexivity; congruence.
    + intros Mf mf Hsf. rewrite Hsf. repeat split.
      * intros Hne. apply Nat.eqb_neq in Hne. now rewrite Hne.
      * intros -> Hne. rewrite Nat.eqb_refl. simpl.
        apply Nat.eqb_neq in Hne. now rewrite Hne.
      * intros -> ->. rewrite Nat.eqb_refl. simpl.
        unfold reshape, np_size. rewrite Hsf. simpl.
        rewrite Nat.mul_1_r, Nat.eqb_refl.
        destruct f as [s l]; simpl in *; subst; reflexivity.
Qed.

(** ** Row and column coercion *)

(** C10. An input of rank at least two is returned as it is, whatever the
    mode, recognised or not; and the error for an unrecognised mode means
    that the rank is below two. *)
Theorem atleast_2d_rank2 (A : pyobj T) :
  2 <= ndim (as_array A) ->
  (forall oned_as, atleast_2d A oned_as = OK (as_array A)) /\
  (forall (B : pyobj T) oned_as e,
     atleast_2d B oned_as = Error e -> ndim (as_array B) < 2).
Proof.
  intros H. split.
  - intros mode. unfold atleast_2d.
    apply Nat.ltb_ge in H. now rewrite H.
  - intros B mode e. unfold atleast_2d.
    destruct (ndim (as_array B) <? 2) eqn:E.
    + intros _. now apply Nat.ltb_lt.
    + discriminate.
Qed.

(** C8, as the code has it. With an input of rank below two, a mode that is
    neither ['row'] nor ['col'] makes the call fail, and the exception
    carries the message that names the two modes. *)
Theorem atleast_2d_bad_mode (A : pyobj T) (oned_as : string) :
  ndim (as_array A) < 2 ->
  oned_as <> "row"%string -> oned_as <> "col"%string ->
  exists c, atleast_2d A oned_as = Error (c, msg_oned_as).
Proof.
  intros H Hr Hc. unfold atleast_2d.
  apply Nat.ltb_lt in H. rewrite H.
  apply String.eqb_neq in Hr, Hc. rewrite Hr, Hc.
  now exists Exception.
Qed.

End ValidationFacts.

Lemma process_inputs_spec_witness :
  process_inputs X_2x3 = OK (X_2x3, 2, 3).
Proof.
  apply (process_inputs_spec X_2x3). reflexivity.
Defined.

(** An output array with no column at all does not have more than one
    column, and its row count matches; it is rejected all the same, with
    the scalar-output error. *)
Lemma process_inputs_outputs_zero_columns :
  wf X_2x3 /\ wf f_2x0 /\ shape X_2x3 = [2; 3] /\ shape f_2x0 = [2; 0] /\
  ~ 1 < ncols f_2x0 /\
  process_inputs_outputs X_2x3 f_2x0 = Error (Exception, msg_scalar).
Proof.
  split; [reflexivity|]. split; [reflexivity|].
  split; [reflexivity|]. split; [reflexivity|]. split; [|reflexivity].
  unfold ncols, f_2x0; simpl. lia.
Qed.

Lemma process_inputs_outputs_spec_witness :
  process_inputs_outputs X_2x3 f_2x1 = OK (X_2x3, f_2x1, 2, 3).
Proof.
  apply (process_inputs_outputs_spec X_2x3 f_2x1) with (Mf := 2) (mf := 1);
    reflexivity.
Defined.

(** A two-dimensional input with a mode that is neither ['row'] nor
    ['col']: the call succeeds. *)
Lemma atleast_2d_bad_mode_accepted :
  "diag"%string <> "row"%string /\ "diag"%string <> "col"%string /\
  atleast_2d (PyArray X_2x3) "diag" = OK X_2x3.
Proof.
  split; [discriminate|]. split; [discriminate|]. reflexivity.
Qed.

Lemma atleast_2d_rank2_witness :
  atleast_2d (PyArray X_2x3) "diag" = OK X_2x3.
Proof.
  apply (atleast_2d_rank2 (PyArray X_2x3)). vm_compute. lia.
Defined.

Lemma atleast_2d_bad_mode_witness :
  exists c, atleast_2d (PyArray v_3) "diag" = Error (c, msg_oned_as).
Proof.
  apply (atleast_2d_bad_mode (PyArray v_3)); [vm_compute; lia | discriminate | discriminate].
Defined.

(** ** Two-dimensional arrays, entry by entry *)

Section ArrayFacts.

Variable T : Type.
Variable d : T.

Lemma length_flat_rows (m : nat) (f : nat -> nat -> T) (M s : nat) :
  List.length (flat_map (fun i => map (f i) (seq 0 m)) (seq s M)) = M * m.
Proof.
  revert s. induction M as [|M IH]; intros s; simpl; [reflexivity|].
  rewrite length_app, length_map, length_seq, IH. reflexivity.
Qed.

Lemma tabulate2_length (M m : nat) (f : nat -> nat -> T) :
  List.length (tabulate2 M m f) = M * m.
Proof. apply length_flat_rows. Qed.

Lemma nth_flat_rows (m : nat) (f : nat -> nat -> T) (M s i j : nat) :
  i < M -> j < m ->
  nth (i * m + j) (flat_map (fun i => map (f i) (seq 0 m)) (seq s M)) d
  = f (s + i) j.
Proof.
  revert s i. induction M as [|M IH]; intros s i Hi Hj; [lia|].
  simpl. destruct i as [|i].
  - rewrite app_nth1 by (rewrite length_map, length_seq; simpl; lia).
    simpl. rewrite nth_indep with (d' := f s 0)
      by (rewrite length_map, length_seq; lia).
    rewrite (map_nth (f s) (seq 0 m) 0 j), seq_nth by lia.
    now rewrite Nat.add_0_r.
  - rewrite app_nth2 by (rewrite length_map, length_seq; simpl; lia).
    rewrite length_map, length_seq.
    replace (S i * m + j - m) with (i * m + j) by (simpl; lia).
    rewrite IH by lia. f_equal. lia.
Qed.

Lemma nth_tabulate2 (M m : nat) (f : nat -> nat -> T) (i j : nat) :
  i < M -> j < m -> nth (i * m + j) (tabulate2 M m f) d = f i j.
Proof.
  intros Hi Hj. unfold tabulate2. now rewrite nth_flat_rows.
Qed.

Lemma tabulate2_eq (l : list T) (M m : nat) (f : nat -> nat -> T) :
  List.length l = M * m ->
  (forall i j, i < M -> j < m -> nth (i * m + j) l d = f i j) ->
  l = tabulate2 M m f.
Proof.
  intros Hlen H.
  apply nth_ext with (d := d) (d' := d).
  - now rewrite tabulate2_length.
  - intros k Hk. rewrite Hlen in Hk.
    assert (Hm : m <> 0) by (intros ->; lia).
    assert (Hi : k / m < M)
      by (apply Nat.Div0.div_lt_upper_bound; lia).
    assert (Hj : k mod m < m) by (now apply Nat.mod_upper_bound).
    pose proof (Nat.div_mod_eq k m) as E.
    replace k with (k / m * m + k mod m) at 1 2 by lia.
    rewrite H, nth_tabulate2; auto.
Qed.

Lemma tabulate2_ext (M m : nat) (f g : nat -> nat -> T) :
  (forall i j, i < M -> j < m -> f i j = g i j) ->
  tabulate2 M m f = tabulate2 M m g.
Proof.
  intros H. apply tabulate2_eq.
  - apply tabulate2_length.
  - intros i j Hi Hj. rewrite nth_tabulate2; auto.
Qed.

Lemma mat_ext (M m : nat) (f g : nat -> nat -> T) :
  (forall i j, i < M -> j < m -> f i j = g i j) -> mat M m f = mat M m g.
Proof.
  intros H. unfold mat. f_equal. now apply tabulate2_ext.
Qed.

Lemma get2_mat (M m : nat) (g : nat -> nat -> T) (i j : nat) :
  i < M -> j < m -> get2 d (mat M m g) i j = g i j.
Proof.
  intros Hi Hj. unfold get2, ncols, mat. simpl. now apply nth_tabulate2.
Qed.

Lemma wf_mat (M m : nat) (g : nat -> nat -> T) : wf (mat M m g).
Proof.
  unfold wf, np_size, mat. simpl. rewrite tabulate2_length. lia.
Qed.

Lemma as_mat (A : ndarray T) (M m : nat) :
  shape A = [M; m] -> wf A -> A = mat M m (get2 d A).
Proof.
  intros Hs Hwf. destruct A as [s l]. simpl in *. subst s.
  unfold mat. f_equal. apply tabulate2_eq.
  - unfold wf, np_size in Hwf. simpl in Hwf. lia.
  - intros i j _ _. reflexivity.
Qed.

Lemma map_array_mat (f : T -> T) (M m : nat) (g : nat -> nat -> T) :
  map_array f (mat M m g) = mat M m (fun i j => f (g i j)).
Proof.
  unfold map_array, mat. simpl. f_equal.
  unfold tabulate2. rewrite flat_map_concat_map, concat_map, map_map.
  rewrite <- flat_map_concat_map. apply flat_map_ext.
  intros i. now rewrite map_map.
Qed.

Lemma process_inputs_mat (M m : nat) (g : nat -> nat -> T) :
  process_inputs (mat M m g) = OK (mat M m g, M, m).
Proof. now apply process_inputs_2d. Qed.

Lemma broadcast_dim_same (n : nat) : broadcast_dim n n = Some n.
Proof. unfold broadcast_dim. now rewrite Nat.eqb_refl. Qed.

Lemma broadcast_dim_1_r (n : nat) : broadcast_dim n 1 = Some n.
Proof.
  unfold broadcast_dim. destruct (n =? 1) eqn:E; [|reflexivity].
  apply Nat.eqb_eq in E. now subst.
Qed.

Lemma broadcast_dim_1_l (n : nat) : broadcast_dim 1 n = Some n.
Proof.
  unfold broadcast_dim. destruct (1 =? n) eqn:E; [|reflexivity].
  apply Nat.eqb_eq in E. now subst.
Qed.

Lemma bidx_lt (n i : nat) : i < n -> bidx n i = i.
Proof.
  unfold bidx. destruct (n =? 1) eqn:E; [|reflexivity].
  apply Nat.eqb_eq in E. lia.
Qed.

(** A matrix combined with a row: the row is repeated down the rows. *)
Lemma broadcast2_mat_row (op : T -> T -> T) (M m : nat) (g h : nat -> nat -> T) :
  broadcast2 d op (mat M m g) (mat 1 m h)
  = OK (mat M m (fun i j => op (g i j) (h 0 j))).
Proof.
  unfold broadcast2. simpl.
  rewrite broadcast_dim_1_r, broadcast_dim_same.
  f_equal. apply mat_ext. intros i j Hi Hj.
  change (bidx 1 i) with 0.
  rewrite !bidx_lt by assumption.
  rewrite !get2_mat by (simpl; lia). reflexivity.
Qed.

Lemma broadcast2_row_mat (op : T -> T -> T) (M m : nat) (g h : nat -> nat -> T) :
  broadcast2 d op (mat 1 m h) (mat M m g)
  = OK (mat M m (fun i j => op (h 0 j) (g i j))).
Proof.
  unfold broadcast2. simpl.
  rewrite broadcast_dim_1_l, broadcast_dim_same.
  f_equal. apply mat_ext. intros i j Hi Hj.
  change (bidx 1 i) with 0.
  rewrite !bidx_lt by assumption.
  rewrite !get2_mat by (simpl; lia). reflexivity.
Qed.

(** The row a length-[m] vector is stored as. *)
Lemma reshape_row (v : ndarray T) (m : nat) :
  wf v -> np_size v = m ->
  reshape v [1; m] = OK (mat 1 m (fun _ j => nth j (data v) d)).
Proof.
  intros Hwf Hm. unfold reshape.
  replace (prod [1; m]) with m by (simpl; lia).
  rewrite Hm, Nat.eqb_refl.
  f_equal. unfold mat. f_equal. apply tabulate2_eq.
  - unfold wf in Hwf. lia.
  - intros i j Hi _. replace i with 0 by lia. reflexivity.
Qed.

Lemma transpose_mat (M m : nat) (g : nat -> nat -> T) :
  transpose d (mat M m g) = mat m M (fun j i => g i j).
Proof.
  unfold transpose. simpl. apply mat_ext.
  intros j i Hj Hi. now apply get2_mat.
Qed.

End ArrayFacts.

(** ** BoundedNormalizer *)

Section FloatFacts.

Local Open Scope Qc_scope.

Lemma Qc_of_Z_0 : Qc_of_Z 0 = 0.
Proof. apply Qc_is_canon. reflexivity. Qed.

Lemma Qc_of_Z_1 : Qc_of_Z 1 = 1.
Proof. apply Qc_is_canon. reflexivity. Qed.

Lemma Qc_of_Z_2 : Qc_of_Z 2 = 1 + 1.
Proof. apply Qc_is_canon. reflexivity. Qed.

Lemma Qc_of_Z_m1 : Qc_of_Z (-1) = - (1).
Proof. apply Qc_is_canon. reflexivity. Qed.

Lemma Qc_eq_bool_false (a b : Qc) : a <> b -> Qc_eq_bool a b = false.
Proof.
  intros H. destruct (Qc_eq_bool a b) eqn:E; [|reflexivity].
  now apply Qc_eq_bool_correct in E.
Qed.

Lemma Qc_eq_bool_refl (a : Qc) : Qc_eq_bool a a = true.
Proof.
  unfold Qc_eq_bool. destruct (Qc_eq_dec a a); [reflexivity|congruence].
Qed.

Lemma Qc_two_neq_0 : 1 + 1 <> 0.
Proof. intros H. discriminate (f_equal this H). Qed.

Lemma Qc_sub_neq_0 (a b : Qc) : a <> b -> b + - a <> 0.
Proof.
  intros H E. apply H. symmetry.
  replace b with (b + - a + a) by ring. rewrite E. ring.
Qed.

Lemma Qccompare_two : (1 + 1 ?= 0) = Gt.
Proof. reflexivity. Qed.

Ltac fsimpl := cbn [fadd fneg fmul fdiv sgn sgn_mul inf_of].

(* Evaluate the arithmetic on special values, with the sign [E] of the
   width at hand. *)
Ltac fsteps E :=
  repeat (progress (fsimpl; unfold Qcltb; rewrite ?E, ?Qccompare_two)).

(** The two entrywise maps undo each other, on every value: finite,
    infinite or NaN. *)
Lemma unnormalize_normalize_elt (a b : Qc) (x : float) :
  a <> b ->
  unnormalize_elt (Fin a) (Fin b) (normalize_elt (Fin a) (Fin b) x) = x.
Proof.
  intros Hab. pose proof (Qc_sub_neq_0 Hab) as Hw.
  unfold unnormalize_elt, normalize_elt, fsub, of_Z.
  rewrite Qc_of_Z_1, Qc_of_Z_2.
  destruct x as [q| | |]; fsimpl.
  - rewrite (Qc_eq_bool_false Hw). fsimpl.
    rewrite (Qc_eq_bool_false Qc_two_neq_0). fsimpl.
    f_equal. field. repeat split; solve [assumption | exact Qc_two_neq_0].
  - destruct (b + - a ?= 0) eqn:E;
      [apply Qceq_alt in E; contradiction | fsteps E; reflexivity ..].
  - destruct (b + - a ?= 0) eqn:E;
      [apply Qceq_alt in E; contradiction | fsteps E; reflexivity ..].
  - reflexivity.
Qed.

Lemma normalize_unnormalize_elt (a b : Qc) (x : float) :
  a <> b ->
  normalize_elt (Fin a) (Fin b) (unnormalize_elt (Fin a) (Fin b) x) = x.
Proof.
  intros Hab. pose proof (Qc_sub_neq_0 Hab) as Hw.
  unfold unnormalize_elt, normalize_elt, fsub, of_Z.
  rewrite Qc_of_Z_1, Qc_of_Z_2.
  destruct x as [q| | |]; fsimpl.
  - rewrite (Qc_eq_bool_false Qc_two_neq_0). fsimpl.
    rewrite (Qc_eq_bool_false Hw). fsimpl.
    f_equal. field. repeat split; solve [assumption | exact Qc_two_neq_0].
  - destruct (b + - a ?= 0) eqn:E;
      [apply Qceq_alt in E; contradiction | fsteps E; reflexivity ..].
  - destruct (b + - a ?= 0) eqn:E;
      [apply Qceq_alt in E; contradiction | fsteps E; reflexivity ..].
  - reflexivity.
Qed.

Lemma normalize_elt_lower (a b : Qc) :
  a <> b -> normalize_elt (Fin a) (Fin b) (Fin a) = of_Z (-1).
Proof.
  intros Hab. pose proof (Qc_sub_neq_0 Hab) as Hw.
  unfold normalize_elt, fsub, of_Z.
  rewrite Qc_of_Z_1, Qc_of_Z_2, Qc_of_Z_m1. fsimpl.
  rewrite (Qc_eq_bool_false Hw). fsimpl. f_equal. field. exact Hw.
Qed.

Lemma normalize_elt_upper (a b : Qc) :
  a <> b -> normalize_elt (Fin a) (Fin b) (Fin b) = of_Z 1.
Proof.
  intros Hab. pose proof (Qc_sub_neq_0 Hab) as Hw.
  unfold normalize_elt, fsub, of_Z.
  rewrite Qc_of_Z_1, Qc_of_Z_2. fsimpl.
  rewrite (Qc_eq_bool_false Hw). fsimpl. f_equal. field. exact Hw.
Qed.

End FloatFacts.

(* Run a chain of array operations on arrays given entry by entry. *)
Ltac mat_steps :=
  repeat (first [ rewrite process_inputs_mat
                | rewrite broadcast2_mat_row
                | rewrite broadcast2_row_mat
                | rewrite map_array_mat ];
          cbn [bind]).

Section BoundedFacts.

Variables (lb ub : ndarray float) (m : nat) (N : BoundedNormalizer.t).

Hypothesis wf_lb : wf lb.
Hypothesis wf_ub : wf ub.
Hypothesis size_lb : np_size lb = m.
Hypothesis size_ub : np_size ub = m.
Hypothesis init_N : BoundedNormalizer.init lb ub = OK N.

(** The bounds of coordinate [j]. *)
Let lo (j : nat) : float := nth j (data lb) NaN.
Let hi (j : nat) : float := nth j (data ub) NaN.

Lemma init_rows :
  N = BoundedNormalizer.mk (mat 1 m (fun _ j => lo j)) (mat 1 m (fun _ j => hi j)).
Proof.
  revert init_N. unfold BoundedNormalizer.init. rewrite size_lb.
  rewrite (reshape_row NaN wf_lb size_lb), (reshape_row NaN wf_ub size_ub).
  simpl. intros H. injection H as <-. reflexivity.
Qed.

Lemma normalize_mat (M : nat) (g : nat -> nat -> float) :
  BoundedNormalizer.normalize N (mat M m g)
  = OK (mat M m (fun i j => normalize_elt (lo j) (hi j) (g i j))).
Proof.
  rewrite init_rows. unfold BoundedNormalizer.normalize.
  cbn [BoundedNormalizer.lb BoundedNormalizer.ub].
  mat_steps. reflexivity.
Qed.

Lemma unnormalize_mat (M : nat) (g : nat -> nat -> float) :
  BoundedNormalizer.unnormalize N (mat M m g)
  = OK (mat M m (fun i j => unnormalize_elt (lo j) (hi j) (g i j))).
Proof.
  rewrite init_rows. unfold BoundedNormalizer.unnormalize.
  cbn [BoundedNormalizer.lb BoundedNormalizer.ub].
  mat_steps. reflexivity.
Qed.

Lemma full_row (v : float) : full [1; m] v = mat 1 m (fun _ _ => v).
Proof.
  unfold full, mat. f_equal. apply tabulate2_eq with (d := NaN).
  - rewrite repeat_length. simpl. lia.
  - intros i j Hi Hj. apply nth_repeat_lt. simpl. nia.
Qed.

(** C1, as the code has it. [normalize] returns, entry by entry,
    [2*(X - lb)/(ub - lb) - 1] with the bounds of the entry's column; and
    when the two bounds of every coordinate are finite and differ, the
    stored row [lb] is mapped to the row of [-1] and the stored row [ub] to
    the row of [+1]. *)
Theorem BoundedNormalizer_normalize_spec (X : ndarray float) (M : nat) :
  wf X -> shape X = [M; m] ->
  (exists Y,
     BoundedNormalizer.normalize N X = OK Y /\ shape Y = [M; m] /\ wf Y /\
     forall i j, i < M -> j < m ->
       get2 NaN Y i j = normalize_elt (lo j) (hi j) (get2 NaN X i j)) /\
  ((forall j, j < m ->
      exists a b, lo j = Fin a /\ hi j = Fin b /\ a <> b) ->
   BoundedNormalizer.normalize N (BoundedNormalizer.lb N) = OK (full [1; m] (of_Z (-1))) /\
   BoundedNormalizer.normalize N (BoundedNormalizer.ub N) = OK (full [1; m] (of_Z 1))).
Proof.
  intros HwfX HsX. split.
  - pose proof (as_mat NaN HsX HwfX) as EX.
    set (g := get2 NaN X) in *. rewrite EX, normalize_mat.
    eexists. split; [reflexivity|]. split; [reflexivity|].
    split; [apply wf_mat|].
    intros i j Hi Hj. rewrite get2_mat by assumption. reflexivity.
  - intros Hb. rewrite !full_row.
    rewrite init_rows at 2 4. cbn [BoundedNormalizer.lb BoundedNormalizer.ub].
    rewrite !normalize_mat. split; apply f_equal, (mat_ext NaN); intros i j _ Hj;
      destruct (Hb j Hj) as (a & b & -> & -> & Hab).
    + now apply normalize_elt_lower.
    + now apply normalize_elt_upper.
Qed.

(** C2. With [lb[j] < ub[j]] in every coordinate, [unnormalize] undoes
    [normalize] and [normalize] undoes [unnormalize], on every [M]-by-[m]
    array. *)
Theorem BoundedNormalizer_round_trip (X : ndarray float) (M : nat) :
  (forall j, j < m -> flt (lo j) (hi j)) ->
  wf X -> shape X = [M; m] ->
  round_trip N X.
Proof.
  intros Hlt HwfX HsX. unfold round_trip. cbn [normalize unnormalize Bounded_Normalizer].
  assert (Hne : forall j, j < m ->
            exists a b, lo j = Fin a /\ hi j = Fin b /\ a <> b).
  { intros j Hj. specialize (Hlt j Hj). unfold flt in Hlt.
    destruct (lo j) as [a| | |]; try contradiction.
    destruct (hi j) as [b| | |]; try contradiction.
    exists a, b. repeat split. intros ->.
    apply Qclt_not_le in Hlt. apply Hlt, Qcle_refl. }
  pose proof (as_mat NaN HsX HwfX) as EX.
  set (g := get2 NaN X) in *. rewrite EX. split; eexists.
  - rewrite normalize_mat, unnormalize_mat. split; [reflexivity|].
    apply f_equal, (mat_ext NaN). intros i j Hi Hj.
    destruct (Hne j Hj) as (a & b & -> & -> & Hab).
    now apply unnormalize_normalize_elt.
  - rewrite unnormalize_mat, normalize_mat. split; [reflexivity|].
    apply f_equal, (mat_ext NaN). intros i j Hi Hj.
    destruct (Hne j Hj) as (a & b & -> & -> & Hab).
    now apply normalize_unnormalize_elt.
Qed.

End BoundedFacts.

Lemma box_bounds_differ (j : nat) :
  j < 2 ->
  exists a b, nth j (data lb_box) NaN = Fin a /\
              nth j (data ub_box) NaN = Fin b /\ a <> b.
Proof.
  intros Hj. destruct j as [|[|j]]; [| |lia].
  - exists (Qc_of_Z 0), (Qc_of_Z 1). repeat split. discriminate.
  - exists (Qc_of_Z 1), (Qc_of_Z 3). repeat split. discriminate.
Qed.

Lemma box_bounds_ordered (j : nat) :
  j < 2 -> flt (nth j (data lb_box) NaN) (nth j (data ub_box) NaN).
Proof.
  intros Hj. destruct j as [|[|j]]; [| |lia]; reflexivity.
Qed.

Lemma BoundedNormalizer_normalize_spec_witness :
  BoundedNormalizer.normalize N_box (BoundedNormalizer.lb N_box)
    = OK (full [1; 2] (of_Z (-1))) /\
  BoundedNormalizer.normalize N_box (BoundedNormalizer.ub N_box)
    = OK (full [1; 2] (of_Z 1)).
Proof.
  apply (@BoundedNormalizer_normalize_spec lb_box ub_box 2 N_box
           eq_refl eq_refl eq_refl eq_refl eq_refl X_box 2 eq_refl eq_refl).
  exact box_bounds_differ.
Defined.

Lemma BoundedNormalizer_round_trip_witness : round_trip N_box X_box.
Proof.
  apply (@BoundedNormalizer_round_trip lb_box ub_box 2 N_box
           eq_refl eq_refl eq_refl eq_refl eq_refl X_box 2
           box_bounds_ordered eq_refl eq_refl).
Defined.

(** Equal bounds in a coordinate: the row [lb] is mapped to NaN there, not
    to [-1]. *)
Lemma BoundedNormalizer_equal_bounds :
  wf lb_flat /\ np_size lb_flat = 1 /\
  BoundedNormalizer.init lb_flat lb_flat = OK N_flat /\
  BoundedNormalizer.normalize N_flat (BoundedNormalizer.lb N_flat)
    = OK (mk_ndarray [1; 1] [NaN]) /\
  BoundedNormalizer.normalize N_flat (BoundedNormalizer.lb N_flat)
    <> OK (full [1; 1] (of_Z (-1))).
Proof.
  split; [reflexivity|]. split; [reflexivity|]. split; [reflexivity|].
  assert (E : BoundedNormalizer.normalize N_flat (BoundedNormalizer.lb N_flat)
              = OK (mk_ndarray [1; 1] [NaN])) by reflexivity.
  split; [exact E|]. rewrite E. discriminate.
Qed.

(** ** Conditional expectations *)

Section SelectFacts.

Variable T : Type.

Lemma select_one_filter (mask : list bool) (l : list T) :
  List.length l = List.length mask ->
  select 1 mask l = map fst (filter snd (combine l mask)).
Proof.
  revert l. induction mask as [|b mask IH]; intros [|x l] Hl; simpl in *;
    try discriminate; try reflexivity.
  injection Hl as Hl. destruct b; simpl; now rewrite IH.
Qed.

Lemma count_true_filter (mask : list bool) (l : list T) :
  List.length l = List.length mask ->
  List.length (filter snd (combine l mask)) = count_true mask.
Proof.
  unfold count_true.
  revert l. induction mask as [|b mask IH]; intros [|x l] Hl; simpl in *;
    try discriminate; try reflexivity.
  injection Hl as Hl. destruct b; simpl; now rewrite IH.
Qed.

End SelectFacts.

Lemma filter_label (lf : list float) (li : list Z) (i : Z) :
  filter snd (combine lf (map (fun x => Z.eqb x i) li))
  = map (fun p => (fst p, Z.eqb (snd p) i))
        (filter (fun p => Z.eqb (snd p) i) (combine lf li)).
Proof.
  revert li. induction lf as [|x lf IH]; intros [|z li]; simpl; try reflexivity.
  destruct (Z.eqb z i) eqn:E; simpl; rewrite IH; [rewrite E|]; reflexivity.
Qed.

(** The selection [f[ind == i]] of a column [f] holds the values of [f]
    labelled [i]. *)
Lemma boolean_index_group (f : ndarray float) (ind : ndarray Z) (M : nat) (i : Z) :
  wf f -> shape f = [M; 1] -> wf ind -> shape ind = [M] ->
  boolean_index f (np_eq ind i)
  = OK (mk_ndarray [List.length (group_values f ind i); 1] (group_values f ind i)).
Proof.
  intros Hwf Hsf Hwi Hsi.
  unfold wf, np_size in Hwf, Hwi. rewrite Hsf in Hwf. rewrite Hsi in Hwi.
  simpl in Hwf, Hwi.
  assert (Hlen : List.length (data f)
                 = List.length (map (fun x => Z.eqb x i) (data ind)))
    by (rewrite length_map; lia).
  unfold boolean_index, ndim, np_eq. simpl shape. simpl data.
  rewrite Hsi, Hsf.
  change (firstn (List.length [M]) [M; 1]) with [M].
  change (skipn (List.length [M]) [M; 1]) with [1].
  change (prod [1]) with 1.
  destruct (list_eq_dec Nat.eq_dec [M] [M]) as [_|Hne]; [|congruence].
  rewrite (select_one_filter _ _ Hlen).
  rewrite <- (count_true_filter _ _ Hlen).
  unfold group_values. rewrite filter_label, !map_map, !length_map.
  reflexivity.
Qed.

Lemma np_mean_group (l : list float) :
  np_mean (mk_ndarray [List.length l; 1] l) = arithmetic_mean l.
Proof.
  unfold np_mean, arithmetic_mean, np_size. simpl.
  now rewrite Nat.mul_1_r.
Qed.

Lemma np_var_group (l : list float) :
  np_var (mk_ndarray [List.length l; 1] l) = population_variance l.
Proof.
  unfold np_var, population_variance. rewrite np_mean_group.
  unfold np_size. simpl. now rewrite Nat.mul_1_r.
Qed.

Lemma setitem_column (n : nat) (pre post : list float) (x v : float) :
  List.length pre < n ->
  setitem (mk_ndarray [n; 1] (pre ++ x :: post)) (List.length pre) v
  = OK (mk_ndarray [n; 1] (pre ++ v :: post)).
Proof.
  intros Hk. unfold setitem. cbn [shape data].
  apply Nat.ltb_lt in Hk. rewrite Hk.
  change (prod [1]) with 1.
  rewrite Nat.mul_1_r.
  rewrite firstn_app, firstn_all, Nat.sub_diag. simpl firstn.
  rewrite app_nil_r.
  rewrite skipn_app, skipn_all2 by lia.
  replace (List.length pre + 1 - List.length pre) with 1 by lia.
  reflexivity.
Qed.

Section Groups.

Variables (f : ndarray float) (ind : ndarray Z) (M : nat).

Hypothesis wf_f : wf f.
Hypothesis shape_f : shape f = [M; 1].
Hypothesis wf_ind : wf ind.
Hypothesis shape_ind : shape ind = [M].

Let mean_of (i : nat) : float := arithmetic_mean (group_values f ind (Z.of_nat i)).
Let var_of (i : nat) : float := population_variance (group_values f ind (Z.of_nat i)).

(** The loop fills the entries of [Ef] and [Vf] in turn, each with the
    statistics of its group. *)
Lemma for_each_groups (n r : nat) :
  forall (pe pv : list float),
    List.length pe + r = n -> List.length pv = List.length pe ->
    for_each (map Z.of_nat (seq (List.length pe) r)) (group_step f ind)
      (mk_ndarray [n; 1] (pe ++ repeat (of_Z 0) r),
       mk_ndarray [n; 1] (pv ++ repeat (of_Z 0) r))
    = OK (mk_ndarray [n; 1] (pe ++ map mean_of (seq (List.length pe) r)),
          mk_ndarray [n; 1] (pv ++ map var_of (seq (List.length pe) r))).
Proof.
  induction r as [|r IH]; intros pe pv Hn Hpv; [reflexivity|].
  cbn [seq map for_each repeat]. unfold group_step at 1.
  rewrite (boolean_index_group (Z.of_nat (List.length pe))
             wf_f shape_f wf_ind shape_ind).
  cbn [bind]. rewrite Nat2Z.id, np_mean_group, np_var_group.
  rewrite setitem_column by lia. cbn [bind].
  rewrite <- Hpv, setitem_column by lia. cbn [bind]. rewrite Hpv.
  fold (mean_of (List.length pe)). fold (var_of (List.length pe)).
  specialize (IH (pe ++ [mean_of (List.length pe)])
                 (pv ++ [var_of (List.length pe)])).
  rewrite !length_app in IH. simpl List.length in IH.
  rewrite <- !app_assoc in IH. simpl app in IH.
  replace (List.length pe + 1) with (S (List.length pe)) in IH by lia.
  apply IH; lia.
Qed.

End Groups.

Section MeanFacts.

Local Open Scope Qc_scope.

Lemma fold_fadd_Fin (qs : list Qc) (a : Qc) :
  fold_left fadd (map Fin qs) (Fin a) = Fin (a + Qcsum qs).
Proof.
  revert a. induction qs as [|q qs IH]; intros a; simpl.
  - f_equal. ring.
  - rewrite IH. f_equal. ring.
Qed.

Lemma fsum_Fin (qs : list Qc) : fsum (map Fin qs) = Fin (Qcsum qs).
Proof.
  unfold fsum, of_Z. rewrite Qc_of_Z_0, fold_fadd_Fin. f_equal. ring.
Qed.

Lemma Qc_of_nat_neq_0 (k : nat) : (0 < k)%nat -> Qc_of_nat k <> 0.
Proof.
  intros Hk E. unfold Qc_of_nat, Qc_of_Z in E.
  apply Q2Qc_eq_iff in E. unfold Qeq in E. simpl in E. lia.
Qed.

Lemma arithmetic_mean_empty : arithmetic_mean [] = NaN.
Proof. reflexivity. Qed.

Lemma population_variance_empty : population_variance [] = NaN.
Proof. reflexivity. Qed.

Lemma arithmetic_mean_Fin (qs : list Qc) :
  qs <> [] -> arithmetic_mean (map Fin qs) = Fin (mean_Q qs).
Proof.
  intros Hqs. unfold arithmetic_mean, mean_Q, of_nat.
  rewrite fsum_Fin, length_map. cbn [fdiv].
  rewrite Qc_eq_bool_false; [reflexivity|].
  apply Qc_of_nat_neq_0. destruct qs; [congruence|simpl; lia].
Qed.

Lemma population_variance_Fin (qs : list Qc) :
  qs <> [] -> population_variance (map Fin qs) = Fin (variance_Q qs).
Proof.
  intros Hqs. unfold population_variance, variance_Q, of_nat.
  rewrite (arithmetic_mean_Fin Hqs), map_map. cbn [fsub fneg fadd fmul].
  rewrite <- (map_map (fun q => (q + - mean_Q qs) * (q + - mean_Q qs)) Fin).
  rewrite fsum_Fin, length_map. cbn [fdiv].
  rewrite Qc_eq_bool_false; [reflexivity|].
  apply Qc_of_nat_neq_0. destruct qs; [congruence|simpl; lia].
Qed.

End MeanFacts.

Lemma fold_max_spec (l : list Z) (x : Z) :
  In (fold_left Z.max l x) (x :: l) /\
  Forall (fun z => (z <= fold_left Z.max l x)%Z) (x :: l).
Proof.
  revert x. induction l as [|y l IH]; intros x; simpl.
  - split; [now left|]. constructor; [lia|constructor].
  - destruct (IH (Z.max x y)) as [Hin Hall]. split.
    + destruct Hin as [Hin|Hin]; [|now right; right].
      rewrite <- Hin.
      destruct (Z.max_spec x y) as [[_ E]|[_ E]]; rewrite E;
        [right; left | left]; reflexivity.
    + inversion Hall as [|? ? Hm Hl]; subst.
      constructor; [lia|]. constructor; [lia|exact Hl].
Qed.

Lemma np_amax_spec (ind : ndarray Z) :
  data ind <> [] ->
  exists top, np_amax ind = OK top /\ In top (data ind) /\
              Forall (fun z => (z <= top)%Z) (data ind).
Proof.
  intros Hne. unfold np_amax. destruct (data ind) as [|x l]; [congruence|].
  exists (fold_left Z.max l x). split; [reflexivity|]. apply fold_max_spec.
Qed.

Lemma np_zeros_column (n : Z) :
  (0 <= n)%Z ->
  np_zeros [n; 1%Z]
  = OK (mk_ndarray [Z.to_nat n; 1] (repeat (of_Z 0) (Z.to_nat n))).
Proof.
  intros Hn. unfold np_zeros. cbn [existsb].
  replace (Z.ltb n 0) with false by (symmetry; apply Z.ltb_ge; lia).
  cbn [orb Z.ltb Z.compare map].
  change (Z.to_nat 1) with 1. unfold prod. cbn [fold_right].
  rewrite !Nat.mul_1_r. reflexivity.
Qed.

Lemma count_true_eq_0 (l : list Z) :
  count_true (map (fun x => Z.eqb x 0) l) = count_occ Z.eq_dec l 0%Z.
Proof.
  unfold count_true. induction l as [|x l IH]; simpl; [reflexivity|].
  destruct (Z.eq_dec x 0) as [->|Hne]; simpl.
  - now rewrite IH.
  - apply Z.eqb_neq in Hne. now rewrite Hne.
Qed.

(** C5, as the code has it. For a column [f] of [M >= 1] values and [M]
    nonnegative labels, [conditional_expectations] returns, without
    raising, columns [Ef] and [Vf] of [n = max(ind) + 1] entries; entry [i]
    of [Ef] is the arithmetic mean, and entry [i] of [Vf] the population
    variance, of the values labelled [i].  For finite values these are the
    sum over the count and the sum of squared deviations over the count;
    for a label without a member they are both NaN. *)
Theorem conditional_expectations_spec (f : ndarray float) (ind : ndarray Z) (M : nat) :
  wf f -> shape f = [M; 1] -> wf ind -> shape ind = [M] -> 0 < M ->
  Forall (fun z => (0 <= z)%Z) (data ind) ->
  exists top Ef Vf,
    np_amax ind = OK top /\ In top (data ind) /\
    Forall (fun z => (z <= top)%Z) (data ind) /\
    fst (run_log (conditional_expectations f ind)) = OK (Ef, Vf) /\
    shape Ef = [Z.to_nat (top + 1); 1] /\ wf Ef /\
    shape Vf = [Z.to_nat (top + 1); 1] /\ wf Vf /\
    forall i, i < Z.to_nat (top + 1) ->
      get2 NaN Ef i 0 = arithmetic_mean (group_values f ind (Z.of_nat i)) /\
      get2 NaN Vf i 0 = population_variance (group_values f ind (Z.of_nat i)) /\
      (group_values f ind (Z.of_nat i) = [] ->
         get2 NaN Ef i 0 = NaN /\ get2 NaN Vf i 0 = NaN) /\
      (forall qs, group_values f ind (Z.of_nat i) = map Fin qs -> qs <> [] ->
         get2 NaN Ef i 0 = Fin (mean_Q qs) /\
         get2 NaN Vf i 0 = Fin (variance_Q qs)).
Proof.
  intros Hwf Hsf Hwi Hsi HM Hpos.
  assert (Hne : data ind <> []).
  { unfold wf, np_size in Hwi. rewrite Hsi in Hwi. simpl in Hwi.
    intros E. rewrite E in Hwi. simpl in Hwi. lia. }
  destruct (np_amax_spec ind Hne) as (top & Htop & Hin & Hmax).
  assert (H0 : (0 <= top)%Z).
  { rewrite Forall_forall in Hpos. now apply Hpos. }
  set (n := Z.to_nat (top + 1)).
  set (mean_of := fun i => arithmetic_mean (group_values f ind (Z.of_nat i))).
  set (var_of := fun i => population_variance (group_values f ind (Z.of_nat i))).
  exists top, (mk_ndarray [n; 1] (map mean_of (seq 0 n))),
         (mk_ndarray [n; 1] (map var_of (seq 0 n))).
  assert (Hget : forall (g : nat -> float) i, i < n ->
            get2 NaN (mk_ndarray [n; 1] (map g (seq 0 n))) i 0 = g i).
  { intros g i Hi. unfold get2, ncols. cbn [shape data nth].
    rewrite Nat.mul_1_r, Nat.add_0_r.
    rewrite nth_indep with (d' := g 0) by (rewrite length_map, length_seq; lia).
    now rewrite (map_nth g (seq 0 n) 0 i), seq_nth by lia. }
  repeat split; auto.
  - unfold run_log, conditional_expectations, lbind, lift, log_info.
    rewrite Htop. rewrite np_zeros_column by lia.
    cbn [fst]. unfold range. fold n.
    exact (for_each_groups Hwf Hsf Hwi Hsi (n := n) n [] [] eq_refl eq_refl).
  - unfold wf, np_size. cbn [shape data]. rewrite length_map, length_seq.
    simpl. lia.
  - unfold wf, np_size. cbn [shape data]. rewrite length_map, length_seq.
    simpl. lia.
  - now rewrite Hget.
  - now rewrite Hget.
  - rewrite Hget by assumption. unfold mean_of. rewrite H1. reflexivity.
  - rewrite Hget by assumption. unfold var_of. rewrite H1. reflexivity.
  - rewrite Hget by assumption. unfold mean_of. rewrite H1.
    now apply arithmetic_mean_Fin.
  - rewrite Hget by assumption. unfold var_of. rewrite H1.
    now apply population_variance_Fin.
Qed.

(** C9, as the code has it. A call on a nonempty [ind] emits exactly one
    record, at level INFO on the logger named PAUL, whose text gives
    [n = max(ind) + 1] and the number of entries of [ind] equal to 0; this
    holds whether or not the rest of the call succeeds. *)
Theorem conditional_expectations_log (f : ndarray float) (ind : ndarray Z) :
  data ind <> [] ->
  exists top,
    np_amax ind = OK top /\ In top (data ind) /\
    Forall (fun z => (z <= top)%Z) (data ind) /\
    snd (run_log (conditional_expectations f ind))
    = [mk_log "PAUL" INFO
         (log_message (top + 1) (Z.of_nat (count_occ Z.eq_dec (data ind) 0%Z)))].
Proof.
  intros Hne. destruct (np_amax_spec ind Hne) as (top & Htop & Hin & Hmax).
  exists top. repeat split; auto.
  unfold run_log, conditional_expectations, lbind, lift, log_info.
  rewrite Htop. unfold np_sum_bool, np_eq. cbn [data].
  rewrite count_true_eq_0.
  destruct (np_zeros [(top + 1)%Z; 1%Z]) as [E|e]; [|reflexivity].
  destruct (for_each _ _ _); reflexivity.
Qed.

Lemma Fin_this (a b : Qc) : this a = this b -> Fin a = Fin b.
Proof.
  intros H. f_equal. apply Qc_is_canon. now rewrite H.
Qed.

Lemma conditional_expectations_spec_witness :
  exists Ef Vf,
    fst (run_log (conditional_expectations f_example ind_example)) = OK (Ef, Vf) /\
    shape Ef = [2; 1] /\ shape Vf = [2; 1] /\
    get2 NaN Ef 0 0 = ratio 3 2 /\ get2 NaN Ef 1 0 = ratio 7 2 /\
    get2 NaN Vf 0 0 = ratio 1 4 /\ get2 NaN Vf 1 0 = ratio 1 4.
Proof.
  destruct (@conditional_expectations_spec f_example ind_example 4
              eq_refl eq_refl eq_refl eq_refl)
    as (top & Ef & Vf & Htop & _ & _ & Hrun & HsE & _ & HsV & _ & Hi).
  - lia.
  - repeat constructor; discriminate.
  - injection Htop as <-. exists Ef, Vf.
    split; [exact Hrun|]. split; [exact HsE|]. split; [exact HsV|].
    destruct (Hi 0%nat) as (_ & _ & _ & H0); [vm_compute; lia|].
    destruct (Hi 1%nat) as (_ & _ & _ & H1); [vm_compute; lia|].
    destruct (H0 [Qc_of_Z 1; Qc_of_Z 2]) as [E0 V0];
      [reflexivity | discriminate |].
    destruct (H1 [Qc_of_Z 3; Qc_of_Z 4]) as [E1 V1];
      [reflexivity | discriminate |].
    rewrite E0, E1, V0, V1.
    repeat split; apply Fin_this; reflexivity.
Defined.

Lemma conditional_expectations_log_witness :
  snd (run_log (conditional_expectations f_example ind_example))
  = [mk_log "PAUL" INFO "Computing 2 conditional averages with 2 MC samples."].
Proof.
  destruct (@conditional_expectations_log f_example ind_example)
    as (top & Htop & _ & _ & Hlog).
  - discriminate.
  - injection Htop as <-. exact Hlog.
Defined.

(** A label that no entry carries: its mean and variance are NaN, and
    nothing is raised. *)
Example conditional_expectations_skipped_label :
  fst (run_log (conditional_expectations f_example (mk_ndarray [4] [0; 0; 2; 2]%Z)))
  = OK (mk_ndarray [3; 1] [ratio 3 2; NaN; ratio 7 2],
        mk_ndarray [3; 1] [ratio 1 4; NaN; ratio 1 4]).
Proof.
  vm_compute.
  repeat (first [ reflexivity | apply Fin_this; reflexivity
                | apply f_equal | apply f_equal2 ]).
Qed.

(** An empty [ind] has no maximum: on a 0-by-1 column and no label the
    call raises, where a pair of empty columns would be the result. *)
Lemma conditional_expectations_empty_raises :
  wf f_empty /\ shape f_empty = [0; 1] /\
  wf ind_empty /\ shape ind_empty = [0] /\
  Forall (fun z => (0 <= z)%Z) (data ind_empty) /\
  fst (run_log (conditional_expectations f_empty ind_empty))
  = Error (ValueError, msg_amax).
Proof.
  split; [reflexivity|]. split; [reflexivity|]. split; [reflexivity|].
  split; [reflexivity|]. split; [constructor | reflexivity].
Qed.

(** The call on an empty [ind] raises before it logs: no record at all. *)
Lemma conditional_expectations_empty_logs_nothing :
  snd (run_log (conditional_expectations f_empty ind_empty)) = [].
Proof. reflexivity. Qed.

(** ** Linear systems *)

Section VecFacts.

Local Open Scope Qc_scope.

Lemma hd_vsub (u v : vec) : hd 0 (vsub u v) = hd 0 u - hd 0 v.
Proof. destruct u, v; simpl; ring. Qed.

Lemma vsub_nil_r (u : vec) : vsub u [] = u.
Proof. now destruct u. Qed.

Lemma tl_vsub (u v : vec) : tl (vsub u v) = vsub (tl u) (tl v).
Proof.
  destruct u as [|a u], v as [|b v]; simpl; rewrite ?vsub_nil_r; reflexivity.
Qed.

Lemma hd_vscale (c : Qc) (v : vec) : hd 0 (vscale c v) = c * hd 0 v.
Proof. destruct v; simpl; ring. Qed.

Lemma tl_vscale (c : Qc) (v : vec) : tl (vscale c v) = vscale c (tl v).
Proof. now destruct v. Qed.

Lemma nth_vscale (c : Qc) (v : vec) (k : nat) :
  nth k (vscale c v) 0 = c * nth k v 0.
Proof.
  revert k. induction v as [|a v IH]; intros [|k]; simpl; try ring; auto.
Qed.

Lemma nth_opp (v : vec) (k : nat) : nth k (map Qcopp v) 0 = - nth k v 0.
Proof.
  revert k. induction v as [|a v IH]; intros [|k]; simpl; try ring; auto.
Qed.

Lemma nth_vsub (u v : vec) (k : nat) :
  nth k (vsub u v) 0 = nth k u 0 - nth k v 0.
Proof.
  revert v k. induction u as [|a u IH]; intros v k.
  - simpl vsub. rewrite nth_opp. destruct k; simpl; ring.
  - destruct v as [|b v]; simpl vsub.
    + destruct k; simpl; ring.
    + destruct k; simpl; [ring | apply IH].
Qed.

Lemma nth_vadd (u v : vec) (k : nat) :
  nth k (vadd u v) 0 = nth k u 0 + nth k v 0.
Proof.
  revert v k. induction u as [|a u IH]; intros v k.
  - simpl vadd. destruct k; simpl; ring.
  - destruct v as [|b v]; simpl vadd.
    + destruct k; simpl; ring.
    + destruct k; simpl; [ring | apply IH].
Qed.

Lemma dot_vsub_l (u v : vec) (x : list Qc) :
  dot (vsub u v) x = dot u x - dot v x.
Proof.
  revert u v. induction x as [|b x IH]; intros u v; simpl; [ring|].
  rewrite hd_vsub, tl_vsub, IH. ring.
Qed.

Lemma dot_vscale_l (c : Qc) (u : vec) (x : list Qc) :
  dot (vscale c u) x = c * dot u x.
Proof.
  revert u. induction x as [|b x IH]; intros u; simpl; [ring|].
  rewrite hd_vscale, tl_vscale, IH. ring.
Qed.

Lemma nth_vlincomb (c : vec) (xs : list vec) (k : nat) :
  nth k (vlincomb c xs) 0 = dot c (col k xs).
Proof.
  revert c. induction xs as [|x xs IH]; intros c; simpl.
  - now destruct k.
  - now rewrite nth_vadd, nth_vscale, IH.
Qed.

Lemma dot_sub_r (c : vec) (x y : list Qc) :
  List.length x = List.length y ->
  dot c (vsub x y) = dot c x - dot c y.
Proof.
  revert c y. induction x as [|a x IH]; intros c [|b y] Hl; simpl in *;
    try discriminate; [ring|].
  rewrite IH by lia. ring.
Qed.


Lemma dot_zero_l (c : vec) (x : list Qc) :
  (forall j, nth j c 0 = 0) -> dot c x = 0.
Proof.
  revert c. induction x as [|a x IH]; intros c Hc; simpl; [reflexivity|].
  rewrite IH.
  - specialize (Hc O). destruct c; simpl in *; [ring|]. rewrite Hc. ring.
  - intros j. specialize (Hc (S j)). destruct c; simpl in *; [now destruct j|auto].
Qed.

Lemma dot_zero_r (c : vec) (n : nat) : dot c (repeat 0 n) = 0.
Proof.
  revert c. induction n as [|n IH]; intros c; simpl; [reflexivity|].
  rewrite IH. ring.
Qed.

(** A combination with coefficients [g 0 .. g (n-1)] is a sum over the
    indices. *)
Lemma dot_map_seq (g : nat -> Qc) (x : list Qc) (s : nat) :
  dot (map g (seq s (List.length x))) x
  = Qcsum (map (fun j => g (s + j)%nat * nth j x 0) (seq 0 (List.length x))).
Proof.
  revert s. induction x as [|a x IH]; intros s; [reflexivity|].
  cbn [List.length seq map dot hd tl Qcsum fold_right nth].
  rewrite IH. rewrite Nat.add_0_r. f_equal.
  rewrite <- seq_shift, map_map. unfold Qcsum. f_equal.
  apply map_ext. intros j. cbn [nth]. now rewrite Nat.add_succ_r.
Qed.

Lemma Qcsum_ext (g h : nat -> Qc) (n : nat) :
  (forall j, (j < n)%nat -> g j = h j) ->
  Qcsum (map g (seq 0 n)) = Qcsum (map h (seq 0 n)).
Proof.
  intros H. f_equal. apply map_ext_in. intros j Hj.
  apply in_seq in Hj. apply H. lia.
Qed.

Lemma Qcsum_zero (g : nat -> Qc) (l : list nat) :
  (forall j, In j l -> g j = 0) -> Qcsum (map g l) = 0.
Proof.
  induction l as [|a l IH]; intros H; simpl; [reflexivity|].
  rewrite IH by (intros j Hj; apply H; now right).
  rewrite H by now left. ring.
Qed.

Lemma Qcsum_single (g : nat -> Qc) (n i : nat) :
  (i < n)%nat ->
  (forall j, (j < n)%nat -> j <> i -> g j = 0) ->
  Qcsum (map g (seq 0 n)) = g i.
Proof.
  intros Hi H.
  replace n with (i + (1 + (n - i - 1)))%nat by lia.
  rewrite !seq_app, !map_app. unfold Qcsum. rewrite !fold_right_app.
  cbn [seq map fold_right].
  fold (Qcsum (map g (seq (0 + i + 1) (n - i - 1)))).
  rewrite Qcsum_zero.
  - replace (fold_right Qcplus (g (0 + i)%nat + 0) (map g (seq 0 i)))
      with (Qcsum (map g (seq 0 i)) + g i).
    + rewrite Qcsum_zero; [ring|].
      intros j Hj. apply in_seq in Hj. apply H; lia.
    + unfold Qcsum. simpl. generalize (map g (seq 0 i)) as l.
      induction l as [|a l IH]; simpl; [ring|]. rewrite <- IH. ring.
  - intros j Hj. apply in_seq in Hj. apply H; lia.
Qed.

End VecFacts.

Section PivotFacts.

Local Open Scope Qc_scope.

Lemma Qcltb_true (a b : Qc) : Qcltb a b = true -> a < b.
Proof.
  unfold Qcltb. destruct (a ?= b) eqn:E; try discriminate.
  intros _. now apply Qclt_alt.
Qed.

Lemma Qcltb_false (a b : Qc) : Qcltb a b = false -> b <= a.
Proof.
  unfold Qcltb. destruct (a ?= b) eqn:E; try discriminate; intros _.
  - apply Qceq_alt in E. subst. apply Qcle_refl.
  - apply Qclt_le_weak. now apply Qcgt_alt.
Qed.

Lemma Qcabs_nonneg (a : Qc) : 0 <= Qcabs a.
Proof.
  unfold Qcabs. destruct (Qcltb a 0) eqn:E.
  - apply Qcltb_true in E. apply Qclt_le_weak.
    apply Qclt_minus_iff in E. now rewrite Qcplus_0_l in E.
  - now apply Qcltb_false.
Qed.

Lemma Qcabs_zero (a : Qc) : Qcabs a = 0 -> a = 0.
Proof.
  unfold Qcabs. destruct (Qcltb a 0); intros H; [|exact H].
  replace a with (- - a) by ring. rewrite H. ring.
Qed.

Lemma Qcabs_le_zero (a : Qc) : Qcabs a <= 0 -> a = 0.
Proof.
  intros H. apply Qcabs_zero. apply Qcle_antisym; [exact H|apply Qcabs_nonneg].
Qed.

Lemma argmax_abs_spec (rows : list row) :
  (rows <> [] -> (argmax_abs rows < List.length rows)%nat) /\
  (forall r, In r rows ->
     Qcabs (lead r) <= Qcabs (lead (nth (argmax_abs rows) rows no_row))).
Proof.
  induction rows as [|r rest [IHlt IHmax]]; [split; [congruence|contradiction]|].
  cbn [argmax_abs]. fold no_row.
  destruct (Qcltb (Qcabs (lead r))
              (Qcabs (lead (nth (argmax_abs rest) rest no_row)))) eqn:E.
  - apply Qcltb_true in E. split.
    + intros _. simpl. apply -> Nat.succ_lt_mono. apply IHlt.
      intros ->. simpl in E.
      apply Qclt_not_le in E. apply E, Qcabs_nonneg.
    + intros r' [<-|Hin]; cbn [nth].
      * now apply Qclt_le_weak.
      * now apply IHmax.
  - apply Qcltb_false in E. split.
    + intros _. simpl. lia.
    + intros r' [<-|Hin]; cbn [nth].
      * apply Qcle_refl.
      * eapply Qcle_trans; [now apply IHmax | exact E].
Qed.

Lemma nth_middle_split (A : Type) (l : list A) (p : nat) (d : A) :
  (p < List.length l)%nat ->
  l = firstn p l ++ nth p l d :: skipn (S p) l.
Proof.
  revert p. induction l as [|a l IH]; intros p Hp; simpl in Hp; [lia|].
  destruct p as [|p]; simpl; [reflexivity|].
  f_equal. apply IH. lia.
Qed.

Lemma pivot_select_some (rows : list row) (piv : row) (rest : list row) :
  pivot_select rows = Some (piv, rest) ->
  lead piv <> 0 /\ Permutation rows (piv :: rest).
Proof.
  unfold pivot_select. destruct rows as [|r0 rest0]; [discriminate|].
  destruct (argmax_abs_spec (r0 :: rest0)) as [Hlt _].
  specialize (Hlt ltac:(discriminate)).
  remember (argmax_abs (r0 :: rest0)) as p eqn:Ep. clear Ep.
  destruct (Qc_eq_bool (lead (nth p (r0 :: rest0) r0)) 0) eqn:E; [discriminate|].
  assert (Hne : lead (nth p (r0 :: rest0) r0) <> 0).
  { intros H0. rewrite H0, Qc_eq_bool_refl in E. discriminate. }
  intros H. injection H as <- <-. split.
  - exact Hne.
  - destruct p as [|p]; cbn [nth]; [apply Permutation_refl|].
    simpl in Hlt. apply Nat.succ_lt_mono in Hlt.
    rewrite (nth_middle_split rest0 r0 Hlt) at 1.
    etransitivity; [apply perm_skip; symmetry; apply Permutation_middle|].
    etransitivity; [apply perm_swap|].
    apply perm_skip. apply Permutation_middle.
Qed.

Lemma pivot_select_none (rows : list row) :
  pivot_select rows = None -> forall r, In r rows -> lead r = 0.
Proof.
  unfold pivot_select. destruct rows as [|r0 rest0]; [contradiction|].
  destruct (argmax_abs_spec (r0 :: rest0)) as [Hlt Hmax].
  specialize (Hlt ltac:(discriminate)).
  remember (argmax_abs (r0 :: rest0)) as p eqn:Ep. clear Ep.
  destruct (Qc_eq_bool (lead (nth p (r0 :: rest0) r0)) 0) eqn:E; [|discriminate].
  intros _ r Hr. apply Qc_eq_bool_correct in E.
  apply Qcabs_le_zero. specialize (Hmax r Hr).
  rewrite (nth_indep _ no_row r0 Hlt), E in Hmax. exact Hmax.
Qed.

End PivotFacts.

Section GaussFacts.

Local Open Scope Qc_scope.

Lemma dot_eliminate (piv r : row) (x : list Qc) :
  dot (fst (eliminate piv r)) x
  = dot (tl (fst r)) x - lead r / lead piv * dot (tl (fst piv)) x.
Proof.
  unfold eliminate. cbn [fst]. now rewrite dot_vsub_l, dot_vscale_l.
Qed.

Lemma nth_eliminate (piv r : row) (k : nat) :
  nth k (snd (eliminate piv r)) 0
  = nth k (snd r) 0 - lead r / lead piv * nth k (snd piv) 0.
Proof.
  unfold eliminate. cbn [snd]. now rewrite nth_vsub, nth_vscale.
Qed.

Lemma nth_back_substitute (piv : row) (xs : list vec) (k : nat) :
  nth k (back_substitute piv xs) 0
  = / lead piv * (nth k (snd piv) 0 - dot (tl (fst piv)) (col k xs)).
Proof.
  unfold back_substitute. now rewrite nth_vscale, nth_vsub, nth_vlincomb.
Qed.

Lemma gesv_sound (n : nat) :
  forall rows xs,
    List.length rows = n -> gesv n rows = Some xs ->
    List.length xs = n /\ solves rows xs.
Proof.
  induction n as [|n IH]; intros rows xs Hlen; cbn [gesv].
  - intros H. injection H as <-. split; [reflexivity|].
    destruct rows; [|discriminate]. intros r [].
  - destruct (pivot_select rows) as [[piv rest]|] eqn:Ep; [|discriminate].
    destruct (pivot_select_some _ Ep) as [Hlead Hperm].
    destruct (gesv n (map (eliminate piv) rest)) as [xs'|] eqn:Eg; [|discriminate].
    intros H. injection H as <-.
    assert (Hrest : List.length rest = n).
    { apply Permutation_length in Hperm. simpl in Hperm. lia. }
    destruct (IH (map (eliminate piv) rest) xs') as [Hxs Hsol];
      [now rewrite length_map | exact Eg |].
    split; [simpl; now rewrite Hxs|].
    intros r Hr k. apply (Permutation_in _ Hperm) in Hr.
    cbn [col map dot]. fold (col k xs'). fold (lead r).
    rewrite nth_back_substitute.
    destruct Hr as [<-|Hr].
    + field. exact Hlead.
    + specialize (Hsol (eliminate piv r) (in_map _ _ _ Hr) k).
      rewrite dot_eliminate, nth_eliminate in Hsol.
      assert (E : dot (tl (fst r)) (col k xs')
                  = nth k (snd r) 0 - lead r / lead piv * nth k (snd piv) 0
                    + lead r / lead piv * dot (tl (fst piv)) (col k xs')).
      { rewrite <- Hsol. ring. }
      rewrite E. field. exact Hlead.
Qed.

Lemma gesv_complete (n : nat) :
  forall rows,
    List.length rows = n -> nonsingular n rows ->
    exists xs, gesv n rows = Some xs.
Proof.
  induction n as [|n IH]; intros rows Hlen Hns; cbn [gesv].
  - now exists [].
  - destruct (pivot_select rows) as [[piv rest]|] eqn:Ep.
    + destruct (pivot_select_some _ Ep) as [Hlead Hperm].
      assert (Hrest : List.length rest = n).
      { apply Permutation_length in Hperm. simpl in Hperm. lia. }
      destruct (IH (map (eliminate piv) rest)) as [xs' Hxs'].
      * now rewrite length_map.
      * intros x' Hx' Hker.
        set (x0 := - dot (tl (fst piv)) x' / lead piv).
        assert (Hx : x0 :: x' = repeat 0 (S n)).
        { apply Hns; [simpl; now rewrite Hx'|].
          intros r Hr. apply (Permutation_in _ Hperm) in Hr.
          cbn [dot]. fold (lead r). destruct Hr as [<-|Hr].
          - unfold x0. field. exact Hlead.
          - specialize (Hker (eliminate piv r) (in_map _ _ _ Hr)).
            rewrite dot_eliminate in Hker.
            assert (E : dot (tl (fst r)) x'
                        = lead r / lead piv * dot (tl (fst piv)) x').
            { rewrite <- (Qcplus_0_l (_ * _)), <- Hker. ring. }
            rewrite E. unfold x0. field. exact Hlead. }
        simpl in Hx. now injection Hx.
      * rewrite Hxs'. eauto.
    + exfalso.
      assert (Hx : 1 :: repeat 0 n = repeat 0 (S n)).
      { apply Hns; [simpl; now rewrite repeat_length|].
        intros r Hr. cbn [dot]. fold (lead r).
        rewrite (pivot_select_none _ Ep r Hr), dot_zero_r. ring. }
      simpl in Hx. injection Hx as Hx. discriminate Hx.
Qed.

Lemma length_vsub (u v : vec) :
  List.length u = List.length v -> List.length (vsub u v) = List.length u.
Proof.
  revert v. induction u as [|a u IH]; intros [|b v] H; simpl in *;
    try discriminate; [reflexivity|].
  f_equal. apply IH. lia.
Qed.


Lemma length_col (k : nat) (xs : list vec) :
  List.length (col k xs) = List.length xs.
Proof. apply length_map. Qed.

(** Two solutions of a nonsingular system, for the right-hand side [k],
    have the same column [k]. *)
Lemma solves_unique (n : nat) (rows : list row) (xs ys : list vec) (k : nat) :
  nonsingular n rows ->
  List.length xs = n -> List.length ys = n ->
  (forall r, In r rows -> dot (fst r) (col k xs) = nth k (snd r) 0) ->
  (forall r, In r rows -> dot (fst r) (col k ys) = nth k (snd r) 0) ->
  col k xs = col k ys.
Proof.
  intros Hns Hxs Hys Sx Sy.
  assert (Hl : List.length (col k xs) = List.length (col k ys))
    by (rewrite !length_col; lia).
  assert (Hz : vsub (col k xs) (col k ys) = repeat 0 n).
  { apply Hns.
    - rewrite length_vsub, length_col by exact Hl. exact Hxs.
    - intros r Hr. rewrite dot_sub_r by exact Hl.
      rewrite (Sx r Hr), (Sy r Hr). ring. }
  apply nth_ext with (d := 0) (d' := 0); [exact Hl|].
  intros j _.
  assert (E : nth j (vsub (col k xs) (col k ys)) 0 = 0).
  { rewrite Hz. destruct (Nat.lt_ge_cases j n) as [Hj|Hj].
    - now apply nth_repeat_lt.
    - apply nth_overflow. now rewrite repeat_length. }
  rewrite nth_vsub in E.
  replace (nth j (col k xs) 0)
    with (nth j (col k xs) 0 - nth j (col k ys) 0 + nth j (col k ys) 0) by ring.
  rewrite E. ring.
Qed.

End GaussFacts.

Section SolveFacts.

Local Open Scope Qc_scope.

Variables (n K : nat) (a b : nat -> nat -> Qc).

(** The system [A Z = B] for the arrays with entries [a] and [b]. *)
Let system : list row :=
  map (fun i => (map (a i) (seq 0 n), map (b i) (seq 0 K))) (seq 0 n).

Lemma rows_of_mat (M m : nat) (g : nat -> nat -> Qc) :
  rows_of (mat M m g) = map (fun i => map (g i) (seq 0 m)) (seq 0 M).
Proof.
  unfold rows_of. cbn [mat shape].
  apply map_ext_in. intros i Hi. apply in_seq in Hi.
  apply map_ext_in. intros j Hj. apply in_seq in Hj.
  apply get2_mat; lia.
Qed.

Lemma combine_map_map (A B C : Type) (f : A -> B) (g : A -> C) (l : list A) :
  combine (map f l) (map g l) = map (fun x => (f x, g x)) l.
Proof. induction l as [|x l IH]; simpl; [reflexivity|]. now rewrite IH. Qed.

Lemma system_rows :
  combine (rows_of (mat n n a)) (rows_of (mat n K b)) = system.
Proof. rewrite !rows_of_mat. apply combine_map_map. Qed.

Lemma in_system (r : row) :
  In r system <->
  exists i, (i < n)%nat /\ r = (map (a i) (seq 0 n), map (b i) (seq 0 K)).
Proof.
  unfold system. rewrite in_map_iff. split.
  - intros (i & <- & Hi). apply in_seq in Hi. exists i. split; [lia|reflexivity].
  - intros (i & Hi & ->). exists i. split; [reflexivity|]. apply in_seq. lia.
Qed.

Lemma length_system : List.length system = n.
Proof. unfold system. now rewrite length_map, length_seq. Qed.

Lemma dot_row (i : nat) (x : list Qc) :
  List.length x = n ->
  dot (map (a i) (seq 0 n)) x
  = Qcsum (map (fun j => a i j * nth j x 0) (seq 0 n)).
Proof. intros <-. apply (dot_map_seq (a i) x 0). Qed.

Lemma nth_col (k j : nat) (xs : list vec) :
  nth j (col k xs) 0 = nth k (nth j xs []) 0.
Proof.
  unfold col. destruct (Nat.lt_ge_cases j (List.length xs)) as [Hj|Hj].
  - rewrite nth_indep with (d' := nth k [] 0) by (now rewrite length_map).
    apply (map_nth (fun x => nth k x 0)).
  - rewrite (nth_overflow (map _ xs)) by (now rewrite length_map).
    rewrite (nth_overflow xs) by exact Hj. now destruct k.
Qed.

Lemma nth_map_seq (g : nat -> Qc) (m k : nat) :
  (k < m)%nat -> nth k (map g (seq 0 m)) 0 = g k.
Proof.
  intros Hk. rewrite nth_indep with (d' := g O)
    by (now rewrite length_map, length_seq).
  now rewrite (map_nth g (seq 0 m) O k), seq_nth.
Qed.

Lemma kernel_trivial_nonsingular :
  kernel_trivial n a -> nonsingular n system.
Proof.
  intros Hk x Hx Hker. apply Hk; [exact Hx|].
  intros i Hi. rewrite <- dot_row by exact Hx.
  apply (Hker (map (a i) (seq 0 n), map (b i) (seq 0 K))).
  apply in_system. now exists i.
Qed.

(** The rows of a list of vectors solve the system, for the right-hand
    side [k], exactly when the entries satisfy the equations of column
    [k]. *)
Lemma solves_entries (xs : list vec) (k : nat) :
  List.length xs = n -> (k < K)%nat ->
  ((forall r, In r system -> dot (fst r) (col k xs) = nth k (snd r) 0) <->
   (forall i, (i < n)%nat ->
      product_entry a (fun j k => nth k (nth j xs []) 0) n i k = b i k)).
Proof.
  intros Hxs Hk. unfold product_entry. split.
  - intros H i Hi.
    specialize (H _ (proj2 (in_system _) (ex_intro _ i (conj Hi eq_refl)))).
    cbn [fst snd] in H.
    rewrite dot_row, nth_map_seq in H by (rewrite ?length_col; assumption).
    rewrite <- H. apply Qcsum_ext. intros j _. now rewrite nth_col.
  - intros H r Hr. apply in_system in Hr. destruct Hr as (i & Hi & ->).
    cbn [fst snd].
    rewrite dot_row, nth_map_seq by (rewrite ?length_col; assumption).
    rewrite <- (H i Hi). apply Qcsum_ext. intros j _. now rewrite nth_col.
Qed.

Lemma solve_with_mat (solver : nat -> list row -> option (list vec)) :
  solve_with solver (mat n n a) (mat n K b)
  = match solver n system with
    | Some xs => OK (of_rows n K xs)
    | None => Error (LinAlgError, msg_singular)
    end.
Proof.
  unfold solve_with. cbn [mat shape]. rewrite Nat.eqb_refl. cbn [negb].
  now rewrite system_rows.
Qed.

(** [np.linalg.solve] on a nonsingular system returns a solution. *)
Lemma solve_exists :
  kernel_trivial n a ->
  exists x,
    solve (mat n n a) (mat n K b) = OK (mat n K x) /\
    forall i k, (i < n)%nat -> (k < K)%nat -> product_entry a x n i k = b i k.
Proof.
  intros Hk. pose proof (kernel_trivial_nonsingular Hk) as Hns.
  destruct (gesv_complete length_system Hns) as [xs Hxs].
  destruct (gesv_sound _ length_system Hxs) as [Hlen Hsol].
  exists (fun i k => nth k (nth i xs []) 0). split.
  - unfold solve. now rewrite solve_with_mat, Hxs.
  - intros i k Hi Hk'.
    apply (proj1 (solves_entries xs Hlen Hk')); [|exact Hi].
    intros r Hr. now apply Hsol.
Qed.

(** Any solver that returns a solution of a nonsingular system returns
    the solution. *)
Lemma solution_unique (x y : nat -> nat -> Qc) :
  kernel_trivial n a ->
  (forall i k, (i < n)%nat -> (k < K)%nat -> product_entry a x n i k = b i k) ->
  (forall i k, (i < n)%nat -> (k < K)%nat -> product_entry a y n i k = b i k) ->
  mat n K x = mat n K y.
Proof.
  intros Hk Hx Hy. pose proof (kernel_trivial_nonsingular Hk) as Hns.
  apply (mat_ext 0). intros i k Hi Hk'.
  set (xs := map (fun i => map (x i) (seq 0 K)) (seq 0 n)).
  set (ys := map (fun i => map (y i) (seq 0 K)) (seq 0 n)).
  assert (Hxs : List.length xs = n) by (unfold xs; now rewrite length_map, length_seq).
  assert (Hys : List.length ys = n) by (unfold ys; now rewrite length_map, length_seq).
  assert (Ex : forall j, (j < n)%nat -> nth k (nth j xs []) 0 = x j k).
  { intros j Hj. unfold xs.
    rewrite nth_indep with (d' := map (x O) (seq 0 K))
      by (now rewrite length_map, length_seq).
    rewrite (map_nth (fun i => map (x i) (seq 0 K)) (seq 0 n) O j), seq_nth by lia.
    now apply nth_map_seq. }
  assert (Ey : forall j, (j < n)%nat -> nth k (nth j ys []) 0 = y j k).
  { intros j Hj. unfold ys.
    rewrite nth_indep with (d' := map (y O) (seq 0 K))
      by (now rewrite length_map, length_seq).
    rewrite (map_nth (fun i => map (y i) (seq 0 K)) (seq 0 n) O j), seq_nth by lia.
    now apply nth_map_seq. }
  assert (E : col k xs = col k ys).
  { apply (@solves_unique n system xs ys k Hns Hxs Hys).
    - apply (proj2 (solves_entries xs Hxs Hk')). intros i' Hi'.
      rewrite <- (Hx i' k Hi' Hk'). unfold product_entry.
      apply Qcsum_ext. intros j Hj. now rewrite Ex.
    - apply (proj2 (solves_entries ys Hys Hk')). intros i' Hi'.
      rewrite <- (Hy i' k Hi' Hk'). unfold product_entry.
      apply Qcsum_ext. intros j Hj. now rewrite Ey. }
  rewrite <- (Ex i Hi), <- (Ey i Hi), <- !nth_col. now rewrite E.
Qed.

End SolveFacts.

Section TriangularFacts.

Local Open Scope Qc_scope.

Variables (n K : nat) (l b : nat -> nat -> Qc).

Hypothesis lower : forall i j, (i < j)%nat -> (j < n)%nat -> l i j = 0.
Hypothesis diagonal : forall i, (i < n)%nat -> l i i <> 0.

Lemma triangular_kernel_trivial : kernel_trivial n l.
Proof.
  intros x Hx Hker.
  assert (Hz : forall i, (i < n)%nat -> nth i x 0 = 0).
  { intros i. induction i as [i IH] using lt_wf_ind. intros Hi.
    specialize (Hker i Hi).
    rewrite (Qcsum_single (fun j => l i j * nth j x 0) Hi) in Hker.
    - apply Qcmult_integral in Hker. destruct Hker as [H|H]; [|exact H].
      now apply diagonal in H.
    - intros j Hj Hne. destruct (Nat.lt_ge_cases j i) as [Hlt|Hge].
      + rewrite (IH j Hlt Hj). ring.
      + rewrite lower by lia. ring. }
  apply nth_ext with (d := 0) (d' := 0); [now rewrite repeat_length|].
  intros i Hi. rewrite Hx in Hi. rewrite (Hz i Hi).
  symmetry. now apply nth_repeat_lt.
Qed.







End TriangularFacts.

(** ** UnboundedNormalizer *)

Section DotFacts.

Local Open Scope Qc_scope.

Lemma np_dot_mat (M m K : nat) (f g : nat -> nat -> Qc) :
  np_dot (mat M m f) (mat m K g)
  = OK (mat M K (fun i k => product_entry f g m i k)).
Proof.
  unfold np_dot. cbn [mat shape]. rewrite Nat.eqb_refl.
  apply f_equal, (mat_ext 0). intros i k Hi Hk.
  unfold product_entry. apply Qcsum_ext. intros j Hj.
  now rewrite !get2_mat.
Qed.

End DotFacts.

Section GaussianFacts.

Local Open Scope Qc_scope.

Variables (m : nat) (u : nat -> Qc) (l : nat -> nat -> Qc).

Hypothesis lower : forall i j, (i < j)%nat -> (j < m)%nat -> l i j = 0.
Hypothesis diagonal : forall i, (i < m)%nat -> l i i <> 0.

Let N : UnboundedNormalizer.t :=
  UnboundedNormalizer.mk (mat 1 m (fun _ j => u j)) (mat m m l).

Lemma unnormalize_entries (M : nat) (y : nat -> nat -> Qc) :
  UnboundedNormalizer.unnormalize N (mat M m y)
  = OK (mat M m (fun i k => product_entry y (fun j k => l k j) m i k + u k)).
Proof.
  unfold UnboundedNormalizer.unnormalize, N.
  cbn [UnboundedNormalizer.mu UnboundedNormalizer.L].
  rewrite process_inputs_mat. cbn [bind].
  rewrite transpose_mat, np_dot_mat. cbn [bind].
  now rewrite broadcast2_mat_row.
Qed.

(** [normalize] returns the transpose of whatever solves
    [L Z = (X - mu)^T]. *)
Lemma normalize_entries (M : nat) (x z : nat -> nat -> Qc) :
  (forall j i, (j < m)%nat -> (i < M)%nat ->
     product_entry l z m j i = x i j - u j) ->
  UnboundedNormalizer.normalize N (mat M m x) = OK (mat M m (fun i j => z j i)).
Proof.
  intros Hz. unfold UnboundedNormalizer.normalize, N.
  cbn [UnboundedNormalizer.mu UnboundedNormalizer.L].
  rewrite process_inputs_mat. cbn [bind].
  rewrite broadcast2_mat_row. cbn [bind]. rewrite transpose_mat.
  destruct (@solve_exists m M l (fun j i => x i j - u j)
              (@triangular_kernel_trivial m l lower diagonal)) as (z' & -> & Hz').
  cbn [bind]. rewrite transpose_mat. apply f_equal.
  assert (E : mat m M z' = mat m M z).
  { apply (@solution_unique m M l (fun j i => x i j - u j) z' z
             (@triangular_kernel_trivial m l lower diagonal) Hz' Hz). }
  apply (mat_ext 0). intros i j Hi Hj.
  rewrite <- (get2_mat 0 z' Hj Hi), <- (get2_mat 0 z Hj Hi). now rewrite E.
Qed.

Lemma normalize_solves (M : nat) (x : nat -> nat -> Qc) :
  exists z,
    UnboundedNormalizer.normalize N (mat M m x) = OK (mat M m (fun i j => z j i)) /\
    forall j i, (j < m)%nat -> (i < M)%nat ->
      product_entry l z m j i = x i j - u j.
Proof.
  destruct (@solve_exists m M l (fun j i => x i j - u j)
              (@triangular_kernel_trivial m l lower diagonal)) as (z & _ & Hz).
  exists z. split; [now apply normalize_entries | exact Hz].
Qed.


End GaussianFacts.

Lemma ncols_2d (T : Type) (A : ndarray T) (M m : nat) :
  shape A = [M; m] -> ncols A = m.
Proof. unfold ncols. now intros ->. Qed.



Section UnboundedFacts.

Variable cholesky : ndarray Qc -> result (ndarray Qc).

Hypothesis cholesky_spec :
  forall C L, cholesky C = OK L -> cholesky_factor C L.



End UnboundedFacts.

(** *** A worked instance *)

Lemma list_Qc_eq (l1 l2 : list Qc) : map this l1 = map this l2 -> l1 = l2.
Proof.
  revert l2. induction l1 as [|a l1 IH]; intros [|b l2] H; simpl in H;
    try discriminate; [reflexivity|].
  injection H as Hab Hl. f_equal; [|now apply IH].
  apply Qc_is_canon. now rewrite Hab.
Qed.

Lemma forallb_combine_eq (l1 l2 : list Qc) :
  List.length l1 = List.length l2 ->
  forallb (fun p => Qc_eq_bool (fst p) (snd p)) (combine l1 l2) = true ->
  l1 = l2.
Proof.
  revert l2. induction l1 as [|a l1 IH]; intros [|b l2] Hl H; simpl in *;
    try discriminate; [reflexivity|].
  apply andb_true_iff in H. destruct H as [Hab H].
  apply Qc_eq_bool_correct in Hab. f_equal; [exact Hab|].
  apply IH; [lia|exact H].
Qed.

Lemma array_eqb_eq (A B : ndarray Qc) : array_eqb A B = true -> A = B.
Proof.
  unfold array_eqb. intros H.
  apply andb_true_iff in H. destruct H as [H Hd].
  apply andb_true_iff in H. destruct H as [Hs Hl].
  destruct (list_eq_dec Nat.eq_dec (shape A) (shape B)) as [Es|]; [|discriminate].
  apply Nat.eqb_eq in Hl.
  destruct A as [sa da], B as [sb db]. simpl in *. subst sb.
  f_equal. now apply forallb_combine_eq.
Qed.

Lemma cholesky_example_factor : cholesky_factor C_example L_example.
Proof.
  exists 2. split; [reflexivity|]. split; [reflexivity|]. split; [reflexivity|].
  split; [|split].
  - intros i j Hij Hj. change (ncols L_example) with 2 in Hj.
    assert (i = 0 /\ j = 1) as [-> ->] by lia.
    apply Qc_is_canon. reflexivity.
  - intros i Hi. destruct i as [|[|i]]; [reflexivity|reflexivity|lia].
  - intros _. unfold np_dot, C_example. cbn [transpose L_example shape].
    change (2 =? 2) with true. cbv iota.
    apply f_equal, f_equal, list_Qc_eq. reflexivity.
Qed.

Lemma cholesky_example_spec (C L : ndarray Qc) :
  cholesky_example C = OK L -> cholesky_factor C L.
Proof.
  unfold cholesky_example. destruct (array_eqb C C_example) eqn:E; [|discriminate].
  intros H. injection H as <-. apply array_eqb_eq in E. subst C.
  exact cholesky_example_factor.
Qed.



(** With an entry above the diagonal, the solve step uses the entry and
    forward substitution does not read it: the two results differ, and so
    do [normalize] and its forward-substitution variant. *)
Lemma solve_not_forward_substitution :
  (exists Z, solve U_example B_example = OK Z /\
             map this (data Z) = [0; 1]%Q) /\
  (exists Z, forward_substitution U_example B_example = OK Z /\
             map this (data Z) = [1; 1]%Q) /\
  solve U_example B_example <> forward_substitution U_example B_example /\
  UnboundedNormalizer.normalize N_upper X_example
  <> normalize_by_forward_substitution N_upper X_example.
Proof.
  assert (Hs : exists Z, solve U_example B_example = OK Z /\
                         map this (data Z) = [0; 1]%Q).
  { eexists. split; [vm_compute; reflexivity | reflexivity]. }
  assert (Hf : exists Z, forward_substitution U_example B_example = OK Z /\
                         map this (data Z) = [1; 1]%Q).
  { eexists. split; [vm_compute; reflexivity | reflexivity]. }
  split; [exact Hs|]. split; [exact Hf|]. split.
  - destruct Hs as (Z1 & -> & H1). destruct Hf as (Z2 & -> & H2).
    intros E. injection E as E. rewrite E in H1. rewrite H1 in H2. discriminate.
  - assert (Hn : exists Y, UnboundedNormalizer.normalize N_upper X_example = OK Y /\
                           map this (data Y) = [0; 0; 0; 2; 13; -9]%Q).
    { eexists. split; [vm_compute; reflexivity | reflexivity]. }
    assert (Hr : exists Y, normalize_by_forward_substitution N_upper X_example = OK Y /\
                           map this (data Y) = [0; 0; 2; 2; 4; -9]%Q).
    { eexists. split; [vm_compute; reflexivity | reflexivity]. }
    destruct Hn as (Y1 & -> & H1). destruct Hr as (Y2 & -> & H2).
    intros E. injection E as E. rewrite E in H1. rewrite H1 in H2. discriminate.
Qed.

(** * Further properties *)

(** ** Row and column coercion *)

Section CoercionFacts.

Variable T : Type.
Variable d : T.

Lemma prod_cons (n : nat) (s : list nat) : prod (n :: s) = n * prod s.
Proof. reflexivity. Qed.

(** X1. What [atleast_2d] returns has at least two dimensions and holds
    the elements of its input, in the same order and number; handed to
    [atleast_2d] again it comes back as it is, whatever the mode. *)
Theorem atleast_2d_ensures (A : pyobj T) (oned_as : string) (B : ndarray T) :
  atleast_2d A oned_as = OK B ->
  2 <= ndim B /\
  data B = data (as_array A) /\
  np_size B = np_size (as_array A) /\
  forall mode, atleast_2d (PyArray B) mode = OK B.
Proof.
  unfold atleast_2d. intros H.
  assert (Hrank : 2 <= ndim B /\ data B = data (as_array A) /\
                  np_size B = np_size (as_array A)).
  { destruct (ndim (as_array A) <? 2) eqn:E.
    - unfold newaxis_row, newaxis_col, ndim, np_size in *.
      destruct (String.eqb oned_as "row");
        [|destruct (String.eqb oned_as "col"); [|discriminate]];
        destruct (shape (as_array A)) as [|n s]; try discriminate;
        injection H as <-; cbn [shape data List.length];
        (split; [lia|]); (split; [reflexivity|]);
        rewrite !prod_cons; lia.
    - injection H as <-. apply Nat.ltb_ge in E. auto. }
  destruct Hrank as (H2 & Hd & Hs). repeat split; auto.
  intros mode. cbn [as_array]. apply Nat.ltb_ge in H2. now rewrite H2.
Qed.

(** X2. A zero-dimensional array is not coerced: both modes fail on it
    with an IndexError, although a bare scalar, which is wrapped in a list
    first, becomes a 1-by-1 array in both modes. *)
Theorem atleast_2d_zero_dim (a : ndarray T) (x : T) (oned_as : string) :
  shape a = [] ->
  oned_as = "row"%string \/ oned_as = "col"%string ->
  atleast_2d (PyArray a) oned_as = Error (IndexError, msg_indices) /\
  atleast_2d (PyScalar x) oned_as = OK (mk_ndarray [1; 1] [x]).
Proof.
  intros Hs [-> | ->]; (split; [|reflexivity]);
    unfold atleast_2d, ndim, newaxis_row, newaxis_col; cbn [as_array];
    rewrite Hs; reflexivity.
Qed.

(** X3. The row and the column made of a vector are each other's
    transpose: for a 1-D input of length [n], [atleast_2d_row] gives the
    1-by-[n] array and [atleast_2d_col] the [n]-by-1 array of the same
    elements. *)
Theorem atleast_2d_row_col_transpose (A : pyobj T) (n : nat) :
  wf (as_array A) -> shape (as_array A) = [n] ->
  exists R C,
    atleast_2d_row A = OK R /\ atleast_2d_col A = OK C /\
    shape R = [1; n] /\ shape C = [n; 1] /\
    transpose d R = C /\ transpose d C = R.
Proof.
  intros Hwf Hs. unfold wf, np_size in Hwf. rewrite Hs in Hwf.
  simpl in Hwf.
  exists (mk_ndarray [1; n] (data (as_array A))),
         (mk_ndarray [n; 1] (data (as_array A))).
  unfold atleast_2d_row, atleast_2d_col, atleast_2d, ndim,
    newaxis_row, newaxis_col.
  rewrite Hs. cbn [List.length Nat.ltb Nat.leb String.eqb Ascii.eqb Bool.eqb].
  repeat split; unfold transpose; cbn [shape]; f_equal; symmetry;
    apply tabulate2_eq with (d := d); try lia.
  - intros i j Hi Hj. unfold get2, ncols. cbn [shape data nth].
    f_equal. lia.
  - intros i j Hi Hj. unfold get2, ncols. cbn [shape data nth].
    f_equal. lia.
Qed.

(** X4. Coerced vectors pass the validators: the row made of a length-[n]
    vector is accepted by [process_inputs] as one point in [n] dimensions,
    and the column made of it is accepted by [process_inputs_outputs] as
    the outputs of any [n]-by-[m] array of inputs. *)
Theorem coerced_vectors_validate (A : pyobj T) (X : ndarray T) (n m : nat) :
  shape (as_array A) = [n] -> shape X = [n; m] ->
  exists R C,
    atleast_2d_row A = OK R /\ process_inputs R = OK (R, 1, n) /\
    atleast_2d_col A = OK C /\ process_inputs_outputs X C = OK (X, C, n, m).
Proof.
  intros Hs HX.
  exists (mk_ndarray [1; n] (data (as_array A))),
         (mk_ndarray [n; 1] (data (as_array A))).
  unfold atleast_2d_row, atleast_2d_col, atleast_2d, ndim,
    newaxis_row, newaxis_col.
  rewrite Hs. cbn [List.length Nat.ltb Nat.leb String.eqb Ascii.eqb Bool.eqb].
  split; [reflexivity|]. split; [now apply process_inputs_2d|].
  split; [reflexivity|].
  unfold process_inputs_outputs. rewrite (process_inputs_2d _ HX).
  cbn [bind shape]. rewrite Nat.eqb_refl. cbn [negb Nat.eqb].
  unfold reshape, np_size. cbn [shape data prod fold_right].
  rewrite Nat.eqb_refl. reflexivity.
Qed.

(** ** Shape validation *)

Lemma process_inputs_inv (X X' : ndarray T) (M m : nat) :
  process_inputs X = OK (X', M, m) -> X' = X /\ shape X = [M; m].
Proof.
  intros H. destruct (Nat.eq_dec (ndim X) 2) as [H2|H2].
  - destruct (ndim_2_inv _ H2) as (M0 & m0 & Hs).
    rewrite (process_inputs_2d _ Hs) in H. injection H as <- <- <-. now split.
  - rewrite (process_inputs_not_2d _ H2) in H. discriminate.
Qed.

(** X5. [process_inputs_outputs] is [process_inputs] on both arguments:
    it returns [(X', f', M, m)] exactly when [process_inputs] accepts [X]
    as [M]-by-[m] and accepts [f] as [M]-by-1; what it returns are the
    arrays it was given. *)
Theorem process_inputs_outputs_compose
  (X f X' f' : ndarray T) (M m : nat) :
  process_inputs_outputs X f = OK (X', f', M, m) <->
  process_inputs X = OK (X', M, m) /\ process_inputs f = OK (f', M, 1).
Proof.
  split.
  - unfold process_inputs_outputs.
    destruct (process_inputs X) as [[[X0 M0] m0]|e] eqn:EX; [|discriminate].
    cbn [bind]. destruct (shape f) as [|Mf [|mf [|k s]]] eqn:Hf; try discriminate.
    destruct (Mf =? M0) eqn:EM; [|discriminate]. cbn [negb].
    destruct (mf =? 1) eqn:Em; [|discriminate]. cbn [negb].
    apply Nat.eqb_eq in EM, Em. subst Mf mf.
    unfold reshape, np_size. rewrite Hf.
    replace (prod [M0; 1] =? prod [M0; 1]) with true
      by (symmetry; apply Nat.eqb_refl).
    cbn [bind]. intros H. injection H as <- <- <- <-.
    split; [reflexivity|].
    rewrite (process_inputs_2d _ Hf). destruct f; simpl in *; now subst.
  - intros [HX Hf]. apply process_inputs_inv in Hf. destruct Hf as [-> Hf].
    unfold process_inputs_outputs. rewrite HX. cbn [bind]. rewrite Hf.
    rewrite Nat.eqb_refl. cbn [negb Nat.eqb].
    unfold reshape, np_size. rewrite Hf, Nat.eqb_refl. cbn [bind].
    destruct f; simpl in *; now subst.
Qed.

End CoercionFacts.

Lemma atleast_2d_ensures_witness :
  2 <= ndim (mk_ndarray [1; 3] (data v_3)) /\
  data (mk_ndarray [1; 3] (data v_3)) = data v_3.
Proof.
  destruct (@atleast_2d_ensures nat (PyArray v_3) "row"
              (mk_ndarray [1; 3] (data v_3)) eq_refl) as (H2 & Hd & _).
  split; [exact H2 | exact Hd].
Defined.

Lemma atleast_2d_zero_dim_witness :
  atleast_2d (PyArray a_0d) "col" = Error (IndexError, msg_indices) /\
  atleast_2d (PyScalar 5) "col" = OK (mk_ndarray [1; 1] [5]).
Proof.
  apply (@atleast_2d_zero_dim nat a_0d 5 "col" eq_refl). now right.
Defined.

Lemma atleast_2d_row_col_transpose_witness :
  exists R C,
    atleast_2d_row (PyArray v_3) = OK R /\ atleast_2d_col (PyArray v_3) = OK C /\
    shape R = [1; 3] /\ shape C = [3; 1] /\
    transpose 0 R = C /\ transpose 0 C = R.
Proof.
  apply (@atleast_2d_row_col_transpose nat 0 (PyArray v_3) 3); reflexivity.
Defined.

Lemma coerced_vectors_validate_witness :
  exists R C,
    atleast_2d_row (PyArray (mk_ndarray [2] [7; 8])) = OK R /\
    process_inputs R = OK (R, 1, 2) /\
    atleast_2d_col (PyArray (mk_ndarray [2] [7; 8])) = OK C /\
    process_inputs_outputs X_2x3 C = OK (X_2x3, C, 2, 3).
Proof.
  apply (@coerced_vectors_validate nat (PyArray (mk_ndarray [2] [7; 8]))
           X_2x3 2 3); reflexivity.
Defined.

Lemma process_inputs_outputs_compose_witness :
  process_inputs X_2x3 = OK (X_2x3, 2, 3) /\
  process_inputs f_2x1 = OK (f_2x1, 2, 1).
Proof.
  apply (proj1 (@process_inputs_outputs_compose nat X_2x3 f_2x1 X_2x3 f_2x1 2 3)).
  reflexivity.
Defined.

(** ** Broadcasting *)

Section BroadcastFacts.

Variable T : Type.
Variable d : T.

Lemma bidx_bound (a b n i : nat) :
  broadcast_dim a b = Some n -> i < n -> bidx a i < a /\ bidx b i < b.
Proof.
  unfold broadcast_dim, bidx. intros H Hi.
  destruct (a =? b) eqn:Eab.
  - apply Nat.eqb_eq in Eab. injection H as <-. subst b.
    destruct (a =? 1); lia.
  - destruct (a =? 1) eqn:Ea.
    + apply Nat.eqb_eq in Ea. injection H as <-. subst a.
      destruct (b =? 1) eqn:Eb; [apply Nat.eqb_eq in Eb|]; lia.
    + destruct (b =? 1) eqn:Eb; [|discriminate].
      apply Nat.eqb_eq in Eb. injection H as <-. lia.
Qed.

(** Two arrays given entry by entry, combined with broadcasting. *)
Lemma broadcast2_mat (op : T -> T -> T) (Ma ma Mb mb M m : nat)
  (g h : nat -> nat -> T) :
  broadcast_dim Ma Mb = Some M -> broadcast_dim ma mb = Some m ->
  broadcast2 d op (mat Ma ma g) (mat Mb mb h)
  = OK (mat M m (fun i j =>
          op (g (bidx Ma i) (bidx ma j)) (h (bidx Mb i) (bidx mb j)))).
Proof.
  intros HM Hm. unfold broadcast2. cbn [mat shape]. rewrite HM, Hm.
  apply f_equal, (mat_ext d). intros i j Hi Hj.
  destruct (bidx_bound _ _ HM Hi), (bidx_bound _ _ Hm Hj).
  now rewrite !get2_mat.
Qed.

Lemma broadcast2_mismatch (op : T -> T -> T) (A B : ndarray T)
  (Ma ma Mb mb : nat) :
  shape A = [Ma; ma] -> shape B = [Mb; mb] ->
  broadcast_dim ma mb = None ->
  broadcast2 d op A B = Error (ValueError, msg_broadcast).
Proof.
  intros HA HB Hm. unfold broadcast2. rewrite HA, HB, Hm.
  now destruct (broadcast_dim Ma Mb).
Qed.

Lemma broadcast_dim_none (a b : nat) :
  a <> b -> a <> 1 -> b <> 1 -> broadcast_dim a b = None.
Proof.
  intros Hab Ha Hb. unfold broadcast_dim.
  apply Nat.eqb_neq in Hab, Ha, Hb. now rewrite Hab, Ha, Hb.
Qed.

Lemma full_mat (M m : nat) (v : T) : full [M; m] v = mat M m (fun _ _ => v).
Proof.
  unfold full, mat. f_equal. apply tabulate2_eq with (d := d).
  - rewrite repeat_length. simpl. lia.
  - intros i j Hi Hj. apply nth_repeat_lt. simpl. nia.
Qed.

End BroadcastFacts.

(** ** BoundedNormalizer *)

(** X6. The constructor accepts the bounds exactly when [ub] has as many
    elements as [lb], whatever their shapes; it stores both as 1-by-[m]
    rows of the same elements, and raises a ValueError otherwise. *)
Theorem BoundedNormalizer_init_spec (lb ub : ndarray float) :
  (np_size ub = np_size lb ->
   exists N,
     BoundedNormalizer.init lb ub = OK N /\
     shape (BoundedNormalizer.lb N) = [1; np_size lb] /\
     shape (BoundedNormalizer.ub N) = [1; np_size lb] /\
     data (BoundedNormalizer.lb N) = data lb /\
     data (BoundedNormalizer.ub N) = data ub) /\
  (np_size ub <> np_size lb ->
   exists msg, BoundedNormalizer.init lb ub = Error (ValueError, msg)).
Proof.
  unfold BoundedNormalizer.init, reshape.
  replace (prod [1; np_size lb]) with (np_size lb) by (simpl; lia).
  rewrite Nat.eqb_refl. cbn [bind]. split.
  - intros E. rewrite E, Nat.eqb_refl. cbn [bind].
    eexists. split; [reflexivity|]. now cbn.
  - intros E. apply not_eq_sym, Nat.eqb_neq in E. rewrite E. cbn [bind].
    now exists msg_reshape.
Qed.

Section OrderFacts.

Local Open Scope Qc_scope.

Lemma Qc_mult_nonneg (a b : Qc) : 0 <= a -> 0 <= b -> 0 <= a * b.
Proof.
  intros Ha Hb. rewrite <- (Qcmult_0_l b). now apply Qcmult_le_compat_r.
Qed.

Lemma Qc_div_nonneg (p w : Qc) : 0 <= p -> 0 < w -> 0 <= p / w.
Proof.
  intros Hp Hw. apply Qcmult_lt_0_le_reg_r with (z := w); [exact Hw|].
  rewrite Qcmult_0_l.
  replace (p / w * w) with p; [exact Hp|].
  field. intros E. rewrite E in Hw. now apply Qclt_not_eq in Hw.
Qed.

End OrderFacts.

Section BoundedMore.

Variables (lb ub : ndarray float) (m : nat) (N : BoundedNormalizer.t).

Hypothesis wf_lb : wf lb.
Hypothesis wf_ub : wf ub.
Hypothesis size_lb : np_size lb = m.
Hypothesis size_ub : np_size ub = m.
Hypothesis init_N : BoundedNormalizer.init lb ub = OK N.

Let lo (j : nat) : float := nth j (data lb) NaN.
Let hi (j : nat) : float := nth j (data ub) NaN.

Let N_rows : N = BoundedNormalizer.mk (mat 1 m (fun _ j => lo j))
                                       (mat 1 m (fun _ j => hi j))
  := init_rows wf_lb wf_ub size_lb size_ub init_N.

(** X9. The column count of [X] is checked by broadcasting only.  A
    one-column [X] is accepted by [normalize] and by [unnormalize], with
    its column used for every coordinate, so that the result is
    [M]-by-[m]; an [X] with another number of columns than [m] is
    rejected with a ValueError (when [m] is not 1). *)
Theorem BoundedNormalizer_column_count (X : ndarray float) (M m' : nat) :
  wf X -> shape X = [M; m'] ->
  (m' = 1 ->
   let X' := mat M m (fun i _ => get2 NaN X i 0) in
   BoundedNormalizer.normalize N X = BoundedNormalizer.normalize N X' /\
   BoundedNormalizer.unnormalize N X = BoundedNormalizer.unnormalize N X' /\
   exists Y Z,
     BoundedNormalizer.normalize N X = OK Y /\ shape Y = [M; m] /\
     BoundedNormalizer.unnormalize N X = OK Z /\ shape Z = [M; m]) /\
  (m' <> m -> m' <> 1 -> m <> 1 ->
   exists msg,
     BoundedNormalizer.normalize N X = Error (ValueError, msg) /\
     BoundedNormalizer.unnormalize N X = Error (ValueError, msg)).
Proof.
  intros HwX HsX. split.
  - intros ->. cbv zeta.
    pose proof (as_mat NaN HsX HwX) as EX.
    set (g := get2 NaN X) in *. rewrite EX.
    rewrite (normalize_mat wf_lb wf_ub size_lb size_ub init_N).
    rewrite (unnormalize_mat wf_lb wf_ub size_lb size_ub init_N).
    fold lo hi.
    assert (En : BoundedNormalizer.normalize N (mat M 1 g)
                 = OK (mat M m (fun i j => normalize_elt (lo j) (hi j) (g i 0)))).
    { rewrite N_rows. unfold BoundedNormalizer.normalize.
      cbn [BoundedNormalizer.lb BoundedNormalizer.ub].
      rewrite process_inputs_mat. cbn [bind].
      rewrite (@broadcast2_mat _ NaN fsub M 1 1 m M m _ _
                 (broadcast_dim_1_r M) (broadcast_dim_1_l m)).
      cbn [bind]. mat_steps.
      apply f_equal, (mat_ext NaN). intros i j Hi Hj.
      change (bidx 1 j) with 0. change (bidx 1 i) with 0.
      now rewrite !bidx_lt by assumption. }
    assert (Eu : BoundedNormalizer.unnormalize N (mat M 1 g)
                 = OK (mat M m (fun i j => unnormalize_elt (lo j) (hi j) (g i 0)))).
    { rewrite N_rows. unfold BoundedNormalizer.unnormalize.
      cbn [BoundedNormalizer.lb BoundedNormalizer.ub].
      rewrite process_inputs_mat. cbn [bind].
      rewrite (broadcast2_mat_row NaN fsub 1 m). cbn [bind].
      rewrite map_array_mat.
      rewrite (@broadcast2_mat _ NaN fmul 1 m M 1 M m _ _
                 (broadcast_dim_1_l M) (broadcast_dim_1_r m)).
      cbn [bind]. mat_steps.
      apply f_equal, (mat_ext NaN). intros i j Hi Hj.
      change (bidx 1 j) with 0. change (bidx 1 i) with 0.
      now rewrite !bidx_lt by assumption. }
    rewrite En, Eu. split; [reflexivity|]. split; [reflexivity|].
    eexists. eexists. repeat split.
  - intros Hm Hm1 H1. exists msg_broadcast.
    rewrite N_rows.
    unfold BoundedNormalizer.normalize, BoundedNormalizer.unnormalize.
    rewrite (process_inputs_2d _ HsX).
    cbn [bind BoundedNormalizer.lb BoundedNormalizer.ub]. split.
    + rewrite (@broadcast2_mismatch _ NaN fsub X (mat 1 m (fun _ j => lo j))
                 M m' 1 m HsX eq_refl (broadcast_dim_none Hm Hm1 H1)).
      reflexivity.
    + rewrite (broadcast2_mat_row NaN fsub 1 m). cbn [bind].
      rewrite (@broadcast2_mismatch _ NaN fmul
                 (mat 1 m (fun _ j => fsub (hi j) (lo j)))
                 (map_array (fun x => fadd x (of_Z 1)) X)
                 1 m M m' eq_refl HsX
                 (broadcast_dim_none (not_eq_sym Hm) H1 Hm1)).
      reflexivity.
Qed.

End BoundedMore.

(** X10. Every method of the two normalizers validates the rank of [X]
    first, whatever the state of the normalizer: an [X] that is not
    two-dimensional is rejected with the ValueError of [process_inputs]. *)
Theorem normalizers_reject_rank
  (B : BoundedNormalizer.t) (U : UnboundedNormalizer.t)
  (X : ndarray float) (X' : ndarray Qc) :
  ndim X <> 2 -> ndim X' <> 2 ->
  BoundedNormalizer.normalize B X = Error (ValueError, msg_inputs_2d) /\
  BoundedNormalizer.unnormalize B X = Error (ValueError, msg_inputs_2d) /\
  UnboundedNormalizer.normalize U X' = Error (ValueError, msg_inputs_2d) /\
  UnboundedNormalizer.unnormalize U X' = Error (ValueError, msg_inputs_2d).
Proof.
  intros H H'.
  unfold BoundedNormalizer.normalize, BoundedNormalizer.unnormalize,
    UnboundedNormalizer.normalize, UnboundedNormalizer.unnormalize.
  rewrite (process_inputs_not_2d _ H), (process_inputs_not_2d _ H').
  repeat split.
Qed.

Lemma BoundedNormalizer_init_spec_witness :
  (exists N,
     BoundedNormalizer.init lb_box ub_box = OK N /\
     shape (BoundedNormalizer.lb N) = [1; np_size lb_box] /\
     shape (BoundedNormalizer.ub N) = [1; np_size lb_box] /\
     data (BoundedNormalizer.lb N) = data lb_box /\
     data (BoundedNormalizer.ub N) = data ub_box) /\
  exists msg, BoundedNormalizer.init lb_box lb_flat = Error (ValueError, msg).
Proof.
  split.
  - apply (BoundedNormalizer_init_spec lb_box ub_box). reflexivity.
  - apply (BoundedNormalizer_init_spec lb_box lb_flat). vm_compute. lia.
Defined.

Lemma BoundedNormalizer_column_count_witness :
  (exists Y Z,
     BoundedNormalizer.normalize N_box X_one_column = OK Y /\
     shape Y = [2; 2] /\
     BoundedNormalizer.unnormalize N_box X_one_column = OK Z /\
     shape Z = [2; 2]) /\
  exists msg,
    BoundedNormalizer.normalize N_box X_three_columns
      = Error (ValueError, msg) /\
    BoundedNormalizer.unnormalize N_box X_three_columns
      = Error (ValueError, msg).
Proof.
  split.
  - apply (@BoundedNormalizer_column_count lb_box ub_box 2 N_box
             eq_refl eq_refl eq_refl eq_refl eq_refl X_one_column 2 1
             eq_refl eq_refl).
    reflexivity.
  - apply (@BoundedNormalizer_column_count lb_box ub_box 2 N_box
             eq_refl eq_refl eq_refl eq_refl eq_refl X_three_columns 1 3
             eq_refl eq_refl); lia.
Defined.

Lemma normalizers_reject_rank_witness :
  BoundedNormalizer.normalize N_box lb_box
    = Error (ValueError, msg_inputs_2d) /\
  BoundedNormalizer.unnormalize N_box lb_box
    = Error (ValueError, msg_inputs_2d) /\
  UnboundedNormalizer.normalize N_example mu_example
    = Error (ValueError, msg_inputs_2d) /\
  UnboundedNormalizer.unnormalize N_example mu_example
    = Error (ValueError, msg_inputs_2d).
Proof.
  apply (@normalizers_reject_rank N_box N_example lb_box mu_example);
    vm_compute; lia.
Defined.

(** ** UnboundedNormalizer *)

Lemma broadcast_dim_some (a b c : nat) :
  broadcast_dim a b = Some c -> b <> 1 -> c = b.
Proof.
  unfold broadcast_dim.
  destruct (a =? b) eqn:E; [apply Nat.eqb_eq in E; congruence|].
  destruct (a =? 1); [congruence|].
  destruct (b =? 1) eqn:E1; [apply Nat.eqb_eq in E1; congruence|discriminate].
Qed.

Section UnboundedMore.

Local Open Scope Qc_scope.

Variable cholesky : ndarray Qc -> result (ndarray Qc).

Hypothesis cholesky_spec :
  forall C L, cholesky C = OK L -> cholesky_factor C L.

(** What the constructor has stored: the mean as a row, and a
    lower-triangular factor with a nonzero diagonal. *)
Lemma init_inv (mu C : ndarray Qc) (N : UnboundedNormalizer.t) (m : nat) :
  wf mu -> np_size mu = m -> shape C = [m; m] ->
  UnboundedNormalizer.init cholesky mu C = OK N ->
  exists l,
    N = UnboundedNormalizer.mk (mat 1 m (fun _ j => nth j (data mu) 0))
                               (mat m m l) /\
    (forall i j, (i < j)%nat -> (j < m)%nat -> l i j = 0) /\
    (forall i, (i < m)%nat -> l i i <> 0).
Proof.
  intros Hwmu Hmu HsC Hinit.
  unfold UnboundedNormalizer.init in Hinit.
  rewrite Hmu, (reshape_row 0 Hwmu Hmu) in Hinit. cbn [bind] in Hinit.
  destruct (cholesky C) as [L0|e] eqn:EL; [|discriminate].
  cbn [bind] in Hinit. injection Hinit as <-.
  destruct (cholesky_spec EL) as (m' & HsC' & HsL & HwL & Hlow & Hdiag & _).
  assert (m' = m) by congruence. subst m'.
  exists (get2 0 L0). split; [|split].
  - now rewrite <- (as_mat 0 HsL HwL).
  - intros i j Hij Hj. apply Hlow; [exact Hij|].
    now rewrite (ncols_2d _ HsL).
  - intros i Hi E. specialize (Hdiag i Hi). rewrite E in Hdiag.
    apply Qclt_not_le in Hdiag. apply Hdiag, Qcle_refl.
Qed.

(** X11. The constructor does not compare the size of [mu] with the size
    of [C]: whenever the factorisation of [C] returns, the constructor
    returns a normalizer, whatever the size of [mu].  When the two sizes
    differ (and neither is 1) both methods of that normalizer raise on
    every input, [unnormalize] a ValueError. *)
Theorem UnboundedNormalizer_size_unchecked
  (mu C L0 : ndarray Qc) (k m : nat) :
  np_size mu = k -> shape C = [m; m] ->
  cholesky C = OK L0 ->
  exists N,
    UnboundedNormalizer.init cholesky mu C = OK N /\
    UnboundedNormalizer.L N = L0 /\
    shape (UnboundedNormalizer.mu N) = [1%nat; k] /\
    data (UnboundedNormalizer.mu N) = data mu /\
    (k <> m -> k <> 1%nat -> m <> 1%nat ->
     forall X,
       (exists e, UnboundedNormalizer.normalize N X = Error e) /\
       (exists msg,
          UnboundedNormalizer.unnormalize N X = Error (ValueError, msg))).
Proof.
  intros Hmu HsC EL.
  unfold UnboundedNormalizer.init, reshape.
  replace (prod [1%nat; np_size mu]) with (np_size mu) by (simpl; lia).
  rewrite Nat.eqb_refl. cbn [bind]. rewrite EL. cbn [bind].
  eexists. split; [reflexivity|].
  cbn [UnboundedNormalizer.mu UnboundedNormalizer.L shape data].
  split; [reflexivity|]. split; [now rewrite Hmu|]. split; [reflexivity|].
  intros Hkm Hk1 Hm1 X.
  destruct (cholesky_spec EL) as (m' & HsC' & HsL & _).
  assert (m' = m) by congruence. subst m'. rewrite Hmu.
  unfold UnboundedNormalizer.normalize, UnboundedNormalizer.unnormalize.
  cbn [UnboundedNormalizer.mu UnboundedNormalizer.L].
  destruct (Nat.eq_dec (ndim X) 2) as [E2|N2].
  2:{ rewrite (process_inputs_not_2d _ N2). cbn [bind].
      split; [now eexists | now exists msg_inputs_2d]. }
  destruct (ndim_2_inv _ E2) as (M & m' & HsX).
  rewrite (process_inputs_2d _ HsX). cbn [bind]. split.
  - unfold broadcast2. rewrite HsX. cbn [shape].
    rewrite broadcast_dim_1_r.
    destruct (broadcast_dim m' k) as [c|] eqn:Ec; [|now eexists].
    apply broadcast_dim_some in Ec; [subst c|exact Hk1].
    cbn [bind]. unfold solve, solve_with. rewrite HsL, Nat.eqb_refl.
    cbn [negb]. unfold transpose at 1. cbn [shape].
    apply Nat.eqb_neq in Hkm. rewrite Hkm. cbn [negb].
    now eexists.
  - unfold np_dot, transpose. rewrite HsX, HsL. cbn [shape].
    destruct (m' =? m)%nat; [|now exists msg_aligned].
    cbn [bind]. unfold broadcast2. cbn [shape].
    rewrite (broadcast_dim_none (not_eq_sym Hkm) Hm1 Hk1).
    rewrite broadcast_dim_1_r. now exists msg_broadcast.
Qed.

(** X12. A normalizer built from a length-[m] mean and an [m]-by-[m]
    covariance sends rows equal to the mean to rows of zeros, and rows of
    zeros back to the mean. *)
Theorem UnboundedNormalizer_mean_to_origin
  (mu C : ndarray Qc) (N : UnboundedNormalizer.t) (M m : nat) :
  wf mu -> np_size mu = m -> shape C = [m; m] ->
  UnboundedNormalizer.init cholesky mu C = OK N ->
  let rows := mat M m (fun _ j => nth j (data mu) 0) in
  UnboundedNormalizer.normalize N rows = OK (full [M; m] 0) /\
  UnboundedNormalizer.unnormalize N (full [M; m] 0) = OK rows.
Proof.
  intros Hwmu Hmu HsC Hinit rows. subst rows.
  destruct (@init_inv mu C N m Hwmu Hmu HsC Hinit) as (l & -> & lower & diagonal).
  rewrite (full_mat 0 M m 0). split.
  - apply (@normalize_entries m (fun j => nth j (data mu) 0) l lower diagonal
             M (fun _ j => nth j (data mu) 0) (fun _ _ => 0)).
    intros j i Hj Hi. unfold product_entry.
    rewrite Qcsum_zero by (intros; ring). ring.
  - rewrite unnormalize_entries. apply f_equal, (mat_ext 0).
    intros i k Hi Hk. unfold product_entry.
    rewrite Qcsum_zero by (intros; ring). ring.
Qed.

(** X13. The two methods treat the column count of [X] differently.
    [unnormalize] raises a ValueError whenever [X] does not have [m]
    columns.  [normalize] accepts a one-column [X], using its column for
    every coordinate, and raises a ValueError for any other column count
    than [m] (when [m] is not 1). *)
Theorem UnboundedNormalizer_column_count
  (mu C X : ndarray Qc) (N : UnboundedNormalizer.t) (M m m' : nat) :
  wf mu -> np_size mu = m -> shape C = [m; m] ->
  UnboundedNormalizer.init cholesky mu C = OK N ->
  wf X -> shape X = [M; m'] ->
  (m' <> m ->
   exists msg, UnboundedNormalizer.unnormalize N X = Error (ValueError, msg)) /\
  (m' = 1%nat ->
   UnboundedNormalizer.normalize N X
   = UnboundedNormalizer.normalize N (mat M m (fun i _ => get2 0 X i 0)) /\
   exists Y, UnboundedNormalizer.normalize N X = OK Y /\ shape Y = [M; m]) /\
  (m' <> m -> m' <> 1%nat -> m <> 1%nat ->
   exists msg, UnboundedNormalizer.normalize N X = Error (ValueError, msg)).
Proof.
  intros Hwmu Hmu HsC Hinit HwX HsX.
  destruct (@init_inv mu C N m Hwmu Hmu HsC Hinit) as (l & -> & lower & diagonal).
  pose (u := fun j => nth j (data mu) 0).
  split; [|split].
  - intros Hm. unfold UnboundedNormalizer.unnormalize.
    rewrite (process_inputs_2d _ HsX).
    cbn [bind UnboundedNormalizer.L UnboundedNormalizer.mu].
    rewrite transpose_mat. unfold np_dot. rewrite HsX. cbn [mat shape].
    apply Nat.eqb_neq in Hm. rewrite Hm. now exists msg_aligned.
  - intros ->. pose proof (as_mat 0 HsX HwX) as EX.
    set (g := get2 0 X) in *. rewrite EX.
    assert (E : UnboundedNormalizer.normalize
                  (UnboundedNormalizer.mk (mat 1 m (fun _ j => u j)) (mat m m l))
                  (mat M 1 g)
                = UnboundedNormalizer.normalize
                  (UnboundedNormalizer.mk (mat 1 m (fun _ j => u j)) (mat m m l))
                  (mat M m (fun i _ => g i 0%nat))).
    { unfold UnboundedNormalizer.normalize.
      rewrite !process_inputs_mat.
      cbn [bind UnboundedNormalizer.L UnboundedNormalizer.mu].
      rewrite (@broadcast2_mat _ 0 Qcminus M 1 1 m M m _ _
                 (broadcast_dim_1_r M) (broadcast_dim_1_l m)).
      rewrite broadcast2_mat_row.
      replace (mat M m (fun i j => g (bidx M i) (bidx 1 j) - u (bidx m j)))
        with (mat M m (fun i j => g i 0%nat - u j)); [reflexivity|].
      apply (mat_ext 0). intros i j Hi Hj.
      change (bidx 1 j) with 0%nat.
      now rewrite !bidx_lt by assumption. }
    split; [exact E|].
    destruct (@normalize_solves m u l lower diagonal M (fun i _ => g i 0%nat))
      as (z & Hz & _).
    eexists. split; [exact (eq_trans E Hz)|reflexivity].
  - intros Hm Hm1 H1. unfold UnboundedNormalizer.normalize.
    rewrite (process_inputs_2d _ HsX).
    cbn [bind UnboundedNormalizer.L UnboundedNormalizer.mu].
    rewrite (@broadcast2_mismatch _ 0 Qcminus X
               (mat 1 m (fun _ j => nth j (data mu) 0))
               M m' 1 m HsX eq_refl (broadcast_dim_none Hm Hm1 H1)).
    now exists msg_broadcast.
Qed.

End UnboundedMore.

Lemma UnboundedNormalizer_size_unchecked_witness :
  exists N,
    UnboundedNormalizer.init cholesky_example mu_three C_example = OK N /\
    UnboundedNormalizer.L N = L_example /\
    shape (UnboundedNormalizer.mu N) = [1; 3] /\
    data (UnboundedNormalizer.mu N) = data mu_three /\
    (3 <> 2 -> 3 <> 1 -> 2 <> 1 ->
     forall X,
       (exists e, UnboundedNormalizer.normalize N X = Error e) /\
       (exists msg,
          UnboundedNormalizer.unnormalize N X = Error (ValueError, msg))).
Proof.
  apply (@UnboundedNormalizer_size_unchecked
           cholesky_example cholesky_example_spec
           mu_three C_example L_example 3 2
           eq_refl eq_refl eq_refl).
Defined.

Lemma UnboundedNormalizer_mean_to_origin_witness :
  let rows := mat 2 2 (fun _ j => nth j (data mu_example) 0%Qc) in
  UnboundedNormalizer.normalize N_example rows = OK (full [2; 2] 0%Qc) /\
  UnboundedNormalizer.unnormalize N_example (full [2; 2] 0%Qc) = OK rows.
Proof.
  apply (@UnboundedNormalizer_mean_to_origin
           cholesky_example cholesky_example_spec
           mu_example C_example N_example 2 2
           eq_refl eq_refl eq_refl eq_refl).
Defined.

Lemma UnboundedNormalizer_column_count_witness :
  (exists msg,
     UnboundedNormalizer.unnormalize N_example X_wide
     = Error (ValueError, msg)) /\
  (exists Y,
     UnboundedNormalizer.normalize N_example B_example = OK Y /\
     shape Y = [2; 2]) /\
  (exists msg,
     UnboundedNormalizer.normalize N_example X_wide
     = Error (ValueError, msg)).
Proof.
  split; [|split].
  - apply (@UnboundedNormalizer_column_count
             cholesky_example cholesky_example_spec
             mu_example C_example X_wide N_example 1 2 3
             eq_refl eq_refl eq_refl eq_refl eq_refl eq_refl).
    lia.
  - apply (@UnboundedNormalizer_column_count
             cholesky_example cholesky_example_spec
             mu_example C_example B_example N_example 2 2 1
             eq_refl eq_refl eq_refl eq_refl eq_refl eq_refl).
    reflexivity.
  - apply (@UnboundedNormalizer_column_count
             cholesky_example cholesky_example_spec
             mu_example C_example X_wide N_example 1 2 3
             eq_refl eq_refl eq_refl eq_refl eq_refl eq_refl); lia.
Defined.

(** ** Conditional expectations *)

(** A call on a column of [M] values and [M] labels whose largest is not
    negative, from any log: the two columns of group statistics, and one
    more record. *)
Lemma conditional_expectations_run
  (f : ndarray float) (ind : ndarray Z) (M : nat) (top : Z)
  (s : list log_record) :
  wf f -> shape f = [M; 1] -> wf ind -> shape ind = [M] ->
  np_amax ind = OK top -> (0 <= top)%Z ->
  conditional_expectations f ind s
  = (OK (group_column arithmetic_mean f ind (Z.to_nat (top + 1)),
         group_column population_variance f ind (Z.to_nat (top + 1))),
     s ++ [mk_log "PAUL" INFO
             (log_message (top + 1)
                (Z.of_nat (count_occ Z.eq_dec (data ind) 0%Z)))]).
Proof.
  intros Hwf Hsf Hwi Hsi Htop H0.
  unfold conditional_expectations, lbind, lift, log_info.
  rewrite Htop. rewrite np_zeros_column by lia.
  unfold np_sum_bool, np_eq. cbn [data]. rewrite count_true_eq_0.
  unfold range. set (n := Z.to_nat (top + 1)).
  pose proof (for_each_groups Hwf Hsf Hwi Hsi (n := n) n [] [] eq_refl eq_refl)
    as H.
  cbn [List.length app] in H. rewrite H. reflexivity.
Qed.

Lemma get2_group_column (stat : list float -> float)
  (f : ndarray float) (ind : ndarray Z) (n i : nat) :
  i < n ->
  get2 NaN (group_column stat f ind n) i 0
  = stat (group_values f ind (Z.of_nat i)).
Proof.
  intros Hi. unfold get2, ncols, group_column. cbn [shape data nth].
  rewrite Nat.mul_1_r, Nat.add_0_r.
  set (g := fun i => stat (group_values f ind (Z.of_nat i))).
  rewrite nth_indep with (d' := g 0) by (rewrite length_map, length_seq; lia).
  now rewrite (map_nth g (seq 0 n) 0 i), seq_nth by lia.
Qed.

(** X14. When every label is negative the loop does not run and [f] is
    not read: with largest label -1 the call returns two empty 0-by-1
    columns, with a smaller one it raises the ValueError of [np.zeros];
    either way it has logged its record first, with 0 samples. *)
Theorem conditional_expectations_negative_only
  (f : ndarray float) (ind : ndarray Z) (top : Z) :
  np_amax ind = OK top -> (top < 0)%Z ->
  snd (run_log (conditional_expectations f ind))
    = [mk_log "PAUL" INFO (log_message (top + 1) 0)] /\
  (top = (-1)%Z ->
   fst (run_log (conditional_expectations f ind))
   = OK (mk_ndarray [0; 1] [], mk_ndarray [0; 1] [])) /\
  ((top < -1)%Z ->
   fst (run_log (conditional_expectations f ind))
   = Error (ValueError, msg_negative)).
Proof.
  intros Htop Hneg.
  assert (Hne : data ind <> []).
  { intros E. unfold np_amax in Htop. now rewrite E in Htop. }
  destruct (np_amax_spec ind Hne) as (top' & Htop' & _ & Hmax).
  assert (top' = top) by congruence. subst top'.
  assert (Hc : count_occ Z.eq_dec (data ind) 0%Z = 0).
  { apply count_occ_not_In. intros Hin.
    rewrite Forall_forall in Hmax. specialize (Hmax _ Hin). lia. }
  unfold run_log, conditional_expectations, lbind, lift, log_info.
  rewrite Htop. unfold np_sum_bool, np_eq. cbn [data].
  rewrite count_true_eq_0, Hc. cbn [app Z.of_nat].
  split; [|split].
  - destruct (np_zeros [(top + 1)%Z; 1%Z]) as [E|e]; [|reflexivity].
    destruct (for_each _ _ _); reflexivity.
  - intros ->. reflexivity.
  - intros Hlt. unfold np_zeros. cbn [existsb].
    replace (Z.ltb (top + 1) 0) with true by (symmetry; apply Z.ltb_lt; lia).
    reflexivity.
Qed.

Section VarianceFacts.

Local Open Scope Qc_scope.

Lemma Qc_square_nonneg (a : Qc) : 0 <= a * a.
Proof.
  destruct (Qclt_le_dec a 0) as [Hneg|Hpos].
  - replace (a * a) with ((- a) * (- a)) by ring.
    assert (H : 0 <= - a).
    { apply Qclt_le_weak in Hneg. apply Qcopp_le_compat in Hneg.
      now replace (- 0) with 0 in Hneg by ring. }
    now apply Qc_mult_nonneg.
  - now apply Qc_mult_nonneg.
Qed.

Lemma Qc_of_nat_nonneg (k : nat) : 0 <= Qc_of_nat k.
Proof.
  unfold Qc_of_nat, Qc_of_Z, Qcle. cbn [this Q2Qc].
  rewrite !Qred_correct. unfold Qle. simpl. lia.
Qed.

Lemma not_negative_square (d : float) : not_negative (fmul d d).
Proof.
  destruct d as [a| | |]; cbn; try exact I. apply Qc_square_nonneg.
Qed.

Lemma not_negative_fadd (x y : float) :
  not_negative x -> not_negative y -> not_negative (fadd x y).
Proof.
  destruct x as [a| | |], y as [b| | |]; cbn; try tauto.
  intros Ha Hb. replace 0 with (0 + 0) by ring.
  now apply Qcplus_le_compat.
Qed.

Lemma not_negative_fold (l : list float) (acc : float) :
  not_negative acc -> Forall not_negative l ->
  not_negative (fold_left fadd l acc).
Proof.
  revert acc. induction l as [|x l IH]; intros acc Hacc Hl; [exact Hacc|].
  inversion Hl as [|? ? Hx Hl']; subst. cbn [fold_left].
  apply IH; [now apply not_negative_fadd | exact Hl'].
Qed.

Lemma not_negative_fdiv (x : float) (k : nat) :
  not_negative x -> not_negative (fdiv x (of_nat k)).
Proof.
  pose proof (Qc_of_nat_nonneg k) as Hk. unfold of_nat.
  destruct x as [a| | |]; cbn [fdiv not_negative]; try tauto.
  - intros Ha. destruct (Qc_eq_bool (Qc_of_nat k) 0) eqn:E.
    + destruct (a ?= 0) eqn:Ec; cbn; try exact I.
      apply Qclt_not_le in Ec. exact (Ec Ha).
    + cbn. apply Qc_div_nonneg; [exact Ha|].
      apply Qcle_lt_or_eq in Hk. destruct Hk as [Hk|Hk]; [exact Hk|].
      rewrite <- Hk, Qc_eq_bool_refl in E. discriminate.
  - intros _. unfold Qcltb.
    destruct (Qc_of_nat k ?= 0) eqn:Ec; cbn; try exact I.
    apply Qclt_not_le in Ec. exact (Ec Hk).
Qed.

(** [np.var] sums squares and divides by a count. *)
Lemma population_variance_not_negative (l : list float) :
  not_negative (population_variance l).
Proof.
  unfold population_variance, fsum.
  apply not_negative_fdiv, not_negative_fold.
  - unfold of_Z. cbn. apply Qcle_refl.
  - apply Forall_forall. intros x Hx. apply in_map_iff in Hx.
    destruct Hx as (y & <- & _). apply not_negative_square.
Qed.

Lemma single_sample (q : Qc) :
  arithmetic_mean [Fin q] = Fin q /\ population_variance [Fin q] = of_Z 0.
Proof.
  assert (Hm : mean_Q [q] = q).
  { unfold mean_Q, Qc_of_nat.
    change (Z.of_nat (List.length [q])) with 1%Z. rewrite Qc_of_Z_1.
    cbn [Qcsum fold_right]. field.
    intros E. discriminate (f_equal this E). }
  change [Fin q] with (map Fin [q]). split.
  - rewrite (@arithmetic_mean_Fin [q]) by discriminate. now rewrite Hm.
  - rewrite (@population_variance_Fin [q]) by discriminate.
    unfold of_Z. rewrite Qc_of_Z_0. f_equal.
    unfold variance_Q. rewrite Hm. unfold Qc_of_nat.
    change (Z.of_nat (List.length [q])) with 1%Z. rewrite Qc_of_Z_1.
    cbn [Qcsum fold_right map]. field.
    intros E. discriminate (f_equal this E).
Qed.

End VarianceFacts.

(** X15. A group with a single finite sample has that sample as its mean
    and 0 as its variance. *)
Theorem conditional_expectations_single_sample
  (f : ndarray float) (ind : ndarray Z) (M : nat) (top : Z) (i : nat) (q : Qc) :
  wf f -> shape f = [M; 1] -> wf ind -> shape ind = [M] ->
  np_amax ind = OK top -> (0 <= top)%Z ->
  i < Z.to_nat (top + 1) ->
  group_values f ind (Z.of_nat i) = [Fin q] ->
  exists Ef Vf,
    fst (run_log (conditional_expectations f ind)) = OK (Ef, Vf) /\
    get2 NaN Ef i 0 = Fin q /\ get2 NaN Vf i 0 = of_Z 0.
Proof.
  intros Hwf Hsf Hwi Hsi Htop H0 Hi Hg.
  unfold run_log.
  rewrite (conditional_expectations_run [] Hwf Hsf Hwi Hsi Htop H0).
  eexists. eexists. split; [reflexivity|].
  rewrite !get2_group_column by assumption. rewrite Hg.
  apply single_sample.
Qed.

(** X16. No entry of [Vf] is negative: each one is zero or above, or an
    infinity or NaN where the group is empty or not finite. *)
Theorem conditional_expectations_variance_not_negative
  (f : ndarray float) (ind : ndarray Z) (M : nat) (top : Z) :
  wf f -> shape f = [M; 1] -> wf ind -> shape ind = [M] ->
  np_amax ind = OK top -> (0 <= top)%Z ->
  exists Ef Vf,
    fst (run_log (conditional_expectations f ind)) = OK (Ef, Vf) /\
    forall i, i < Z.to_nat (top + 1) -> not_negative (get2 NaN Vf i 0).
Proof.
  intros Hwf Hsf Hwi Hsi Htop H0.
  unfold run_log.
  rewrite (conditional_expectations_run [] Hwf Hsf Hwi Hsi Htop H0).
  eexists. eexists. split; [reflexivity|].
  intros i Hi. rewrite get2_group_column by assumption.
  apply population_variance_not_negative.
Qed.

Section LabelFacts.

Lemma combine_fst_snd (A B : Type) (l : list (A * B)) :
  combine (map fst l) (map snd l) = l.
Proof.
  induction l as [|[a b] l IH]; [reflexivity|]. cbn. now rewrite IH.
Qed.

Lemma filter_filter_imp (A : Type) (p q : A -> bool) (l : list A) :
  (forall a, p a = true -> q a = true) ->
  filter p (filter q l) = filter p l.
Proof.
  intros H. induction l as [|a l IH]; [reflexivity|]. cbn.
  destruct (q a) eqn:Eq; cbn.
  - now rewrite IH.
  - destruct (p a) eqn:Ep; [|exact IH].
    apply H in Ep. congruence.
Qed.

Lemma in_combine_snd (A B : Type) (la : list A) (lb : list B) (b : B) :
  List.length la = List.length lb -> In b lb ->
  exists a, In (a, b) (combine la lb).
Proof.
  revert lb. induction la as [|a la IH]; intros [|b' lb] Hl Hin;
    cbn in *; try discriminate; try contradiction.
  destruct Hin as [->|Hin].
  - exists a. now left.
  - destruct (IH lb) as [a' Ha']; [lia|exact Hin|].
    exists a'. now right.
Qed.

Lemma count_occ_labelled (l : list (float * Z)) :
  count_occ Z.eq_dec (map snd (filter (fun p => (0 <=? snd p)%Z) l)) 0%Z
  = count_occ Z.eq_dec (map snd l) 0%Z.
Proof.
  induction l as [|[x z] l IH]; [reflexivity|]. cbn [filter snd map].
  destruct (0 <=? z)%Z eqn:E; cbn [map snd count_occ].
  - now rewrite IH.
  - destruct (Z.eq_dec z 0) as [->|_]; [discriminate|exact IH].
Qed.

Lemma map_snd_combine (A B : Type) (la : list A) (lb : list B) :
  List.length la = List.length lb -> map snd (combine la lb) = lb.
Proof.
  revert lb. induction la as [|a la IH]; intros [|b lb] Hl;
    cbn in *; try discriminate; [reflexivity|].
  rewrite IH by lia. reflexivity.
Qed.

(** The largest label is the one label that bounds all the others. *)
Lemma np_amax_iff (ind : ndarray Z) (top : Z) :
  np_amax ind = OK top <->
  In top (data ind) /\ Forall (fun z => (z <= top)%Z) (data ind).
Proof.
  split.
  - intros Htop.
    assert (Hne : data ind <> []).
    { intros E. unfold np_amax in Htop. now rewrite E in Htop. }
    destruct (np_amax_spec ind Hne) as (top' & Htop' & Hin & Hmax).
    assert (top' = top) by congruence. now subst top'.
  - intros [Hin Hmax].
    assert (Hne : data ind <> []) by (intros E; now rewrite E in Hin).
    destruct (np_amax_spec ind Hne) as (top' & Htop' & Hin' & Hmax').
    rewrite Forall_forall in Hmax, Hmax'.
    pose proof (Hmax _ Hin'). pose proof (Hmax' _ Hin).
    rewrite Htop'. f_equal. lia.
Qed.

Variables (f : ndarray float) (ind : ndarray Z) (M : nat).

Hypothesis wf_f : wf f.
Hypothesis shape_f : shape f = [M; 1].
Hypothesis wf_ind : wf ind.
Hypothesis shape_ind : shape ind = [M].

Lemma length_values_labels : List.length (data f) = List.length (data ind).
Proof.
  unfold wf, np_size in wf_f, wf_ind.
  rewrite shape_f in wf_f. rewrite shape_ind in wf_ind.
  simpl in wf_f, wf_ind. lia.
Qed.

Lemma group_values_labelled (i : Z) :
  (0 <= i)%Z ->
  group_values (labelled_values f ind) (labelled_labels f ind) i
  = group_values f ind i.
Proof.
  intros Hi. unfold group_values, labelled_values, labelled_labels.
  cbn [data]. rewrite combine_fst_snd. unfold labelled.
  rewrite filter_filter_imp; [reflexivity|].
  intros [x z] E. cbn [snd] in *. apply Z.eqb_eq in E. subst z.
  now apply Z.leb_le.
Qed.

Lemma np_amax_labelled (top : Z) :
  np_amax ind = OK top -> (0 <= top)%Z ->
  np_amax (labelled_labels f ind) = OK top.
Proof.
  intros Htop H0. apply np_amax_iff in Htop. destruct Htop as [Hin Hmax].
  apply np_amax_iff. unfold labelled_labels, labelled. cbn [data]. split.
  - destruct (@in_combine_snd _ _ (data f) (data ind) top
                length_values_labels Hin) as [x Hx].
    apply in_map_iff. exists (x, top). split; [reflexivity|].
    apply filter_In. split; [exact Hx|]. now apply Z.leb_le.
  - apply Forall_forall. intros z Hz. apply in_map_iff in Hz.
    destruct Hz as ([x z'] & <- & Hz). apply filter_In in Hz.
    destruct Hz as [Hz _]. apply in_combine_r in Hz.
    rewrite Forall_forall in Hmax. now apply Hmax.
Qed.

(** X17. Samples with a negative label take no part: when the largest
    label is not negative, the call returns and logs what it returns and
    logs on the data with those samples removed. *)
Theorem conditional_expectations_ignores_negative_labels (top : Z) :
  np_amax ind = OK top -> (0 <= top)%Z ->
  run_log (conditional_expectations f ind)
  = run_log (conditional_expectations (labelled_values f ind)
                                      (labelled_labels f ind)).
Proof.
  intros Htop H0. unfold run_log.
  rewrite (conditional_expectations_run [] wf_f shape_f wf_ind shape_ind
             Htop H0).
  assert (Hwv : wf (labelled_values f ind)).
  { unfold wf, np_size, labelled_values. cbn [shape data].
    rewrite length_map. simpl. lia. }
  assert (Hwl : wf (labelled_labels f ind)).
  { unfold wf, np_size, labelled_labels. cbn [shape data].
    rewrite length_map. simpl. lia. }
  rewrite (conditional_expectations_run [] Hwv eq_refl Hwl eq_refl
             (np_amax_labelled Htop H0) H0).
  assert (Hcol : forall stat n,
            group_column stat (labelled_values f ind) (labelled_labels f ind) n
            = group_column stat f ind n).
  { intros stat n. unfold group_column. apply f_equal, map_ext.
    intros i. rewrite group_values_labelled by lia. reflexivity. }
  assert (Hc : count_occ Z.eq_dec (data (labelled_labels f ind)) 0%Z
               = count_occ Z.eq_dec (data ind) 0%Z).
  { unfold labelled_labels, labelled. cbn [data].
    rewrite count_occ_labelled, map_snd_combine; [reflexivity|].
    exact length_values_labels. }
  now rewrite !Hcol, Hc.
Qed.

End LabelFacts.

(** A loop does the same with a body that does the same. *)
Lemma for_each_ext (A S : Type) (l : list A) (body body' : A -> S -> result S) :
  (forall a s, body a s = body' a s) ->
  forall s, for_each l body s = for_each l body' s.
Proof.
  intros H. induction l as [|a l IH]; intros s; [reflexivity|].
  cbn [for_each]. rewrite H. destruct (body' a s); cbn [bind]; auto.
Qed.

(** X18. A flat array of values gives what the same values give as a
    column. *)
Theorem conditional_expectations_flat_values
  (f : ndarray float) (ind : ndarray Z) (M M' : nat) :
  shape f = [M] -> shape ind = [M'] ->
  run_log (conditional_expectations f ind)
  = run_log (conditional_expectations (mk_ndarray [M; 1] (data f)) ind).
Proof.
  intros Hsf Hsi.
  assert (Hstep : forall i acc,
            group_step f ind i acc
            = group_step (mk_ndarray [M; 1] (data f)) ind i acc).
  { intros i [Ef Vf]. unfold group_step, boolean_index, ndim, np_eq.
    cbn [shape data]. rewrite Hsf, Hsi.
    cbn [List.length firstn skipn].
    destruct (list_eq_dec Nat.eq_dec [M] [M']) as [_|_]; [|reflexivity].
    cbn [bind]. unfold np_var, np_mean, np_size. cbn [shape data prod].
    change (prod []) with 1. change (prod [1]) with 1.
    unfold prod. cbn [fold_right]. rewrite !Nat.mul_1_r. reflexivity. }
  unfold run_log, conditional_expectations, lbind, lift, log_info.
  destruct (np_amax ind) as [top|e]; [|reflexivity].
  destruct (np_zeros [(top + 1)%Z; 1%Z]) as [Z0|e]; [|reflexivity].
  now rewrite (for_each_ext _ _ _ Hstep).
Qed.

Lemma conditional_expectations_negative_only_witness :
  (snd (run_log (conditional_expectations f_example ind_negative))
     = [mk_log "PAUL" INFO (log_message 0 0)] /\
   fst (run_log (conditional_expectations f_example ind_negative))
     = OK (mk_ndarray [0; 1] [], mk_ndarray [0; 1] [])) /\
  fst (run_log (conditional_expectations f_example ind_below))
    = Error (ValueError, msg_negative).
Proof.
  split.
  - destruct (@conditional_expectations_negative_only
                f_example ind_negative (-1)%Z eq_refl)
      as (Hlog & Hok & _); [lia|].
    split; [exact Hlog | now apply Hok].
  - destruct (@conditional_expectations_negative_only
                f_example ind_below (-2)%Z eq_refl)
      as (_ & _ & Herr); [lia|].
    apply Herr. lia.
Defined.

Lemma conditional_expectations_single_sample_witness :
  exists Ef Vf,
    fst (run_log (conditional_expectations f_example ind_mixed)) = OK (Ef, Vf) /\
    get2 NaN Ef 0 0 = of_Z 1 /\ get2 NaN Vf 0 0 = of_Z 0.
Proof.
  apply (@conditional_expectations_single_sample f_example ind_mixed 4 1%Z 0
           (Qc_of_Z 1) eq_refl eq_refl eq_refl eq_refl eq_refl);
    [lia | vm_compute; lia | reflexivity].
Defined.

Lemma conditional_expectations_variance_not_negative_witness :
  exists Ef Vf,
    fst (run_log (conditional_expectations f_example ind_example)) = OK (Ef, Vf) /\
    forall i, i < 2 -> not_negative (get2 NaN Vf i 0).
Proof.
  apply (@conditional_expectations_variance_not_negative f_example ind_example
           4 1%Z eq_refl eq_refl eq_refl eq_refl eq_refl).
  lia.
Defined.

Lemma conditional_expectations_ignores_negative_labels_witness :
  run_log (conditional_expectations f_example ind_mixed)
  = run_log (conditional_expectations (labelled_values f_example ind_mixed)
                                      (labelled_labels f_example ind_mixed)).
Proof.
  apply (@conditional_expectations_ignores_negative_labels f_example ind_mixed 4
           eq_refl eq_refl eq_refl eq_refl 1%Z eq_refl).
  lia.
Defined.

Lemma conditional_expectations_flat_values_witness :
  run_log (conditional_expectations f_flat ind_example)
  = run_log (conditional_expectations (mk_ndarray [4; 1] (data f_flat))
                                      ind_example).
Proof.
  apply (@conditional_expectations_flat_values f_flat ind_example 4 4
           eq_refl eq_refl).
Defined.

(** * Double precision *)

(** ** Operations of the arithmetic *)

Section DoubleFacts.

Local Open Scope float_scope.

(** The double [2.0]: mantissa [2^52], exponent [-51]. *)
Let sf_two : spec_float := S754_finite false 4503599627370496 (-51).

Lemma Prim2SF_two : Prim2SF 2 = sf_two.
Proof. reflexivity. Qed.

(** A finite value minus itself is [+0.0]. *)
Lemma sub_self (x : Double.double) : Double.finite x = true -> x - x = 0.
Proof.
  intros H. apply Prim2SF_inj. rewrite FloatAxioms.sub_spec.
  unfold Double.finite in H.
  destruct (Prim2SF x) as [s|s| |s m e]; try discriminate.
  - destruct s; reflexivity.
  - unfold SF64sub, SFsub. rewrite Z.sub_diag. reflexivity.
Qed.

(** Zero divided by a value that is neither zero nor NaN is a zero. *)
Lemma zero_div (d : Double.double) :
  Double.divisor d = true -> 0 / d = 0 \/ 0 / d = -0.
Proof.
  intros H. unfold Double.divisor in H.
  assert (E : Prim2SF (0 / d) = SF64div (S754_zero false) (Prim2SF d))
    by (rewrite FloatAxioms.div_spec; reflexivity).
  destruct (Prim2SF d) as [s|s| |s m e]; try discriminate;
    destruct s; [right|left|right|left]; apply Prim2SF_inj; rewrite E;
    reflexivity.
Qed.

Lemma digits_mul_two_52 (m : positive) :
  Zdigits2 (Zpos (Pos.mul 4503599627370496 m)) = (Zpos (digits2_pos m) + 52)%Z.
Proof.
  cbn [Zdigits2 Pos.mul digits2_pos]. rewrite !Pos2Z.inj_succ. lia.
Qed.

(** A double is normal, with 53 digits, or subnormal, at the least
    exponent. *)
Lemma canonical_cases (m : positive) (e : Z) :
  bounded prec emax m e = true ->
  (Zpos (digits2_pos m) = 53 /\ -1074 <= e <= 971)%Z \/
  (Zpos (digits2_pos m) < 53 /\ e = -1074)%Z.
Proof.
  unfold bounded, canonical_mantissa, fexp, emin, prec, emax. intros H.
  apply andb_true_iff in H. destruct H as [H1 H2].
  apply Z.eqb_eq in H1. apply Z.leb_le in H2. lia.
Qed.

Lemma shr_52 (m : positive) (e : Z) :
  shr {| shr_m := Zpos (Pos.mul 4503599627370496 m);
         shr_r := false; shr_s := false |} e 52
  = ({| shr_m := Zpos m; shr_r := false; shr_s := false |}, (e + 52)%Z).
Proof. reflexivity. Qed.

Lemma shr_51 (m : positive) (e : Z) :
  shr {| shr_m := Zpos (Pos.mul 4503599627370496 m);
         shr_r := false; shr_s := false |} e 51
  = ({| shr_m := Zpos (m~0); shr_r := false; shr_s := false |}, (e + 51)%Z).
Proof. reflexivity. Qed.

(** Doubling a normal value raises its exponent, or overflows. *)
Lemma mul_two_normal (s : bool) (m : positive) (e : Z) :
  Zpos (digits2_pos m) = 53%Z -> (-1074 <= e)%Z ->
  SF64mul sf_two (S754_finite s m e)
  = if (e + 1 <=? 971)%Z then S754_finite s m (e + 1) else S754_infinity s.
Proof.
  intros Hk He. unfold sf_two, SF64mul, SFmul, binary_round_aux.
  cbn [xorb].
  unfold shr_fexp at 1. rewrite digits_mul_two_52, Hk.
  cbn [shr_record_of_loc].
  replace (fexp prec emax (53 + 52 + (-51 + e)) - (-51 + e))%Z with 52%Z
    by (unfold fexp, emin, prec, emax; lia).
  rewrite shr_52. cbn [shr_m loc_of_shr_record round_nearest_even].
  unfold shr_fexp. cbn [Zdigits2]. rewrite Hk.
  replace (fexp prec emax (53 + (-51 + e + 52)) - (-51 + e + 52))%Z with 0%Z
    by (unfold fexp, emin, prec, emax; lia).
  cbn [shr shr_record_of_loc shr_m].
  replace (-51 + e + 52)%Z with (e + 1)%Z by lia.
  reflexivity.
Qed.

(** Doubling a subnormal value doubles its mantissa. *)
Lemma mul_two_subnormal (s : bool) (m : positive) :
  (Zpos (digits2_pos m) < 53)%Z ->
  SF64mul sf_two (S754_finite s m (-1074)) = S754_finite s (m~0) (-1074).
Proof.
  intros Hk. unfold sf_two, SF64mul, SFmul, binary_round_aux.
  cbn [xorb].
  unfold shr_fexp at 1. rewrite digits_mul_two_52.
  cbn [shr_record_of_loc].
  replace (fexp prec emax (Zpos (digits2_pos m) + 52 + (-51 + -1074))
           - (-51 + -1074))%Z with 51%Z
    by (unfold fexp, emin, prec, emax; lia).
  rewrite shr_51. cbn [shr_m loc_of_shr_record round_nearest_even].
  unfold shr_fexp. cbn [Zdigits2 digits2_pos]. rewrite Pos2Z.inj_succ.
  replace (fexp prec emax (Z.succ (Zpos (digits2_pos m)) + (-51 + -1074 + 51))
           - (-51 + -1074 + 51))%Z with 0%Z
    by (unfold fexp, emin, prec, emax; lia).
  reflexivity.
Qed.

Lemma div_eucl_multiple (m : positive) (q : Z) :
  (0 <= q)%Z -> Z.div_eucl (Zpos m * q) (Zpos m) = (q, 0%Z).
Proof.
  intros Hq.
  pose proof (Z_div_mod (Zpos m * q) (Zpos m) eq_refl) as H.
  destruct (Z.div_eucl (Zpos m * q) (Zpos m)) as [q' r].
  destruct H as [H1 H2].
  assert (q' = q) by nia. subst q'. f_equal. lia.
Qed.

Lemma new_location_zero (m : positive) : new_location (Zpos m) 0 = loc_Exact.
Proof.
  unfold new_location. destruct (Z.even (Zpos m)); reflexivity.
Qed.

(** The quotient [2^53 * 2^-52] is the double [2.0]. *)
Lemma round_two (s : bool) :
  binary_round_aux prec emax (xorb s s) 9007199254740992 (-52) loc_Exact
  = sf_two.
Proof. destruct s; reflexivity. Qed.

Lemma div_twice_normal (s : bool) (m : positive) (e : Z) :
  Zpos (digits2_pos m) = 53%Z ->
  SF64div (S754_finite s m (e + 1)) (S754_finite s m e) = sf_two.
Proof.
  intros Hk. unfold SF64div, SFdiv, SFdiv_core_binary.
  cbn [Zdigits2]. rewrite Hk.
  replace (Z.min (fexp prec emax (53 + (e + 1) - (53 + e))) (e + 1 - e))
    with (-52)%Z by (unfold fexp, emin, prec, emax; lia).
  replace (e + 1 - e - -52)%Z with 53%Z by lia.
  replace (Z.shiftl (Zpos m) 53) with (Zpos m * 9007199254740992)%Z
    by (rewrite Z.shiftl_mul_pow2 by lia; reflexivity).
  rewrite div_eucl_multiple by lia. rewrite new_location_zero.
  apply round_two.
Qed.

Lemma div_twice_subnormal (s : bool) (m : positive) (e : Z) :
  SF64div (S754_finite s (m~0) e) (S754_finite s m e) = sf_two.
Proof.
  unfold SF64div, SFdiv, SFdiv_core_binary.
  cbn [Zdigits2 digits2_pos]. rewrite Pos2Z.inj_succ.
  replace (Z.min (fexp prec emax
                    (Z.succ (Zpos (digits2_pos m)) + e
                     - (Zpos (digits2_pos m) + e))) (e - e))
    with (-52)%Z by (unfold fexp, emin, prec, emax; lia).
  replace (e - e - -52)%Z with 52%Z by lia.
  replace (Z.shiftl (Zpos (m~0)) 52) with (Zpos m * 9007199254740992)%Z
    by (rewrite Z.shiftl_mul_pow2 by lia; change (Zpos m~0) with (2 * Zpos m)%Z;
        change (2 ^ 52)%Z with 4503599627370496%Z; lia).
  rewrite div_eucl_multiple by lia. rewrite new_location_zero.
  apply round_two.
Qed.

(** Twice a value, divided by the value, is exactly 2 when the doubling
    has not overflowed. *)
Lemma divide_twice (d : Double.double) :
  Double.finite_nonzero (2 * d) = true -> 2 * d / d = 2.
Proof.
  intros H. apply Prim2SF_inj. rewrite FloatAxioms.div_spec.
  unfold Double.finite_nonzero in H.
  rewrite FloatAxioms.mul_spec in *. rewrite Prim2SF_two in *.
  pose proof (Prim2SF_valid d) as V.
  destruct (Prim2SF d) as [s|s| |s m e]; try discriminate.
  cbn [SpecFloat.valid_binary] in V.
  destruct (canonical_cases _ _ V) as [[Hk He]|[Hk ->]].
  - rewrite mul_two_normal in * by lia.
    destruct (e + 1 <=? 971)%Z; [|discriminate].
    now apply div_twice_normal.
  - rewrite mul_two_subnormal by assumption. apply div_twice_subnormal.
Qed.

(** Two doubles with different bits are different. *)
Lemma double_neq (x y : Double.double) : Prim2SF x <> Prim2SF y -> x <> y.
Proof. intros H E. apply H. now rewrite E. Qed.

End DoubleFacts.

(** ** BoundedNormalizer in double precision *)

Section DoubleBounded.

Local Open Scope float_scope.

Variables (lb ub : ndarray Double.double) (m : nat).
Variable N : Double.BoundedNormalizer.t.

Hypothesis wf_lb : wf lb.
Hypothesis wf_ub : wf ub.
Hypothesis size_lb : np_size lb = m.
Hypothesis size_ub : np_size ub = m.
Hypothesis init_N : Double.BoundedNormalizer.init lb ub = OK N.

(** The bounds of coordinate [j]. *)
Let lo (j : nat) : Double.double := nth j (data lb) nan.
Let hi (j : nat) : Double.double := nth j (data ub) nan.

Lemma double_init_rows :
  N = Double.BoundedNormalizer.mk (mat 1 m (fun _ j => lo j))
                                  (mat 1 m (fun _ j => hi j)).
Proof.
  revert init_N. unfold Double.BoundedNormalizer.init. rewrite size_lb.
  rewrite (reshape_row nan wf_lb size_lb), (reshape_row nan wf_ub size_ub).
  simpl. intros H. injection H as <-. reflexivity.
Qed.

Lemma double_normalize_mat (M : nat) (g : nat -> nat -> Double.double) :
  Double.BoundedNormalizer.normalize N (mat M m g)
  = OK (mat M m (fun i j => Double.normalize_elt (lo j) (hi j) (g i j))).
Proof.
  rewrite double_init_rows. unfold Double.BoundedNormalizer.normalize.
  cbn [Double.BoundedNormalizer.lb Double.BoundedNormalizer.ub].
  mat_steps. reflexivity.
Qed.


(** C1, as the code computes it. [normalize] returns, entry by entry,
    [2*(X - lb)/(ub - lb) - 1] with the bounds of the entry's column, each
    operation rounded.  The stored row [lb] is mapped to exactly [-1] in
    every coordinate whose lower bound is finite and whose width
    [ub - lb] is neither zero nor NaN; the stored row [ub] is mapped to
    exactly [+1] in every coordinate where twice the width is finite and
    not zero, that is, where [2*(ub - lb)] has not overflowed. *)
Theorem BoundedNormalizer_normalize_double (X : ndarray Double.double) (M : nat) :
  wf X -> shape X = [M; m] ->
  (exists Y,
     Double.BoundedNormalizer.normalize N X = OK Y /\ shape Y = [M; m] /\
     wf Y /\
     forall i j, (i < M)%nat -> (j < m)%nat ->
       get2 nan Y i j = 2 * (get2 nan X i j - lo j) / (hi j - lo j) - 1) /\
  (exists Yl Yu,
     Double.BoundedNormalizer.normalize N (Double.BoundedNormalizer.lb N)
       = OK Yl /\
     Double.BoundedNormalizer.normalize N (Double.BoundedNormalizer.ub N)
       = OK Yu /\
     shape Yl = [1; m]%nat /\ shape Yu = [1; m]%nat /\
     forall j, (j < m)%nat ->
       (Double.finite (lo j) = true ->
        Double.divisor (hi j - lo j) = true ->
        get2 nan Yl 0 j = -1) /\
       (Double.finite_nonzero (2 * (hi j - lo j)) = true ->
        get2 nan Yu 0 j = 1)).
Proof.
  intros HwfX HsX. split.
  - pose proof (as_mat nan HsX HwfX) as EX.
    set (g := get2 nan X) in *. rewrite EX, double_normalize_mat.
    eexists. split; [reflexivity|]. split; [reflexivity|].
    split; [apply wf_mat|].
    intros i j Hi Hj. rewrite get2_mat by assumption. reflexivity.
  - assert (El : Double.BoundedNormalizer.lb N = mat 1 m (fun _ j => lo j))
      by (rewrite double_init_rows; reflexivity).
    assert (Eu : Double.BoundedNormalizer.ub N = mat 1 m (fun _ j => hi j))
      by (rewrite double_init_rows; reflexivity).
    rewrite El, Eu, !double_normalize_mat.
    eexists. eexists. split; [reflexivity|]. split; [reflexivity|].
    split; [reflexivity|]. split; [reflexivity|].
    intros j Hj. rewrite !get2_mat by lia.
    unfold Double.normalize_elt. split.
    + intros Hfin Hdiv. rewrite (sub_self _ Hfin).
      change (2 * 0) with 0.
      destruct (zero_div _ Hdiv) as [-> | ->]; reflexivity.
    + intros Hfin. now rewrite (divide_twice _ Hfin).
Qed.







End DoubleBounded.

(** *** Worked instances *)

Lemma BoundedNormalizer_normalize_double_witness :
  exists Yl Yu,
    Double.BoundedNormalizer.normalize N_four (Double.BoundedNormalizer.lb N_four)
      = OK Yl /\
    Double.BoundedNormalizer.normalize N_four (Double.BoundedNormalizer.ub N_four)
      = OK Yu /\
    get2 nan Yl 0 0 = (-1)%float /\ get2 nan Yu 0 0 = 1%float.
Proof.
  destruct (@BoundedNormalizer_normalize_double lb_four ub_four 1 N_four
              eq_refl eq_refl eq_refl eq_refl eq_refl X_four 2
              eq_refl eq_refl)
    as [_ (Yl & Yu & El & Eu & _ & _ & H)].
  exists Yl, Yu. split; [exact El|]. split; [exact Eu|].
  destruct (H 0 (le_n 1)) as [Hl Hu].
  split; [apply Hl; reflexivity | apply Hu; reflexivity].
Defined.

(** Finite bounds [0 < 10^308]: twice the width overflows, and the row
    [ub] is mapped to [+inf], not to [+1]. *)
Lemma BoundedNormalizer_upper_bound_overflow :
  wf lb_wide /\ wf ub_wide /\
  Double.BoundedNormalizer.init lb_wide ub_wide = OK N_wide /\
  Double.finite 0%float = true /\ Double.finite ten_308 = true /\
  PrimFloat.ltb 0%float ten_308 = true /\
  Double.BoundedNormalizer.normalize N_wide (Double.BoundedNormalizer.ub N_wide)
    = OK (mk_ndarray [1; 1] [infinity]) /\
  PrimFloat.eqb infinity 1%float = false.
Proof. repeat split; reflexivity. Qed.




(** ** UnboundedNormalizer in double precision *)



(** ** Conditional expectations in double precision *)

Section SelectMore.

Variable T : Type.

Lemma filter_mask (lf : list T) (li : list Z) (i : Z) :
  filter snd (combine lf (map (fun x => Z.eqb x i) li))
  = map (fun p => (fst p, Z.eqb (snd p) i))
        (filter (fun p => Z.eqb (snd p) i) (combine lf li)).
Proof.
  revert li. induction lf as [|x lf IH]; intros [|z li]; simpl; try reflexivity.
  destruct (Z.eqb z i) eqn:E; simpl; rewrite IH; [rewrite E|]; reflexivity.
Qed.

Lemma setitem_entry (n : nat) (pre post : list T) (x v : T) :
  List.length pre < n ->
  setitem (mk_ndarray [n; 1] (pre ++ x :: post)) (List.length pre) v
  = OK (mk_ndarray [n; 1] (pre ++ v :: post)).
Proof.
  intros Hk. unfold setitem. cbn [shape data].
  apply Nat.ltb_lt in Hk. rewrite Hk.
  change (prod [1]) with 1.
  rewrite Nat.mul_1_r.
  rewrite firstn_app, firstn_all, Nat.sub_diag. simpl firstn.
  rewrite app_nil_r.
  rewrite skipn_app, skipn_all2 by lia.
  replace (List.length pre + 1 - List.length pre) with 1 by lia.
  reflexivity.
Qed.

Lemma get2_column (d : T) (n : nat) (g : nat -> T) (i : nat) :
  i < n -> get2 d (mk_ndarray [n; 1] (map g (seq 0 n))) i 0 = g i.
Proof.
  intros Hi. unfold get2, ncols. cbn [shape data nth].
  rewrite Nat.mul_1_r, Nat.add_0_r.
  rewrite nth_indep with (d' := g 0) by (rewrite length_map, length_seq; lia).
  now rewrite (map_nth g (seq 0 n) 0 i), seq_nth by lia.
Qed.

End SelectMore.

Section DoubleGroups.

Local Open Scope float_scope.

Variable np_sum : list Double.double -> Double.double.

Hypothesis np_sum_short :
  forall l, (List.length l < 8)%nat -> np_sum l = Double.sequential_sum l.

Lemma double_np_zeros_column (n : Z) :
  (0 <= n)%Z ->
  Double.np_zeros [n; 1%Z]
  = OK (mk_ndarray [Z.to_nat n; 1%nat] (repeat 0 (Z.to_nat n))).
Proof.
  intros Hn. unfold Double.np_zeros. cbn [existsb].
  replace (Z.ltb n 0) with false by (symmetry; apply Z.ltb_ge; lia).
  cbn [orb Z.ltb Z.compare map].
  change (Z.to_nat 1) with 1%nat. unfold prod. cbn [fold_right].
  rewrite !Nat.mul_1_r. reflexivity.
Qed.

Lemma double_mean_column (l : list Double.double) :
  Double.np_mean np_sum (mk_ndarray [List.length l; 1%nat] l)
  = Double.mean_of np_sum l.
Proof.
  unfold Double.np_mean, Double.mean_of, np_size. simpl.
  now rewrite Nat.mul_1_r.
Qed.

Lemma double_var_column (l : list Double.double) :
  Double.np_var np_sum (mk_ndarray [List.length l; 1%nat] l)
  = Double.variance_of np_sum l.
Proof.
  unfold Double.np_var, Double.variance_of. rewrite double_mean_column.
  unfold np_size. simpl. now rewrite Nat.mul_1_r.
Qed.

(** Of no value at all, the mean and the variance are [0.0 / 0.0]. *)
Lemma double_statistics_empty :
  Double.mean_of np_sum [] = nan /\ Double.variance_of np_sum [] = nan.
Proof.
  unfold Double.variance_of, Double.mean_of. cbn [map List.length].
  rewrite np_sum_short by (simpl; lia). split; reflexivity.
Qed.

Variables (f : ndarray Double.double) (ind : ndarray Z) (M : nat).

Hypothesis wf_f : wf f.
Hypothesis shape_f : shape f = [M; 1%nat].
Hypothesis wf_ind : wf ind.
Hypothesis shape_ind : shape ind = [M].

Let group (i : nat) : list Double.double :=
  Double.group_values f ind (Z.of_nat i).

Lemma double_boolean_index (i : Z) :
  boolean_index f (np_eq ind i)
  = OK (mk_ndarray [List.length (Double.group_values f ind i); 1%nat]
          (Double.group_values f ind i)).
Proof.
  pose proof wf_f as Hwf. pose proof wf_ind as Hwi.
  unfold wf, np_size in Hwf, Hwi.
  rewrite shape_f in Hwf. rewrite shape_ind in Hwi.
  simpl in Hwf, Hwi.
  assert (Hlen : List.length (data f)
                 = List.length (map (fun x => Z.eqb x i) (data ind)))
    by (rewrite length_map; lia).
  unfold boolean_index, ndim, np_eq. simpl shape. simpl data.
  rewrite shape_ind, shape_f.
  change (firstn (List.length [M]) [M; 1%nat]) with [M].
  change (skipn (List.length [M]) [M; 1%nat]) with [1%nat].
  change (prod [1%nat]) with 1%nat.
  destruct (list_eq_dec Nat.eq_dec [M] [M]) as [_|Hne]; [|congruence].
  rewrite (select_one_filter _ _ Hlen).
  rewrite <- (count_true_filter _ _ Hlen).
  unfold Double.group_values. rewrite filter_mask, !map_map, !length_map.
  reflexivity.
Qed.

(** The loop fills the entries of [Ef] and [Vf] in turn. *)
Lemma double_for_each_groups (n r : nat) :
  forall (pe pv : list Double.double),
    (List.length pe + r = n)%nat -> List.length pv = List.length pe ->
    for_each (map Z.of_nat (seq (List.length pe) r))
      (Double.group_step np_sum f ind)
      (mk_ndarray [n; 1%nat] (pe ++ repeat 0 r),
       mk_ndarray [n; 1%nat] (pv ++ repeat 0 r))
    = OK (mk_ndarray [n; 1%nat]
            (pe ++ map (fun i => Double.mean_of np_sum (group i))
                       (seq (List.length pe) r)),
          mk_ndarray [n; 1%nat]
            (pv ++ map (fun i => Double.variance_of np_sum (group i))
                       (seq (List.length pe) r))).
Proof.
  induction r as [|r IH]; intros pe pv Hn Hpv; [reflexivity|].
  cbn [seq map for_each repeat]. unfold Double.group_step at 1.
  rewrite double_boolean_index.
  cbn [bind]. rewrite Nat2Z.id, double_mean_column, double_var_column.
  rewrite setitem_entry by lia. cbn [bind].
  rewrite <- Hpv, setitem_entry by lia. cbn [bind]. rewrite Hpv.
  fold (group (List.length pe)).
  specialize (IH (pe ++ [Double.mean_of np_sum (group (List.length pe))])
                 (pv ++ [Double.variance_of np_sum (group (List.length pe))])).
  rewrite !length_app in IH. simpl List.length in IH.
  rewrite <- !app_assoc in IH. simpl app in IH.
  replace (List.length pe + 1)%nat with (S (List.length pe)) in IH by lia.
  apply IH; lia.
Qed.

(** A call on a column of [M] values and [M] labels whose largest is not
    negative. *)
Lemma double_conditional_expectations_run (top : Z) :
  np_amax ind = OK top -> (0 <= top)%Z ->
  fst (run_log (Double.conditional_expectations np_sum f ind))
  = OK (mk_ndarray [Z.to_nat (top + 1); 1%nat]
          (map (fun i => Double.mean_of np_sum (group i))
               (seq 0 (Z.to_nat (top + 1)))),
        mk_ndarray [Z.to_nat (top + 1); 1%nat]
          (map (fun i => Double.variance_of np_sum (group i))
               (seq 0 (Z.to_nat (top + 1))))).
Proof.
  intros Htop H0.
  unfold run_log, Double.conditional_expectations, lbind, lift, log_info.
  rewrite Htop. rewrite double_np_zeros_column by lia.
  cbn [fst]. unfold range.
  exact (double_for_each_groups (n := Z.to_nat (top + 1)) (Z.to_nat (top + 1))
           [] [] eq_refl eq_refl).
Qed.

End DoubleGroups.

(** C5, as the code computes it. For a column [f] of [M >= 1] doubles and
    [M] nonnegative labels, [conditional_expectations] returns, without
    raising, columns [Ef] and [Vf] of [n = max(ind) + 1] entries.  Entry
    [i] of [Ef] is the sum of the values labelled [i] over their count,
    and entry [i] of [Vf] the sum of their squared deviations from that
    mean over the same count, every operation in double precision; for a
    label without a member both are NaN.  In particular [f = [1, 2, 3, 4]]
    with [ind = [0, 0, 1, 1]] gives [[1.5, 3.5]] and [[0.25, 0.25]]. *)
Theorem conditional_expectations_double
  (np_sum : list Double.double -> Double.double) :
  (forall l, List.length l < 8 -> np_sum l = Double.sequential_sum l) ->
  (forall (f : ndarray Double.double) (ind : ndarray Z) (M : nat),
     wf f -> shape f = [M; 1] -> wf ind -> shape ind = [M] -> 0 < M ->
     Forall (fun z => (0 <= z)%Z) (data ind) ->
     exists top Ef Vf,
       np_amax ind = OK top /\ In top (data ind) /\
       Forall (fun z => (z <= top)%Z) (data ind) /\
       fst (run_log (Double.conditional_expectations np_sum f ind))
         = OK (Ef, Vf) /\
       shape Ef = [Z.to_nat (top + 1); 1] /\ wf Ef /\
       shape Vf = [Z.to_nat (top + 1); 1] /\ wf Vf /\
       forall i, i < Z.to_nat (top + 1) ->
         let values := Double.group_values f ind (Z.of_nat i) in
         let mean :=
           PrimFloat.div (np_sum values) (Double.of_nat (List.length values)) in
         get2 nan Ef i 0 = mean /\
         get2 nan Vf i 0
         = PrimFloat.div
             (np_sum (map (fun x => PrimFloat.mul (PrimFloat.sub x mean)
                                                  (PrimFloat.sub x mean))
                          values))
             (Double.of_nat (List.length values)) /\
         (values = [] -> get2 nan Ef i 0 = nan /\ get2 nan Vf i 0 = nan)) /\
  fst (run_log (Double.conditional_expectations np_sum f_doubles ind_example))
  = OK (mk_ndarray [2; 1] [1.5%float; 3.5%float],
        mk_ndarray [2; 1] [0.25%float; 0.25%float]).
Proof.
  intros Hshort. split.
  - intros f ind M Hwf Hsf Hwi Hsi HM Hpos.
    assert (Hne : data ind <> []).
    { unfold wf, np_size in Hwi. rewrite Hsi in Hwi. simpl in Hwi.
      intros E. rewrite E in Hwi. simpl in Hwi. lia. }
    destruct (np_amax_spec ind Hne) as (top & Htop & Hin & Hmax).
    assert (H0 : (0 <= top)%Z).
    { rewrite Forall_forall in Hpos. now apply Hpos. }
    exists top. eexists. eexists.
    split; [exact Htop|]. split; [exact Hin|]. split; [exact Hmax|].
    split; [exact (double_conditional_expectations_run np_sum
                     Hwf Hsf Hwi Hsi Htop H0)|].
    split; [reflexivity|].
    split; [unfold wf, np_size; cbn [shape data];
            rewrite length_map, length_seq; simpl; lia|].
    split; [reflexivity|].
    split; [unfold wf, np_size; cbn [shape data];
            rewrite length_map, length_seq; simpl; lia|].
    intros i Hi. cbv zeta. rewrite !get2_column by assumption.
    split; [reflexivity|]. split; [reflexivity|].
    intros ->. exact (double_statistics_empty np_sum Hshort).
  - rewrite (@double_conditional_expectations_run np_sum f_doubles ind_example 4
               eq_refl eq_refl eq_refl eq_refl 1%Z eq_refl) by lia.
    vm_compute. rewrite !Hshort by (cbn [List.length]; lia).
    reflexivity.
Qed.

Lemma conditional_expectations_double_witness :
  fst (run_log (Double.conditional_expectations Double.sequential_sum
                  f_doubles ind_example))
  = OK (mk_ndarray [2; 1] [1.5%float; 3.5%float],
        mk_ndarray [2; 1] [0.25%float; 0.25%float]).
Proof.
  apply (@conditional_expectations_double Double.sequential_sum).
  intros l _. reflexivity.
Defined.

(** No value and no label at all: the call raises, where a pair of empty
    columns would be the result.  And two values [2^1023] with the label
    [0]: their arithmetic mean is [2^1023], their variance 0, and the
    sum of the two overflows, so that both entries are [+inf]. *)
Lemma conditional_expectations_double_fails :
  (wf f_none /\ shape f_none = [0; 1] /\
   wf ind_empty /\ shape ind_empty = [0] /\
   Forall (fun z => (0 <= z)%Z) (data ind_empty) /\
   fst (run_log (Double.conditional_expectations Double.sequential_sum
                   f_none ind_empty))
   = Error (ValueError, msg_amax)) /\
  (arithmetic_mean (map to_exact [huge; huge]) = to_exact huge /\
   population_variance (map to_exact [huge; huge]) = to_exact 0%float /\
   fst (run_log (Double.conditional_expectations Double.sequential_sum
                   f_huge ind_pair))
   = OK (mk_ndarray [1; 1] [infinity], mk_ndarray [1; 1] [infinity]) /\
   PrimFloat.eqb infinity huge = false /\
   PrimFloat.eqb infinity 0%float = false).
Proof.
  split.
  - split; [reflexivity|]. split; [reflexivity|]. split; [reflexivity|].
    split; [reflexivity|]. split; [constructor | reflexivity].
  - split; [vm_compute; apply Fin_this; reflexivity|].
    split; [vm_compute; apply Fin_this; reflexivity|].
    repeat split; reflexivity.
Qed.
